(** * CourseWatcher: video discovery, progress tracking, notes and queries

    A shallow embedding of the services of CourseWatcher
    (services/video-service.js, services/progress-service.js,
    services/notes-service.js, the search routes of server.js, the schema of
    models/database.js and utils/config.js), and the properties of the
    specification checked against it.

    Conventions of the embedding:
    - a JavaScript number is an IEEE 754 binary64 value, here [spec_float]
      with precision 53 and maximal exponent 1024; SQLite's REAL is the same
      format, and a number written to a REAL column is read back as it was,
      except that NaN is stored as NULL and -0 comes back as 0;
    - a string is the sequence of its UTF-8 bytes, which is what the store
      holds and what LIKE reads;
    - the three tables are lists of rows in rowid order, together with the
      AUTOINCREMENT counters of sqlite_sequence;
    - a service method is a function from the store to an outcome (a value or
      a thrown error) and the store it leaves behind;
    - CURRENT_TIMESTAMP is an explicit argument [now]. *)

From Stdlib Require Import ZArith List String Ascii Bool Lia SpecFloat.
From Stdlib Require Import Sorted Permutation.
Import ListNotations.

Local Open Scope string_scope.
Local Open Scope Z_scope.

(** ** JavaScript numbers *)

Module Number.

Definition prec : Z := 53.
Definition emax : Z := 1024.

Definition number : Type := spec_float.

(** An integer literal, or an integer column read back from the store. *)
Definition of_Z (z : Z) : number := binary_normalize prec emax z 0 false.

Definition zero : number := S754_zero false.
Definition NaN : number := S754_nan.

Definition div (x y : number) : number := SFdiv prec emax x y.
Definition mul (x y : number) : number := SFmul prec emax x y.

(** [x < y], [x <= y] and [x == y]; [x > y] is [ltb y x] and [x >= y] is
    [leb y x].  Every comparison with NaN is false. *)
Definition ltb (x y : number) : bool := SFltb x y.
Definition leb (x y : number) : bool := SFleb x y.
Definition eqb (x y : number) : bool := SFeqb x y.

(** ToBoolean on a number: 0, -0 and NaN are falsy. *)
Definition truthy (x : number) : bool :=
  match x with
  | S754_zero _ | S754_nan => false
  | _ => true
  end.

(** [a || b] where [a] may be null. *)
Definition or_else (a : option number) (b : number) : number :=
  match a with
  | Some x => if truthy x then x else b
  | None => b
  end.

(** Math.round: the integer nearest to [x], ties towards +infinity;
    a result that is zero keeps the sign of [x]. *)
Definition round (x : number) : number :=
  match x with
  | S754_finite s m e =>
      if 0 <=? e then x
      else
        let v := if s then Z.neg m else Z.pos m in
        let n := (2 * v + 2 ^ (- e)) / (2 ^ (- e + 1)) in
        if n =? 0 then S754_zero s else of_Z n
  | _ => x
  end.

End Number.

Import Number.

(** ** utils/config.js *)

Module Config.

Definition dbFolder : string := ".coursewatcher".

Definition videoExtensions : list string := [".mp4"; ".webm"; ".ogv"; ".ogg"].

(** The literal 0.9: the binary64 value nearest to 9/10, which is also the
    correctly rounded quotient of 9 by 10. *)
Definition completionThreshold : number :=
  Eval cbv in div (of_Z 9) (of_Z 10).

End Config.

(** ** utils/errors.js *)

(** What a service call throws: the two error classes of utils/errors.js
    that the services use, and an error of the storage engine, which
    carries no [statusCode]. *)
Inductive error : Type :=
| NotFoundError (videoId : Z)
| ValidationError (message : string)
| SqliteError (message : string).

Inductive outcome (A : Type) : Type :=
| Ok (a : A)
| Throw (e : error).

Arguments Ok {A} a.
Arguments Throw {A} e.

(** ** models/database.js: schema and statements *)

Module Database.

Inductive status : Type := Unwatched | InProgress | Completed.

Definition status_eqb (a b : status) : bool :=
  match a, b with
  | Unwatched, Unwatched | InProgress, InProgress | Completed, Completed => true
  | _, _ => false
  end.

(** The text stored in the status column. *)
Definition status_text (s : status) : string :=
  match s with
  | Unwatched => "unwatched"
  | InProgress => "in-progress"
  | Completed => "completed"
  end.

(** A row of [videos].  [v_position] holds NaN where the column is NULL:
    SQLite stores a bound NaN as NULL, and every test the program applies
    to the field is false on both.  [v_duration] is never NULL: rows are
    inserted with the default 0 and the only statement that writes the
    column falls back on the stored value. *)
Record video : Type := mkVideo {
  v_id : Z;
  v_path : string;
  v_filename : string;
  v_title : string;
  v_duration : number;
  v_position : number;
  v_status : status;
  v_module_id : option Z;
  v_sort_order : Z;
  v_created_at : Z;
  v_updated_at : Z
}.

Record module_row : Type := mkModule {
  m_id : Z;
  m_name : string;
  m_path : string;
  m_sort_order : Z;
  m_created_at : Z
}.

Record note : Type := mkNote {
  n_id : Z;
  n_video_id : Z;
  n_content : string;
  n_created_at : Z;
  n_updated_at : Z
}.

(** The store: the tables in rowid order and, per table, the largest rowid
    ever handed out (sqlite_sequence). *)
Record db : Type := mkDb {
  videos : list video;
  modules : list module_row;
  notes : list note;
  seq_videos : Z;
  seq_modules : Z;
  seq_notes : Z
}.

(** The store right after [initialize] on a fresh folder. *)
Definition empty : db := mkDb [] [] [] 0 0 0.

(** A service method: outcome and resulting store. *)
Definition M (A : Type) : Type := db -> outcome A * db.

Definition ret {A} (a : A) : M A := fun st => (Ok a, st).
Definition throw {A} (e : error) : M A := fun st => (Throw e, st).
Definition bind {A B} (m : M A) (k : A -> M B) : M B :=
  fun st =>
    match m st with
    | (Ok a, st') => k a st'
    | (Throw e, st') => (Throw e, st')
    end.

(** [transaction]: a throw inside the body rolls the store back and the
    error is raised again. *)
Definition transaction {A} (body : M A) : M A :=
  fun st =>
    match body st with
    | (Ok a, st') => (Ok a, st')
    | (Throw e, _) => (Throw e, st)
    end.

Definition set_videos (l : list video) (st : db) : db :=
  mkDb l (modules st) (notes st) (seq_videos st) (seq_modules st) (seq_notes st).

Definition set_notes (l : list note) (st : db) : db :=
  mkDb (videos st) (modules st) l (seq_videos st) (seq_modules st) (seq_notes st).

(** AUTOINCREMENT: one more than the largest rowid that ever existed. *)
Definition max_rowid {R} (id : R -> Z) (rows : list R) : Z :=
  fold_right (fun r acc => Z.max (id r) acc) 0 rows.

Definition next_rowid {R} (id : R -> Z) (rows : list R) (seq : Z) : Z :=
  Z.max seq (max_rowid id rows) + 1.

(** SELECT * FROM videos WHERE id = ? *)
Definition get_video (id : Z) : M (option video) :=
  fun st => (Ok (find (fun v => v_id v =? id) (videos st)), st).

(** SELECT id FROM videos WHERE path = ? *)
Definition get_video_id_by_path (path : string) : M (option Z) :=
  fun st =>
    (Ok (option_map v_id (find (fun v => v_path v =? path)%string (videos st))), st).

(** SELECT id FROM modules WHERE path = ? *)
Definition get_module_id_by_path (path : string) : M (option Z) :=
  fun st =>
    (Ok (option_map m_id (find (fun m => m_path m =? path)%string (modules st))), st).

(** UPDATE videos SET ... WHERE id = ?, with the assignment as a function
    on the row. *)
Definition update_video (id : Z) (f : video -> video) : M unit :=
  fun st =>
    (Ok tt, set_videos (map (fun v => if v_id v =? id then f v else v) (videos st)) st).

(** UPDATE videos SET title = ? WHERE id = ? *)
Definition set_title (title : string) (v : video) : video :=
  mkVideo (v_id v) (v_path v) (v_filename v) title (v_duration v) (v_position v)
          (v_status v) (v_module_id v) (v_sort_order v) (v_created_at v) (v_updated_at v).

(** A bound number parameter: NaN is bound as NULL, and so is null. *)
Definition bind_number (x : option number) : option number :=
  match x with
  | Some S754_nan => None
  | other => other
  end.

Definition coalesce (x : option number) (y : number) : number :=
  match x with
  | Some v => v
  | None => y
  end.

(** A number as a REAL column gives it back: the engine writes a real with
    an integer value as an integer, which loses the sign of -0. *)
Definition stored (x : number) : number :=
  match x with
  | S754_zero _ => zero
  | _ => x
  end.

(** UPDATE videos SET position = ?, duration = COALESCE(?, duration),
    status = ?, updated_at = CURRENT_TIMESTAMP WHERE id = ? *)
Definition set_progress (position : number) (duration : option number)
           (newStatus : status) (now : Z) (v : video) : video :=
  mkVideo (v_id v) (v_path v) (v_filename v) (v_title v)
          (coalesce (option_map stored (bind_number duration)) (v_duration v))
          (stored position) newStatus (v_module_id v) (v_sort_order v)
          (v_created_at v) now.

(** UPDATE videos SET status = ?, position = ?,
    updated_at = CURRENT_TIMESTAMP WHERE id = ? *)
Definition set_status (newStatus : status) (newPosition : number) (now : Z)
           (v : video) : video :=
  mkVideo (v_id v) (v_path v) (v_filename v) (v_title v) (v_duration v)
          newPosition newStatus (v_module_id v) (v_sort_order v) (v_created_at v) now.

(** INSERT INTO videos (path, filename, title, module_id, sort_order)
    VALUES (?, ?, ?, ?, ?): path is UNIQUE, module_id is a foreign key
    (foreign_keys = ON), the other columns take their defaults. *)
Definition insert_video (now : Z) (path filename title : string)
           (moduleId : option Z) (sortOrder : Z) : M Z :=
  fun st =>
    if existsb (fun v => v_path v =? path)%string (videos st) then
      (Throw (SqliteError "UNIQUE constraint failed: videos.path"), st)
    else if match moduleId with
            | Some m => negb (existsb (fun r => m_id r =? m) (modules st))
            | None => false
            end then
      (Throw (SqliteError "FOREIGN KEY constraint failed"), st)
    else
      let id := next_rowid v_id (videos st) (seq_videos st) in
      (Ok id,
       mkDb (videos st ++ [mkVideo id path filename title zero zero Unwatched
                                   moduleId sortOrder now now])
            (modules st) (notes st) id (seq_modules st) (seq_notes st)).

(** INSERT INTO modules (name, path, sort_order) VALUES (?, ?, ?);
    the result is lastInsertRowid. *)
Definition insert_module (now : Z) (name path : string) (sortOrder : Z) : M Z :=
  fun st =>
    if existsb (fun m => m_path m =? path)%string (modules st) then
      (Throw (SqliteError "UNIQUE constraint failed: modules.path"), st)
    else
      let id := next_rowid m_id (modules st) (seq_modules st) in
      (Ok id,
       mkDb (videos st) (modules st ++ [mkModule id name path sortOrder now])
            (notes st) (seq_videos st) id (seq_notes st)).

End Database.

Import Database.

Declare Scope db_scope.
Delimit Scope db_scope with db.
Notation "x <- m ;; k" := (bind m (fun x => k))
  (at level 61, m at next level, right associativity) : db_scope.
Notation "m ;;; k" := (bind m (fun _ => k))
  (at level 61, right associativity) : db_scope.

(** ** services/progress-service.js *)

Module ProgressService.

(** The status input of [updateStatus] is a string; [validStatuses]
    lists the three texts of the enumeration. *)
Definition validStatuses : list status := [Unwatched; InProgress; Completed].

Definition parse_status (s : string) : option status :=
  find (fun c => status_text c =? s)%string validStatuses.

(** [const videoDuration = duration || video.duration] *)
Definition videoDuration (duration : option number) (v : video) : number :=
  or_else duration (v_duration v).

(** Lines 44-57: the status derived from the reported position. *)
Definition newStatus (position : number) (duration : option number) (v : video) : status :=
  let videoDuration := videoDuration duration v in
  if ltb zero videoDuration then
    let watchPercent := div position videoDuration in
    if leb Config.completionThreshold watchPercent then Completed
    else if ltb zero position then InProgress
    else v_status v
  else if ltb zero position && status_eqb (v_status v) Unwatched then InProgress
  else v_status v.

(** The value passed as [position], as [typeof] tells it apart: a number,
    or a value of another type (a string, a boolean, null, undefined, an
    object). *)
Inductive argument : Type :=
| Num (x : number)
| NotNum.

Coercion Num : number >-> argument.

(** [updatePosition(videoId, position, duration = null)], with the guard
    [typeof position !== 'number' || position < 0].  [duration] is a number
    or absent (null or undefined). *)
Definition updatePosition (now : Z) (videoId : Z) (position : argument)
           (duration : option number) : M (option video) :=
  match position with
  | NotNum => throw (ValidationError "Position must be a non-negative number")
  | Num position =>
      (if ltb position zero then
         throw (ValidationError "Position must be a non-negative number")
       else
         video <- get_video videoId ;;
         match video with
         | None => throw (NotFoundError videoId)
         | Some video =>
             update_video videoId
               (set_progress position duration (newStatus position duration video) now) ;;;
             get_video videoId
         end)%db
  end.

Definition updateStatus (now : Z) (videoId : Z) (status : string) : M (option video) :=
  (match parse_status status with
   | None =>
       throw (ValidationError
                "Invalid status. Must be one of: unwatched, in-progress, completed")
   | Some status =>
       video <- get_video videoId ;;
       match video with
       | None => throw (NotFoundError videoId)
       | Some video =>
           let newPosition :=
             if status_eqb status Unwatched then zero else v_position video in
           update_video videoId (set_status status newPosition now) ;;;
           get_video videoId
       end
   end)%db.

Definition markCompleted (now videoId : Z) : M (option video) :=
  updateStatus now videoId "completed".

Definition markUnwatched (now videoId : Z) : M (option video) :=
  updateStatus now videoId "unwatched".

(** What [getProgress] returns. *)
Record progress : Type := mkProgress {
  p_position : number;
  p_duration : number;
  p_status : status;
  percentWatched : number
}.

(** A position column in arithmetic: the NULL that NaN stands for is read as
    null, and null counts as 0. *)
Definition to_number (x : number) : number :=
  match x with
  | S754_nan => zero
  | _ => x
  end.

Definition getProgress (videoId : Z) : M progress :=
  (video <- get_video videoId ;;
   match video with
   | None => throw (NotFoundError videoId)
   | Some video =>
       ret (mkProgress (v_position video) (v_duration video) (v_status video)
              (if ltb zero (v_duration video)
               then round (mul (div (to_number (v_position video)) (v_duration video))
                               (of_Z 100))
               else zero))
   end)%db.

End ProgressService.

(** ** JavaScript strings and Node's [path] on entry names

    A string is the sequence of its UTF-8 bytes, an [ascii] each.  The
    program's own constants are ASCII text (extensions, the underscore,
    digits, LIKE's wildcards); where a function looks at characters outside
    ASCII ([trim], LIKE), it reads their UTF-8 encoding. *)

Module Text.

Definition is_upper (c : ascii) : bool := (Ascii.leb "A" c && Ascii.leb c "Z")%char.

Definition lower (c : ascii) : ascii :=
  if is_upper c then ascii_of_nat (nat_of_ascii c + 32) else c.

(** The byte of a character, as a number. *)
Definition code (c : ascii) : Z := Z.of_nat (nat_of_ascii c).

(** String.prototype.toLowerCase on the ASCII letters, other bytes left as
    they are.  The program compares the result with its ASCII extensions
    only, none of which has the letter k, the one ASCII letter that is also
    the lower case of a character outside ASCII (the Kelvin sign). *)
Fixpoint toLowerCase (s : string) : string :=
  match s with
  | EmptyString => EmptyString
  | String c s' => String (lower c) (toLowerCase s')
  end.

(** Index of the last occurrence of [c]. *)
Fixpoint lastIndexOf (c : ascii) (s : string) : option nat :=
  match s with
  | EmptyString => None
  | String a s' =>
      match lastIndexOf c s' with
      | Some i => Some (S i)
      | None => if (a =? c)%char then Some 0%nat else None
      end
  end.

(** path.extname on a name without separators: from the last dot on,
    empty when there is no dot, when the only dot leads the name, and for
    the name '..'. *)
Definition extname (name : string) : string :=
  if (name =? "..")%string then ""
  else
    match lastIndexOf "." name with
    | Some (S i) => substring (S i) (String.length name - S i) name
    | _ => ""
    end.

(** path.basename(name, ext) on a name without separators. *)
Definition basename (name ext : string) : string :=
  let n := String.length name in
  let k := String.length ext in
  if ((0 <? k) && (k <=? n) && (substring (n - k) k name =? ext)%string)%nat
  then substring 0 (n - k) name
  else name.

(** [s] ends with the separator. *)
Fixpoint ends_with_slash (s : string) : bool :=
  match s with
  | EmptyString => false
  | String c EmptyString => (c =? "/")%char
  | String _ s' => ends_with_slash s'
  end.

(** path.join(dir, name) for a normalised [dir] (the result of path.resolve
    or of an earlier join) and an entry name [name]: one separator between
    the two, none after the root '/' and none before a name joined to
    nothing. *)
Definition join (dir name : string) : string :=
  if (dir =? "")%string then name
  else if ends_with_slash dir then (dir ++ name)%string
  else (dir ++ "/" ++ name)%string.

(** title.replace(/_/g, ' ') *)
Fixpoint replace_underscores (s : string) : string :=
  match s with
  | EmptyString => EmptyString
  | String c s' => String (if (c =? "_")%char then " "%char else c) (replace_underscores s')
  end.

(** The white space and line terminators that [trim] strips.  In ASCII:
    tab, line feed, vertical tab, form feed, carriage return and space. *)
Definition is_space (c : ascii) : bool :=
  let n := nat_of_ascii c in
  ((n =? 32) || ((9 <=? n) && (n <=? 13)))%nat.

(** In two bytes: the no-break space U+00A0 (C2 A0). *)
Definition is_space2 (c c1 : ascii) : bool :=
  (code c =? 194) && (code c1 =? 160).

(** In three bytes: U+1680 (E1 9A 80), U+2000 to U+200A (E2 80 80 to 8A),
    the separators U+2028 and U+2029 (E2 80 A8, A9), U+202F (E2 80 AF),
    U+205F (E2 81 9F), U+3000 (E3 80 80) and the byte order mark U+FEFF
    (EF BB BF). *)
Definition is_space3 (c c1 c2 : ascii) : bool :=
  let a := code c in
  let b := code c1 in
  let d := code c2 in
  ((a =? 225) && (b =? 154) && (d =? 128)) ||
  ((a =? 226) && (b =? 128) &&
   (((128 <=? d) && (d <=? 138)) || (d =? 168) || (d =? 169) || (d =? 175))) ||
  ((a =? 226) && (b =? 129) && (d =? 159)) ||
  ((a =? 227) && (b =? 128) && (d =? 128)) ||
  ((a =? 239) && (b =? 187) && (d =? 191)).

Fixpoint trimStart (s : string) : string :=
  match s with
  | EmptyString => EmptyString
  | String c s1 =>
      if is_space c then trimStart s1
      else
        match s1 with
        | EmptyString => s
        | String c1 s2 =>
            if is_space2 c c1 then trimStart s2
            else
              match s2 with
              | EmptyString => s
              | String c2 s3 => if is_space3 c c1 c2 then trimStart s3 else s
              end
        end
  end.

(** The longest run of white space at the end goes: a byte stays as long as
    what begins with it is not white space throughout. *)
Fixpoint trimEnd (s : string) : string :=
  match s with
  | EmptyString => EmptyString
  | String c s' =>
      match trimStart s with
      | EmptyString => EmptyString
      | _ => String c (trimEnd s')
      end
  end.

Definition trim (s : string) : string := trimEnd (trimStart s).

Definition is_digit (c : ascii) : bool := (Ascii.leb "0" c && Ascii.leb c "9")%char.

(** The leading digits of [s], most significant first: /^(\d+)/ *)
Fixpoint leading_digits (s : string) : list Z :=
  match s with
  | String c s' =>
      if is_digit c then (Z.of_nat (nat_of_ascii c) - 48) :: leading_digits s' else []
  | EmptyString => []
  end.

(** parseInt(digits, 10): the number that the digits denote, rounded to
    the nearest binary64 value, which is the number itself up to 2^53.
    The result is given by its value; 2^1024 stands for Infinity, which is
    what more than 308 digits can round to. *)
Definition parseInt (digits : list Z) : Z :=
  let n := fold_left (fun acc d => 10 * acc + d) digits 0 in
  if n <=? 2 ^ 53 then n
  else
    match of_Z n with
    | S754_finite _ m e => Z.pos m * 2 ^ e
    | _ => 2 ^ 1024
    end.

(** *** SQLite's LIKE

    The engine reads pattern and text as C strings, character by character
    (sqlite3Utf8Read): a byte below 0xC0 is a character of its own, a byte
    from 0xC0 on opens a character that takes every continuation byte
    (0x80 to 0xBF) after it, and a zero byte ends the string. *)

(** The payload bits of a lead byte (the table sqlite3Utf8Trans1). *)
Definition trans1 (b : Z) : Z :=
  if b <? 224 then b - 192
  else if b <? 240 then b - 224
  else if b <? 248 then b - 240
  else if b <? 252 then b - 248
  else if b <? 254 then b - 252
  else 0.

(** A multi-byte character that is overlong, a surrogate or U+FFFE/U+FFFF
    reads as U+FFFD. *)
Definition fix_up (c : Z) : Z :=
  if (c <? 128) || (Z.land c 4294965248 =? 55296) || (Z.land c 4294967294 =? 65534)
  then 65533
  else c.

(** The characters of [s] up to its first zero byte; [pending] is the
    multi-byte character being read, a 32-bit unsigned value. *)
Fixpoint code_points_from (pending : option Z) (s : string) : list Z :=
  match s with
  | EmptyString =>
      match pending with
      | Some c => [fix_up c]
      | None => []
      end
  | String a s' =>
      let b := code a in
      match pending with
      | Some c =>
          if (128 <=? b) && (b <? 192) then
            code_points_from (Some ((c * 64 + Z.land b 63) mod 2 ^ 32)) s'
          else if b =? 0 then [fix_up c]
          else if b <? 192 then fix_up c :: b :: code_points_from None s'
          else fix_up c :: code_points_from (Some (trans1 b)) s'
      | None =>
          if b =? 0 then []
          else if b <? 192 then b :: code_points_from None s'
          else code_points_from (Some (trans1 b)) s'
      end
  end.

Definition code_points (s : string) : list Z := code_points_from None s.

(** sqlite3Tolower on a character below 128. *)
Definition lower_point (c : Z) : Z :=
  if (65 <=? c) && (c <=? 90) then c + 32 else c.

(** A pattern character other than a wildcard matches itself, and below 128
    also the same letter in the other case. *)
Definition same_point (c d : Z) : bool :=
  (c =? d) || ((c <? 128) && (d <? 128) && (lower_point c =? lower_point d)).

(** patternCompare without ESCAPE: [%] (37) matches any run of characters,
    [_] (95) any one character. *)
Fixpoint like_points (pattern text : list Z) : bool :=
  match pattern with
  | [] =>
      match text with
      | [] => true
      | _ :: _ => false
      end
  | c :: rest =>
      if c =? 37 then
        (fix star (t : list Z) : bool :=
           like_points rest t ||
           match t with
           | [] => false
           | _ :: t' => star t'
           end) text
      else
        match text with
        | [] => false
        | d :: t' => ((c =? 95) || same_point c d) && like_points rest t'
        end
  end.

(** [text LIKE pattern] *)
Definition like (pattern text : string) : bool :=
  like_points (code_points pattern) (code_points text).

(** An insertion sort that keeps equal elements in their order: what
    Array.prototype.sort does with a comparator, and an ORDER BY over rows
    taken in rowid order. *)
Section Sort.
Context {A : Type} (le : A -> A -> bool).

Fixpoint insert (x : A) (l : list A) : list A :=
  match l with
  | [] => [x]
  | y :: l' => if le x y then x :: l else y :: insert x l'
  end.

Definition sort (l : list A) : list A := fold_right insert [] l.
End Sort.

End Text.

Import Text.

(** ** services/video-service.js *)

Module VideoService.

(** What [readdirSync(dir, { withFileTypes: true })] shows of the tree:
    a directory whose listing is [None] cannot be read (the call throws);
    [Other] is an entry that is neither a file nor a directory. *)
#[warnings="-register-all"] Inductive dirent : Type :=
| File (name : string)
| Directory (name : string) (entries : option (list dirent))
| Other (name : string).

Definition entry_name (e : dirent) : string :=
  match e with
  | File name | Directory name _ | Other name => name
  end.

(** The objects pushed by [_findVideoFiles]. *)
Record found : Type := mkFound {
  path : string;
  filename : string;
  title : string;
  moduleName : string;
  modulePath : string;
  sortOrder : Z
}.

Definition _extractTitle (filename : string) : string :=
  let title := basename filename (extname filename) in
  let title := replace_underscores title in
  match trim title with
  | EmptyString => filename
  | t => t
  end.

Definition _extractSortOrder (filename : string) : Z :=
  match leading_digits filename with
  | [] => 999
  | digits => parseInt digits
  end.

Definition includes (l : list string) (s : string) : bool :=
  existsb (fun x => x =? s)%string l.

(** [videos.sort((a, b) => a.sortOrder - b.sortOrder)] *)
Definition sortBySortOrder (videos : list found) : list found :=
  sort (fun a b => sortOrder a <=? sortOrder b) videos.

(** One turn of the loop of [_findVideoFiles(dir, relativeTo)] and, for a
    directory, the recursive call.  [rel] lists the folders between
    [relativeTo] and [dir], so that [rel ++ [name]] is
    [path.relative(relativeTo, fullPath).split(path.sep)]. *)
Fixpoint visit (relativeTo dir : string) (rel : list string) (entry : dirent)
  {struct entry} : list found :=
  let fullPath := join dir (entry_name entry) in
  if (entry_name entry =? ".coursewatcher")%string then []
  else
    match entry with
    | Directory name (Some entries) =>
        sortBySortOrder (flat_map (visit relativeTo fullPath (rel ++ [name])%list) entries)
    | Directory _ None => []
    | File name =>
        if includes Config.videoExtensions (toLowerCase (extname name)) then
          let parts := (rel ++ [name])%list in
          let '(moduleName, modulePath) :=
            match parts with
            | first :: _ :: _ => (first, join relativeTo first)
            | _ => ("Root", relativeTo)
            end in
          [mkFound fullPath name (_extractTitle name) moduleName modulePath
                   (_extractSortOrder name)]
        else []
    | Other _ => []
    end.

Definition _findVideoFiles (dir : string) (entries : option (list dirent)) : list found :=
  match entries with
  | Some entries => sortBySortOrder (flat_map (visit dir dir []) entries)
  | None => []
  end.

Definition _getOrCreateModule (now : Z) (modulePath moduleName : string) : M (option Z) :=
  (if (moduleName =? "Root")%string then ret None
   else
     existing <- get_module_id_by_path modulePath ;;
     match existing with
     | Some id => ret (Some id)
     | None =>
         id <- insert_module now moduleName modulePath (_extractSortOrder moduleName) ;;
         ret (Some id)
     end)%db.

(** The counters [addedCount] and [updatedCount]. *)
Record counters : Type := mkCounters { addedCount : Z; updatedCount : Z }.

(** The body of the loop of [scanVideos]. *)
Definition reconcile (now : Z) (video : found) (c : counters) : M counters :=
  (existing <- get_video_id_by_path (path video) ;;
   match existing with
   | Some id =>
       update_video id (set_title (title video)) ;;;
       ret (mkCounters (addedCount c) (updatedCount c + 1))
   | None =>
       moduleId <- _getOrCreateModule now (modulePath video) (moduleName video) ;;
       insert_video now (path video) (filename video) (title video) moduleId
                    (sortOrder video) ;;;
       ret (mkCounters (addedCount c + 1) (updatedCount c))
   end)%db.

Fixpoint reconcile_all (now : Z) (videos : list found) (c : counters) : M counters :=
  match videos with
  | [] => ret c
  | video :: rest => (c' <- reconcile now video c ;; reconcile_all now rest c')%db
  end.

Record scan_result : Type := mkScan { total : Z; added : Z; existing : Z }.

(** [scanVideos()], on the course path of the store and the tree found
    there. *)
Definition scanVideos (now : Z) (coursePath : string) (tree : option (list dirent))
  : M scan_result :=
  let videos := _findVideoFiles coursePath tree in
  (c <- transaction (reconcile_all now videos (mkCounters 0 0)) ;;
   ret (mkScan (Z.of_nat (List.length videos)) (addedCount c) (updatedCount c)))%db.

(** ORDER BY sort_order, filename (BINARY collation). *)
Definition order_leb (a b : video) : bool :=
  (v_sort_order a <? v_sort_order b) ||
  ((v_sort_order a =? v_sort_order b) && String.leb (v_filename a) (v_filename b)).

(** A row of [searchVideos]: v.* and m.name as module_name (NULL when
    the join finds no module). *)
Record search_row : Type := mkSearchRow {
  sr_video : video;
  module_name : option string
}.

(** videos v LEFT JOIN modules m ON v.module_id = m.id *)
Definition left_join_module (ms : list module_row) (v : video) : list search_row :=
  match filter (fun m => match v_module_id v with
                         | Some i => i =? m_id m
                         | None => false
                         end) ms with
  | [] => [mkSearchRow v None]
  | matches => map (fun m => mkSearchRow v (Some (m_name m))) matches
  end.

(** SQLITE_MAX_LIKE_PATTERN_LENGTH: the engine refuses a longer pattern. *)
Definition max_like_pattern_length : Z := 50000.

(** The statement scans the videos; LIKE is evaluated on each row, and
    raises on the first one when its pattern is too long. *)
Definition searchVideos (query : string) : M (list search_row) :=
  fun st =>
    let searchTerm := ("%" ++ query ++ "%")%string in
    match videos st with
    | _ :: _ =>
        if max_like_pattern_length <? Z.of_nat (String.length searchTerm)
        then (Throw (SqliteError "LIKE or GLOB pattern too complex"), st)
        else
          (Ok (sort (fun a b => order_leb (sr_video a) (sr_video b))
                 (filter (fun r => like searchTerm (v_title (sr_video r)) ||
                                   like searchTerm (v_filename (sr_video r)))
                         (flat_map (left_join_module (modules st)) (videos st)))),
           st)
    | [] => (Ok [], st)
    end.

(** SELECT COUNT( * ) FROM videos [WHERE status = ?] *)
Definition count_videos (p : video -> bool) (st : db) : Z :=
  Z.of_nat (List.length (filter p (videos st))).

Record stats : Type := mkStats {
  s_total : Z;
  s_completed : Z;
  s_inProgress : Z;
  s_unwatched : Z;
  s_percentComplete : number
}.

(** [getStats()]: the counts are integers far below 2^53, where the
    subtraction of JavaScript is the one of [Z]; the percentage is computed
    in binary64 as written. *)
Definition getStats : M stats :=
  fun st =>
    let total := count_videos (fun _ => true) st in
    let completed := count_videos (fun v => status_eqb (v_status v) Completed) st in
    let inProgress := count_videos (fun v => status_eqb (v_status v) InProgress) st in
    (Ok (mkStats total completed inProgress (total - completed - inProgress)
           (if 0 <? total
            then round (mul (div (of_Z completed) (of_Z total)) (of_Z 100))
            else zero)),
     st).

(** ORDER BY sort_order, name on modules. *)
Definition module_leb (a b : module_row) : bool :=
  (m_sort_order a <? m_sort_order b) ||
  ((m_sort_order a =? m_sort_order b) && String.leb (m_name a) (m_name b)).

(** The ORDER BY clause that [sortBy] selects, as "row a may come before
    row b". *)
Definition orderClause (sortBy : string) (a b : video) : bool :=
  if (sortBy =? "name_desc")%string then order_leb b a
  else if (sortBy =? "date")%string then v_created_at a <=? v_created_at b
  else if (sortBy =? "date_desc")%string then v_created_at b <=? v_created_at a
  else order_leb a b.

(** An element of the result of [getAllModulesWithVideos]: the pseudo-module
    [{ id: null, name: 'Videos', videos }] or [{ ...mod, videos }]. *)
Inductive group : Type :=
| RootGroup (videos : list video)
| ModuleGroup (mod_ : module_row) (videos : list video).

Definition g_id (g : group) : option Z :=
  match g with
  | RootGroup _ => None
  | ModuleGroup mod_ _ => Some (m_id mod_)
  end.

Definition g_name (g : group) : string :=
  match g with
  | RootGroup _ => "Videos"
  | ModuleGroup mod_ _ => m_name mod_
  end.

Definition g_videos (g : group) : list video :=
  match g with
  | RootGroup videos | ModuleGroup _ videos => videos
  end.

(** SELECT * FROM videos WHERE module_id IS NULL *)
Definition module_is_null (v : video) : bool :=
  match v_module_id v with
  | None => true
  | Some _ => false
  end.

(** SELECT * FROM videos WHERE module_id = ? *)
Definition module_is (moduleId : Z) (v : video) : bool :=
  match v_module_id v with
  | Some m => m =? moduleId
  | None => false
  end.

Definition getAllModulesWithVideos (sortBy : string) : M (list group) :=
  fun st =>
    let modules := sort module_leb (modules st) in
    let rootVideos := sort (orderClause sortBy) (filter module_is_null (videos st)) in
    let result :=
      match rootVideos with
      | [] => []
      | _ => [RootGroup rootVideos]
      end in
    (Ok (result ++
         map (fun mod_ => ModuleGroup mod_
                            (sort (orderClause sortBy)
                                  (filter (module_is (m_id mod_)) (videos st))))
             modules)%list,
     st).

Definition getVideoById (id : Z) : M video :=
  (video <- get_video id ;;
   match video with
   | None => throw (NotFoundError id)
   | Some video => ret video
   end)%db.

(** [videos.findIndex(v => v.id === id)], with [None] for -1. *)
Fixpoint findIndex (id : Z) (ids : list Z) : option nat :=
  match ids with
  | [] => None
  | x :: rest =>
      if x =? id then Some 0%nat
      else match findIndex id rest with
           | Some i => Some (S i)
           | None => None
           end
  end.

Record adjacent : Type := mkAdjacent { prev : option Z; next : option Z }.

(** The ids of the videos of the module of [video], ordered: the test
    [video.module_id ? '= ?' : 'IS NULL'] takes a module id 0 for no module. *)
Definition module_video_ids (video : video) (st : db) : list Z :=
  map v_id
      (sort order_leb
            (filter (match v_module_id video with
                     | Some m => if m =? 0 then module_is_null else module_is m
                     | None => module_is_null
                     end) (videos st))).

Definition getAdjacentVideos (id : Z) : M adjacent :=
  (video <- getVideoById id ;;
   fun st =>
     let videos := module_video_ids video st in
     let currentIndex := findIndex id videos in
     (Ok (mkAdjacent
            match currentIndex with
            | Some (S i) => nth_error videos i
            | _ => None
            end
            match currentIndex with
            | Some i => nth_error videos (S i)
            | None => nth_error videos 0
            end),
      st))%db.

End VideoService.

(** ** services/notes-service.js *)

Module NotesService.

(** What [getNotes] returns: the stored row, or the object
    [{ video_id: videoId, content: '' }]. *)
Inductive notes_object : Type :=
| Stored (row : note)
| Synthesized (video_id : Z) (content : string).

Definition video_id (o : notes_object) : Z :=
  match o with
  | Stored row => n_video_id row
  | Synthesized id _ => id
  end.

Definition content (o : notes_object) : string :=
  match o with
  | Stored row => n_content row
  | Synthesized _ c => c
  end.

(** SELECT * FROM notes WHERE video_id = ? *)
Definition get_note (videoId : Z) : M (option note) :=
  fun st => (Ok (find (fun n => n_video_id n =? videoId) (notes st)), st).

Definition getNotes (videoId : Z) : M notes_object :=
  (video <- get_video videoId ;;
   match video with
   | None => throw (NotFoundError videoId)
   | Some _ =>
       notes <- get_note videoId ;;
       match notes with
       | Some row => ret (Stored row)
       | None => ret (Synthesized videoId "")
       end
   end)%db.

(** INSERT INTO notes (video_id, content, updated_at) VALUES (?, ?, now)
    ON CONFLICT(video_id) DO UPDATE SET content = excluded.content,
    updated_at = now.  The engine draws the rowid of the new row before it
    meets the conflict, so the AUTOINCREMENT counter moves on either way. *)
Definition upsert_note (now : Z) (videoId : Z) (content : string) : M unit :=
  fun st =>
    if existsb (fun n => n_video_id n =? videoId) (notes st) then
      (Ok tt,
       mkDb (videos st) (modules st)
            (map (fun n => if n_video_id n =? videoId
                           then mkNote (n_id n) (n_video_id n) content
                                       (n_created_at n) now
                           else n) (notes st))
            (seq_videos st) (seq_modules st)
            (next_rowid n_id (notes st) (seq_notes st)))
    else if negb (existsb (fun v => v_id v =? videoId) (videos st)) then
      (Throw (SqliteError "FOREIGN KEY constraint failed"), st)
    else
      let id := next_rowid n_id (notes st) (seq_notes st) in
      (Ok tt,
       mkDb (videos st) (modules st) (notes st ++ [mkNote id videoId content now now])
            (seq_videos st) (seq_modules st) id).

Definition saveNotes (now : Z) (videoId : Z) (content : string) : M notes_object :=
  (video <- get_video videoId ;;
   match video with
   | None => throw (NotFoundError videoId)
   | Some _ => upsert_note now videoId content ;;; getNotes videoId
   end)%db.

(** DELETE FROM notes WHERE video_id = ?; the result is [changes > 0]. *)
Definition deleteNotes (videoId : Z) : M bool :=
  fun st =>
    (Ok (existsb (fun n => n_video_id n =? videoId) (notes st)),
     set_notes (filter (fun n => negb (n_video_id n =? videoId)) (notes st)) st).

(** A row of [getVideosWithNotes]: v.* and n.content as notes_content. *)
Record noted_video : Type := mkNoted {
  nv_video : video;
  notes_content : string
}.

(** videos v INNER JOIN notes n ON v.id = n.video_id WHERE n.content != '':
    the engine scans the notes, keeps those with a content, and looks the
    video of each up by its key. *)
Definition inner_join_notes (vs : list video) (n : note) : list noted_video :=
  if (n_content n =? "")%string then []
  else map (fun v => mkNoted v (n_content n))
           (filter (fun v => v_id v =? n_video_id n) vs).

Definition getVideosWithNotes : M (list noted_video) :=
  fun st =>
    (Ok (sort (fun a b => VideoService.order_leb (nv_video a) (nv_video b))
           (flat_map (inner_join_notes (videos st)) (notes st))),
     st).

End NotesService.

(** ** server.js: the search routes *)

Module Server.

(** [GET /search] and [GET /api/search]:
    [const query = req.query.q || ''] and
    [query ? videoService.searchVideos(query) : []]. *)
Definition search (q : option string) : M (list VideoService.search_row) :=
  let query := match q with
               | Some s => s
               | None => ""
               end in
  match query with
  | EmptyString => ret []
  | _ => VideoService.searchVideos query
  end.

(** utils/errors.js: the [statusCode] that the error classes carry; an error
    of the storage engine carries none. *)
Definition statusCode (e : error) : option Z :=
  match e with
  | NotFoundError _ => Some 404
  | ValidationError _ => Some 400
  | SqliteError _ => None
  end.

(** The error-handling middleware, to which the routes pass what a service
    throws: [const statusCode = err.statusCode || 500]. *)
Definition errorStatus (e : error) : Z :=
  match statusCode e with
  | Some code => if code =? 0 then 500 else code
  | None => 500
  end.

End Server.

(** * Vocabulary of the properties *)

Import VideoService ProgressService NotesService.

(** The position guard of [updatePosition] lets [position] through exactly
    when [position < 0] is false.  A position that is a non-negative number
    satisfies [0 <= position]; NaN passes the guard without being one. *)
Definition valid_position (position : number) : Prop := leb zero position = true.

(** The effective duration as the specification words it: the supplied
    duration when it is present and positive, the stored one otherwise. *)
Definition effective_duration (duration : option number) (video : video) : number :=
  match duration with
  | Some d => if ltb zero d then d else v_duration video
  | None => v_duration video
  end.

(** The supplied duration is absent or not negative. *)
Definition not_negative (duration : option number) : Prop :=
  match duration with
  | Some d => ltb d zero = false
  | None => True
  end.

(** The status derivation as the specification words it, about the status
    [result] of the updated video: 'completed' when the effective duration
    is known and the ratio reaches the threshold, else 'in-progress' when
    the position is positive, else unchanged; and 'in-progress' for an
    unknown duration, a positive position and an 'unwatched' video. *)
Definition claimed_derivation (position : number) (duration : option number)
           (video : video) (result : status) : Prop :=
  let d := effective_duration duration video in
  let reached := ltb zero d && leb Config.completionThreshold (div position d) in
  (reached = true -> result = Completed) /\
  (reached = false -> ltb zero position = true -> result = InProgress) /\
  (reached = false -> ltb zero position = false -> result = v_status video) /\
  (ltb zero d = false -> ltb zero position = true -> v_status video = Unwatched ->
   result = InProgress).

(** The fixture of the progress-service tests: a course folder with the
    one file "01. Test Video.mp4", scanned into a fresh store. *)
Definition test_tree : option (list dirent) :=
  Some [Directory ".coursewatcher" (Some [File "database.sqlite"]);
        File "01. Test Video.mp4"].

Definition test_store : db := snd (scanVideos 0 "/course" test_tree empty).

(** The fixture of the video-service tests: two videos at the root and two
    in the folder "Module 1 - Basics". *)
Definition course_tree : option (list dirent) :=
  Some [Directory ".coursewatcher" (Some [File "database.sqlite"]);
        File "01. Introduction.mp4";
        File "02. Getting Started.mp4";
        Directory "Module 1 - Basics"
                  (Some [File "01. First Lesson.mp4"; File "02. Second Lesson.mp4"])].

Definition course_store : db := snd (scanVideos 0 "/course" course_tree empty).

(** Two rows that agree on every column but the title. *)
Definition same_but_title (v v' : video) : Prop :=
  v_id v' = v_id v /\ v_path v' = v_path v /\ v_filename v' = v_filename v /\
  v_duration v' = v_duration v /\ v_position v' = v_position v /\
  v_status v' = v_status v /\ v_module_id v' = v_module_id v /\
  v_sort_order v' = v_sort_order v /\ v_created_at v' = v_created_at v /\
  v_updated_at v' = v_updated_at v.

(** A row as INSERT leaves it: the column defaults. *)
Definition fresh_row (v : video) : Prop :=
  v_status v = Unwatched /\ v_position v = zero /\ v_duration v = zero.

(** How the store of a scan relates to the store before it: the old rows,
    in place and equal up to their title, followed by the inserted rows. *)
Definition evolves (st st' : db) : Prop :=
  exists olds news,
    videos st' = (olds ++ news)%list /\
    Forall2 same_but_title (videos st) olds /\
    Forall fresh_row news /\
    notes st' = notes st.

(** The schema constraint UNIQUE on videos.path. *)
Definition unique_paths (st : db) : Prop := NoDup (map v_path (videos st)).

(** Status and position are consistent: 'unwatched' means position 0. *)
Definition unwatched_at_zero (st : db) : Prop :=
  forall v, In v (videos st) -> v_status v = Unwatched -> eqb (v_position v) zero = true.

(** The stores the public operations lead to, from the store of a fresh
    course folder.  A step takes whatever store the call leaves, so failed
    calls are steps too. *)
Inductive step : db -> db -> Prop :=
| step_scan now coursePath tree st :
    step st (snd (scanVideos now coursePath tree st))
| step_position now videoId (position : argument) duration st :
    step st (snd (updatePosition now videoId position duration st))
| step_status now videoId status st :
    step st (snd (updateStatus now videoId status st))
| step_save now videoId content st :
    step st (snd (saveNotes now videoId content st))
| step_delete videoId st :
    step st (snd (deleteNotes videoId st)).

Inductive reachable : db -> Prop :=
| reachable_empty : reachable empty
| reachable_step st st' : reachable st -> step st st' -> reachable st'.

(** A call of a public operation, with its arguments. *)
Inductive operation : Type :=
| Scan (now : Z) (coursePath : string) (tree : option (list dirent))
| RecordPosition (now videoId : Z) (position : argument) (duration : option number)
| SetStatus (now videoId : Z) (status : string)
| SaveNotes (now videoId : Z) (content : string)
| DeleteNotes (videoId : Z).

(** The store a call leaves behind, whether it returns or throws. *)
Definition run (op : operation) (st : db) : db :=
  match op with
  | Scan now coursePath tree => snd (scanVideos now coursePath tree st)
  | RecordPosition now videoId position duration =>
      snd (updatePosition now videoId position duration st)
  | SetStatus now videoId status => snd (updateStatus now videoId status st)
  | SaveNotes now videoId content => snd (saveNotes now videoId content st)
  | DeleteNotes videoId => snd (deleteNotes videoId st)
  end.

(** The store after the calls [ops], made in turn on the store of a fresh
    course folder. *)
Definition history (ops : list operation) : db :=
  fold_left (fun st op => run op st) ops empty.

(** The call reports the position NaN. *)
Definition reports_NaN (op : operation) : Prop :=
  match op with
  | RecordPosition _ _ (Num position) _ => position = NaN
  | _ => False
  end.

(** The percentage the specification asks for, in exact arithmetic:
    100 * completed / total rounded to the nearest integer (a tie goes up),
    and 0 for an empty store. *)
Definition nearest_percent (completed total : Z) : Z :=
  if total =? 0 then 0 else (200 * completed + total) / (2 * total).

(** Forty lessons, "01.mp4" to "40.mp4". *)
Definition two_digits (i : nat) : string :=
  String (ascii_of_nat (48 + i / 10)) (String (ascii_of_nat (48 + i mod 10)) "").

Definition forty_lessons : option (list dirent) :=
  Some (map (fun i => File (two_digits i ++ ".mp4")%string) (seq 1 40)).

(** The course after a scan and [markCompleted] on the first 23 lessons. *)
Definition course_23_of_40 : db :=
  fold_left (fun st videoId => snd (markCompleted 1 videoId st))
            (map Z.of_nat (seq 1 23))
            (snd (scanVideos 0 "/course" forty_lessons empty)).

(** In the specification's words: [query] occurs in [text] as a substring,
    up to the case of the ASCII letters. *)
Definition occurs_ci (query text : string) : Prop :=
  exists before middle after,
    text = (before ++ middle ++ after)%string /\ toLowerCase middle = toLowerCase query.

(** The same, decided. *)
Fixpoint starts_with_ci (query text : string) : bool :=
  match query with
  | EmptyString => true
  | String c query' =>
      match text with
      | EmptyString => false
      | String d text' => (lower c =? lower d)%char && starts_with_ci query' text'
      end
  end.

Fixpoint contains_ci (query text : string) : bool :=
  starts_with_ci query text ||
  match text with
  | EmptyString => false
  | String _ text' => contains_ci query text'
  end.

(** *** Unicode text

    A JavaScript string reaches the store, and LIKE, as UTF-8. *)

(** [b] is a continuation byte of UTF-8. *)
Definition continuation (b : Z) : bool := (128 <=? b) && (b <? 192).

(** Three bytes that encode a character: not overlong (E0 is followed by
    A0 or more), not a surrogate (ED is followed by less than A0), and
    neither U+FFFE nor U+FFFF (EF BF BE, EF BF BF). *)
Definition three_bytes (b b1 b2 : Z) : bool :=
  continuation b1 && continuation b2 &&
  (negb (b =? 224) || (160 <=? b1)) &&
  (negb (b =? 237) || (b1 <? 160)) &&
  negb ((b =? 239) && (b1 =? 191) && (190 <=? b2)).

(** Four bytes that encode a character: from U+10000 (F0 is followed by 90
    or more) to U+10FFFF (F4 is followed by less than 90). *)
Definition four_bytes (b b1 b2 b3 : Z) : bool :=
  (b <=? 244) && continuation b1 && continuation b2 && continuation b3 &&
  (negb (b =? 240) || (144 <=? b1)) &&
  (negb (b =? 244) || (b1 <? 144)).

(** Unicode text in UTF-8, which is how a JavaScript string reaches the
    store, without the two characters U+FFFE and U+FFFF. *)
Fixpoint unicode_text (s : string) : bool :=
  match s with
  | EmptyString => true
  | String a s1 =>
      if code a <? 128 then unicode_text s1
      else
        match s1 with
        | EmptyString => false
        | String a1 s2 =>
            if (194 <=? code a) && (code a <? 224) then
              continuation (code a1) && unicode_text s2
            else
              match s2 with
              | EmptyString => false
              | String a2 s3 =>
                  if (224 <=? code a) && (code a <? 240) then
                    three_bytes (code a) (code a1) (code a2) && unicode_text s3
                  else
                    match s3 with
                    | EmptyString => false
                    | String a3 s4 =>
                        (240 <=? code a) &&
                        four_bytes (code a) (code a1) (code a2) (code a3) &&
                        unicode_text s4
                    end
              end
        end
  end.

(** The bytes of one character of such a text. *)
Inductive encoded : string -> Prop :=
| encoded_1 a :
    code a < 128 -> encoded (String a EmptyString)
| encoded_2 a a1 :
    194 <= code a < 224 -> continuation (code a1) = true ->
    encoded (String a (String a1 EmptyString))
| encoded_3 a a1 a2 :
    224 <= code a < 240 -> three_bytes (code a) (code a1) (code a2) = true ->
    encoded (String a (String a1 (String a2 EmptyString)))
| encoded_4 a a1 a2 a3 :
    240 <= code a -> four_bytes (code a) (code a1) (code a2) (code a3) = true ->
    encoded (String a (String a1 (String a2 (String a3 EmptyString)))).

(** No byte of [s] is zero or one of LIKE's wildcards [%] (37), [_] (95). *)
Fixpoint no_special (s : string) : bool :=
  match s with
  | EmptyString => true
  | String c s' =>
      negb (code c =? 0) && negb (code c =? 37) && negb (code c =? 95) && no_special s'
  end.

(** The character that the bytes [ch] encode. *)
Definition point (ch : string) : Z :=
  match ch with
  | String a EmptyString => code a
  | String a (String a1 EmptyString) => (code a - 192) * 64 + (code a1 - 128)
  | String a (String a1 (String a2 EmptyString)) =>
      (code a - 224) * 4096 + (code a1 - 128) * 64 + (code a2 - 128)
  | String a (String a1 (String a2 (String a3 EmptyString))) =>
      (code a - 240) * 262144 + (code a1 - 128) * 4096 + (code a2 - 128) * 64 +
      (code a3 - 128)
  | _ => 0
  end.

(** [s] does not begin with a continuation byte. *)
Definition starts_clean (s : string) : Prop :=
  match s with
  | EmptyString => True
  | String a _ => continuation (code a) = false
  end.

(** A plain query: Unicode text without the zero character, LIKE's
    wildcards, U+FFFE and U+FFFF. *)
Definition plain (query : string) : bool := unicode_text query && no_special query.

(** A text up to its first zero character.  No file name holds one, so the
    titles and file names of a scanned course are their own [up_to_nul]. *)
Fixpoint up_to_nul (text : string) : string :=
  match text with
  | EmptyString => EmptyString
  | String c text' => if code c =? 0 then EmptyString else String c (up_to_nul text')
  end.

(** [n] times the character [c]. *)
Fixpoint repeat_char (c : ascii) (n : nat) : string :=
  match n with
  | O => EmptyString
  | S n' => String c (repeat_char c n')
  end.

(** The letter E with an acute accent, in upper case (U+00C9, the bytes
    C3 89) and in lower case (U+00E9, the bytes C3 A9). *)
Definition E_acute_upper : string :=
  String (ascii_of_nat 195) (String (ascii_of_nat 137) EmptyString).

Definition E_acute_lower : string :=
  String (ascii_of_nat 195) (String (ascii_of_nat 169) EmptyString).

(** A course with the one file whose name begins with the upper case
    letter, scanned into a fresh store. *)
Definition accent_store : db :=
  snd (scanVideos 0 "/course" (Some [File (E_acute_upper ++ "te.mp4")%string]) empty).

(** The characters U+FFFE (the bytes EF BF BE) and U+FFFF (EF BF BF). *)
Definition U_FFFE : string :=
  String (ascii_of_nat 239) (String (ascii_of_nat 191) (String (ascii_of_nat 190) EmptyString)).

Definition U_FFFF : string :=
  String (ascii_of_nat 239) (String (ascii_of_nat 191) (String (ascii_of_nat 191) EmptyString)).

(** A course with the one file named U+FFFE, scanned into a fresh store. *)
Definition U_FFFE_store : db :=
  snd (scanVideos 0 "/course" (Some [File (U_FFFE ++ ".mp4")%string]) empty).

(** [s] is [t] or comes before it in the order of the BINARY collation:
    byte by byte, a proper prefix first. *)
Inductive bytes_le : string -> string -> Prop :=
| bytes_le_nil t : bytes_le EmptyString t
| bytes_le_lt c s d t : code c < code d -> bytes_le (String c s) (String d t)
| bytes_le_eq c s t : bytes_le s t -> bytes_le (String c s) (String c t).

(** ORDER BY sort_order, filename in the specification's words: by sort
    key, and by file name among videos of one sort key. *)
Definition in_listing_order (a b : video) : Prop :=
  v_sort_order a < v_sort_order b \/
  (v_sort_order a = v_sort_order b /\ bytes_le (v_filename a) (v_filename b)).

(** How a row of the search carries its module name: the name of a module
    the video refers to, or NULL when it refers to none. *)
Definition joined_with_module (st : db) (r : search_row) : Prop :=
  match module_name r with
  | Some name =>
      exists m, In m (modules st) /\ v_module_id (sr_video r) = Some (m_id m) /\
                m_name m = name
  | None => forall m, In m (modules st) -> v_module_id (sr_video r) <> Some (m_id m)
  end.

(** The constraints of the schema of models/database.js: the primary keys
    (AUTOINCREMENT, so positive), the UNIQUE columns and the foreign keys. *)
Record schema_holds (st : db) : Prop := mkSchema {
  video_ids_unique : NoDup (map v_id (videos st));
  video_paths_unique : NoDup (map v_path (videos st));
  module_ids_unique : NoDup (map m_id (modules st));
  module_ids_positive : forall m, In m (modules st) -> 0 < m_id m;
  module_paths_unique : NoDup (map m_path (modules st));
  note_ids_unique : NoDup (map n_id (notes st));
  note_videos_unique : NoDup (map n_video_id (notes st));
  video_module_exists :
    forall v m, In v (videos st) -> v_module_id v = Some m ->
                exists r, In r (modules st) /\ m_id r = m;
  note_video_exists :
    forall n, In n (notes st) -> exists v, In v (videos st) /\ v_id v = n_video_id n
}.

(** A service call that fails does so without a trace: the store is as it
    was, and the error is one of those in [allowed]. *)
Definition fails_only_with {A} (m : M A) (allowed : error -> Prop) : Prop :=
  forall st e st', m st = (Throw e, st') -> st' = st /\ allowed e.

Definition is_not_found (videoId : Z) (e : error) : Prop := e = NotFoundError videoId.

Definition is_validation (e : error) : Prop := exists message, e = ValidationError message.

(** The watch lifecycle as an order: unwatched, in-progress, completed. *)
Definition rank (s : status) : Z :=
  match s with
  | Unwatched => 0
  | InProgress => 1
  | Completed => 2
  end.

(** Position reports for one video, each at its own time and without a
    duration, applied in turn. *)
Definition report_positions (videoId : Z) (reports : list (Z * number)) (st : db) : db :=
  fold_left (fun st (r : Z * number) => snd (updatePosition (fst r) videoId (snd r) None st))
            reports st.

(** The columns that no progress update writes. *)
Definition keeps_identity (v w : video) : Prop :=
  v_id w = v_id v /\ v_path w = v_path v /\ v_filename w = v_filename v /\
  v_title w = v_title v /\ v_module_id w = v_module_id v /\
  v_sort_order w = v_sort_order v /\ v_created_at w = v_created_at v.

(** The row that a scan inserts for a discovered file: the columns of the
    INSERT, the column defaults, and the module of the file. *)
Definition inserted_for (now : Z) (f : found) (st : db) (v : video) : Prop :=
  v_path v = path f /\ v_filename v = filename f /\ v_title v = title f /\
  v_sort_order v = sortOrder f /\ fresh_row v /\ v_created_at v = now /\
  match v_module_id v with
  | None => moduleName f = "Root"
  | Some m => moduleName f <> "Root" /\
              exists r, In r (modules st) /\ m_id r = m /\ m_path r = modulePath f
  end.

(** The discovered files that have no row yet. *)
Definition unknown_files (videos_found : list found) (st : db) : list found :=
  filter (fun f => negb (existsb (fun v => v_path v =? path f)%string (videos st)))
         videos_found.

(** The name carries one of the configured video extensions. *)
Definition is_video (name : string) : Prop :=
  includes Config.videoExtensions (toLowerCase (extname name)) = true.

(** [file_in e folders name]: below the entry [e] there is a file [name],
    reached through the readable folders [folders] (outermost first, [e]
    itself included when it is a folder), none of them and not the file
    named [.coursewatcher]. *)
Inductive file_in : dirent -> list string -> string -> Prop :=
| file_here name :
    name <> ".coursewatcher" -> file_in (File name) [] name
| file_below d entries e folders name :
    d <> ".coursewatcher" -> In e entries -> file_in e folders name ->
    file_in (Directory d (Some entries)) (d :: folders) name.

(** The module of a file found through [folders]: the outermost folder, or
    'Root' with the course folder itself. *)
Definition module_of (relativeTo : string) (folders : list string) : string * string :=
  match folders with
  | [] => ("Root", relativeTo)
  | first :: _ => (first, join relativeTo first)
  end.

(** The object that describes the file [name] in the folders [folders]
    below [dir], where [before] are the folders between the course folder
    [relativeTo] and [dir]. *)
Definition discovered (relativeTo dir : string) (before folders : list string)
           (name : string) : found :=
  mkFound (join (fold_left join folders dir) name) name (_extractTitle name)
          (fst (module_of relativeTo (before ++ folders)%list))
          (snd (module_of relativeTo (before ++ folders)%list))
          (_extractSortOrder name).

(** The character of a decimal digit, and the numeral of a digit list. *)
Definition digit_char (d : Z) : ascii := ascii_of_nat (Z.to_nat (48 + d)).

Fixpoint numeral (digits : list Z) : string :=
  match digits with
  | [] => EmptyString
  | d :: digits' => String (digit_char d) (numeral digits')
  end.

(** The number a digit list denotes in base ten, most significant first. *)
Fixpoint positional (digits : list Z) : Z :=
  match digits with
  | [] => 0
  | d :: digits' => d * 10 ^ Z.of_nat (List.length digits') + positional digits'
  end.

(** [s] does not begin with a decimal digit. *)
Definition no_leading_digit (s : string) : Prop :=
  match s with
  | String c _ => is_digit c = false
  | EmptyString => True
  end.

(** A title as the cleaning leaves it: not empty, no underscore, no white
    space at either end. *)
Definition clean_title (t : string) : Prop :=
  Forall (fun c => c <> "_"%char) (list_ascii_of_string t) /\
  match t with
  | String c _ => is_space c = false
  | EmptyString => False
  end /\
  is_space (last (list_ascii_of_string t) "x"%char) = false.

(** The module row a group of the listing carries, if any. *)
Definition group_module (g : group) : list module_row :=
  match g with
  | RootGroup _ => []
  | ModuleGroup mod_ _ => [mod_]
  end.

(** * Properties *)

(** ** The tests of the repository, replayed on the embedding *)

Example scan_finds_all_video_files :
  scanVideos 0 "/course" course_tree empty = (Ok (mkScan 4 4 0), course_store).
Proof. reflexivity. Qed.

Example scan_does_not_duplicate_on_rescan :
  fst (scanVideos 1 "/course" course_tree course_store) = Ok (mkScan 4 0 4).
Proof. reflexivity. Qed.

Example scan_creates_module_from_folder :
  map m_name (modules course_store) = ["Module 1 - Basics"] /\
  map v_module_id (videos course_store) = [None; Some 1; None; Some 1].
Proof. split; reflexivity. Qed.

Example search_finds_videos_by_title :
  exists r, fst (searchVideos "Introduction" course_store) = Ok [r] /\
            v_title (sr_video r) = "01. Introduction".
Proof. eexists. split; vm_compute; reflexivity. Qed.

Example search_is_case_insensitive :
  exists r, fst (searchVideos "INTRODUCTION" course_store) = Ok [r].
Proof. eexists. vm_compute. reflexivity. Qed.

Example search_returns_empty_for_no_matches :
  fst (searchVideos "nonexistent" course_store) = Ok [].
Proof. reflexivity. Qed.

Example stats_of_a_fresh_course :
  fst (getStats course_store) = Ok (mkStats 4 0 0 4 zero).
Proof. reflexivity. Qed.

Example position_and_duration_are_stored :
  exists v st',
    updatePosition 1 1 (of_Z 120) (Some (of_Z 600)) test_store = (Ok (Some v), st') /\
    v_position v = of_Z 120 /\ v_duration v = of_Z 600 /\ v_status v = InProgress.
Proof. do 2 eexists. repeat split; vm_compute; reflexivity. Qed.

Example negative_position_is_rejected :
  exists message,
    updatePosition 1 1 (of_Z (-10)) None test_store = (Throw (ValidationError message), test_store).
Proof. eexists. vm_compute. reflexivity. Qed.

Example unknown_video_is_not_found :
  updatePosition 1 999 (of_Z 60) None test_store = (Throw (NotFoundError 999), test_store).
Proof. reflexivity. Qed.

Example invalid_status_is_rejected :
  exists message,
    updateStatus 1 1 "invalid" test_store = (Throw (ValidationError message), test_store).
Proof. eexists. vm_compute. reflexivity. Qed.

Example marking_unwatched_resets_position :
  exists v st',
    updateStatus 2 1 "unwatched"
                 (snd (updatePosition 1 1 (of_Z 120) (Some (of_Z 600)) test_store))
    = (Ok (Some v), st') /\
    v_status v = Unwatched /\ v_position v = zero.
Proof. do 2 eexists. repeat split; vm_compute; reflexivity. Qed.

Example notes_start_empty_and_persist :
  fst (getNotes 1 test_store) = Ok (Synthesized 1 "") /\
  exists o,
    fst (getNotes 1 (snd (saveNotes 1 1 "Test content" test_store))) = Ok o /\
    content o = "Test content".
Proof. split; [reflexivity|]. eexists. split; vm_compute; reflexivity. Qed.

(** ** Numbers *)

Lemma valid_position_accepted position :
  valid_position position -> ltb position zero = false.
Proof.
  unfold valid_position, leb, ltb, zero.
  destruct position as [[|]|[|]| |[|] m e]; cbn; congruence.
Qed.

Lemma valid_position_not_positive position :
  valid_position position -> ltb zero position = false -> eqb position zero = true.
Proof.
  unfold valid_position, leb, ltb, eqb, zero.
  destruct position as [[|]|[|]| |[|] m e]; cbn; congruence.
Qed.

(** A number that the guard lets through is a valid position, unless it is
    NaN, which the guard lets through as well. *)
Lemma accepted_valid_position position :
  position <> NaN -> ltb position zero = false -> valid_position position.
Proof.
  unfold valid_position, leb, ltb, zero, NaN.
  destruct position as [[|]|[|]| |[|] m e]; cbn; congruence.
Qed.

Lemma nan_accepted : ltb NaN zero = false /\ eqb NaN zero = false.
Proof. split; reflexivity. Qed.

Lemma status_eqb_eq a b : status_eqb a b = true <-> a = b.
Proof. destruct a, b; cbn; split; congruence. Qed.

(** ** Reading back an updated row *)

Lemma find_update_video id (f : video -> video) (l : list video) :
  (forall v, v_id (f v) = v_id v) ->
  find (fun v => v_id v =? id) (map (fun v => if v_id v =? id then f v else v) l)
  = option_map f (find (fun v => v_id v =? id) l).
Proof.
  intros Hid. induction l as [|v l IH]; cbn; [reflexivity|].
  destruct (v_id v =? id) eqn:E; cbn.
  - rewrite Hid, E. reflexivity.
  - rewrite E. exact IH.
Qed.

Lemma find_video_In id (l : list video) v :
  find (fun v => v_id v =? id) l = Some v -> In v l /\ v_id v = id.
Proof.
  intros H. apply find_some in H. destruct H as [H1 H2].
  split; [assumption|]. now apply Z.eqb_eq.
Qed.

Lemma find_video_None id (l : list video) :
  find (fun v => v_id v =? id) l = None <-> ~ exists v, In v l /\ v_id v = id.
Proof.
  split.
  - intros H [v [Hin Hv]]. apply (find_none _ _ H) in Hin.
    rewrite Hv, Z.eqb_refl in Hin. discriminate.
  - intros H. destruct (find _ l) as [v|] eqn:E; [|reflexivity].
    exfalso. apply H. exists v. now apply find_video_In.
Qed.

(** ** [updatePosition] and [updateStatus] as store transformers *)

Lemma updatePosition_rejected now videoId position duration st :
  ltb position zero = true ->
  updatePosition now videoId position duration st
  = (Throw (ValidationError "Position must be a non-negative number"), st).
Proof. intros H. unfold updatePosition. rewrite H. reflexivity. Qed.

Lemma updatePosition_not_found now videoId position duration st :
  ltb position zero = false ->
  find (fun v => v_id v =? videoId) (videos st) = None ->
  updatePosition now videoId position duration st = (Throw (NotFoundError videoId), st).
Proof.
  intros H Hf. unfold updatePosition, bind, get_video, throw.
  rewrite H, Hf. reflexivity.
Qed.

Lemma updatePosition_found now videoId position duration st video :
  ltb position zero = false ->
  find (fun v => v_id v =? videoId) (videos st) = Some video ->
  let row := set_progress position duration (newStatus position duration video) now in
  updatePosition now videoId position duration st
  = (Ok (Some (row video)),
     set_videos (map (fun v => if v_id v =? videoId then row v else v) (videos st)) st).
Proof.
  intros H Hf row. unfold updatePosition, bind, get_video, update_video.
  rewrite H, Hf. cbn.
  rewrite find_update_video by reflexivity. rewrite Hf. reflexivity.
Qed.

Lemma updateStatus_found now videoId text status st video :
  parse_status text = Some status ->
  find (fun v => v_id v =? videoId) (videos st) = Some video ->
  let newPosition := if status_eqb status Unwatched then zero else v_position video in
  let row := set_status status newPosition now in
  updateStatus now videoId text st
  = (Ok (Some (row video)),
     set_videos (map (fun v => if v_id v =? videoId then row v else v) (videos st)) st).
Proof.
  intros Hp Hf newPosition row. unfold updateStatus, bind, get_video, update_video.
  rewrite Hp, Hf. cbn.
  rewrite find_update_video by reflexivity. rewrite Hf. reflexivity.
Qed.

Lemma updateStatus_throws now videoId text st :
  parse_status text = None \/ find (fun v => v_id v =? videoId) (videos st) = None ->
  exists e, updateStatus now videoId text st = (Throw e, st).
Proof.
  intros H. unfold updateStatus, bind, get_video, throw.
  destruct (parse_status text) as [s|]; [|eexists; reflexivity].
  destruct H as [H|H]; [discriminate|]. rewrite H. eexists; reflexivity.
Qed.

(** ** The status classifier *)

(** A positive position never leaves a video unwatched. *)
Lemma newStatus_positive position duration video :
  ltb zero position = true -> newStatus position duration video <> Unwatched.
Proof.
  intros Hp. unfold newStatus. rewrite Hp.
  destruct (ltb zero (videoDuration duration video)).
  - destruct (leb Config.completionThreshold _); discriminate.
  - cbn. destruct (status_eqb (v_status video) Unwatched) eqn:E; [discriminate|].
    intros H. rewrite H in E. discriminate.
Qed.

(** With an unknown duration the classifier only ever moves a video from
    unwatched to in-progress: the guard [video.status === 'unwatched'] keeps
    a completed video completed. *)
Lemma newStatus_unknown_duration_never_downgrades position duration video :
  ltb zero (videoDuration duration video) = false ->
  v_status video <> Unwatched ->
  newStatus position duration video = v_status video.
Proof.
  intros Hd Hs. unfold newStatus. rewrite Hd.
  destruct (status_eqb (v_status video) Unwatched) eqn:E.
  - apply status_eqb_eq in E. contradiction.
  - rewrite andb_false_r. reflexivity.
Qed.

(** With a known duration the same move is taken without that guard. *)
Lemma newStatus_known_duration_downgrades position duration video :
  ltb zero (videoDuration duration video) = true ->
  leb Config.completionThreshold (div position (videoDuration duration video)) = false ->
  ltb zero position = true ->
  newStatus position duration video = InProgress.
Proof.
  intros Hd Hr Hp. unfold newStatus. rewrite Hd, Hr, Hp. reflexivity.
Qed.

(** ** The status classifier on the test fixture *)

Lemma test_store_scanned :
  exists v,
    scanVideos 0 "/course" test_tree empty = (Ok (mkScan 1 1 0), test_store) /\
    videos test_store = [v] /\ v_id v = 1 /\ v_title v = "01. Test Video" /\
    v_status v = Unwatched /\ v_position v = zero /\ v_duration v = zero.
Proof. eexists. repeat split; reflexivity. Qed.

(** C1, where the code departs from it.  The specification has a position
    update never take a 'completed' video back.  In the code a video that
    reached 'completed' is moved back to 'in-progress' by a later position
    report: after [updatePosition(1, 540, 600)] the status is 'completed',
    and [updatePosition(1, 60, 600)] then makes it 'in-progress'; likewise
    a video completed by [markCompleted] at position 0 becomes
    'in-progress' on the single report [updatePosition(1, 60, 600)], a
    sequence with non-decreasing position and fixed duration. *)
Theorem updatePosition_downgrades_completed :
  (exists v1 st1 v2 st2,
      updatePosition 1 1 (of_Z 540) (Some (of_Z 600)) test_store = (Ok (Some v1), st1) /\
      v_status v1 = Completed /\
      valid_position (of_Z 60) /\
      updatePosition 2 1 (of_Z 60) (Some (of_Z 600)) st1 = (Ok (Some v2), st2) /\
      v_status v2 = InProgress) /\
  (exists v1 st1 v2 st2,
      markCompleted 1 1 test_store = (Ok (Some v1), st1) /\
      v_status v1 = Completed /\ v_position v1 = zero /\
      updatePosition 2 1 (of_Z 60) (Some (of_Z 600)) st1 = (Ok (Some v2), st2) /\
      v_status v2 = InProgress).
Proof.
  split; do 4 eexists; repeat split; vm_compute; reflexivity.
Qed.

(** Where the duration handling is as specified: an absent duration leaves
    the stored one in use and in place, and a positive one is used and
    stored. *)
Lemma updatePosition_duration_absent_or_positive now videoId position duration st video :
  ltb position zero = false ->
  find (fun v => v_id v =? videoId) (videos st) = Some video ->
  exists video' st',
    updatePosition now videoId position duration st = (Ok (Some video'), st') /\
    (duration = None ->
     videoDuration duration video = v_duration video /\
     v_duration video' = v_duration video) /\
    (forall d, duration = Some d -> ltb zero d = true ->
               videoDuration duration video = d /\ v_duration video' = d).
Proof.
  intros Hg Hf. do 2 eexists. split; [apply updatePosition_found; eassumption|].
  cbn. split.
  - intros ->. split; reflexivity.
  - intros d -> Hd. unfold videoDuration, or_else.
    destruct d as [[|]|[|]| |[|] m e]; cbn in Hd; try discriminate; split; reflexivity.
Qed.

(** C3, where the code departs from it.  The specification has a stored
    positive duration replaced by a positive one only, and the effective
    duration be the supplied one only when that is positive.  In the code a
    supplied duration of 0 is treated as absent when the status is derived
    but is written by [COALESCE(?, duration)]: after
    [updatePosition(1, 120, 600)] the stored duration is 600, and
    [updatePosition(1, 125, 0)] resets it to 0.  A negative supplied
    duration is used as the effective duration (and stored) instead of the
    stored one. *)
Theorem updatePosition_resets_duration :
  exists v1 st1,
    updatePosition 1 1 (of_Z 120) (Some (of_Z 600)) test_store = (Ok (Some v1), st1) /\
    v_duration v1 = of_Z 600 /\
    (exists v2 st2,
        updatePosition 2 1 (of_Z 125) (Some (of_Z 0)) st1 = (Ok (Some v2), st2) /\
        videoDuration (Some (of_Z 0)) v1 = of_Z 600 /\
        v_duration v2 = zero) /\
    (exists v2 st2,
        updatePosition 2 1 (of_Z 125) (Some (of_Z (-1))) st1 = (Ok (Some v2), st2) /\
        videoDuration (Some (of_Z (-1))) v1 = of_Z (-1) /\
        v_duration v2 = of_Z (-1)).
Proof.
  do 2 eexists. split; [vm_compute; reflexivity|].
  split; [vm_compute; reflexivity|].
  split; do 2 eexists; repeat split; vm_compute; reflexivity.
Qed.

(** For a supplied duration that is absent or not negative, the duration
    the code derives the status from, [duration || video.duration], is the
    effective duration of the specification. *)
Lemma videoDuration_effective duration video :
  not_negative duration -> videoDuration duration video = effective_duration duration video.
Proof.
  unfold not_negative, videoDuration, effective_duration, or_else, ltb, zero.
  destruct duration as [d|]; [|reflexivity].
  destruct d as [[|]|[|]| |[|] m e]; cbn; congruence.
Qed.

(** C4, as the code has it.  For an existing video, a valid position and a
    supplied duration that is absent or not negative, [updatePosition]
    succeeds and stores the video it returns, whose status is derived from
    the effective duration (the supplied one when present and positive,
    else the stored one) as follows.  When it is known (> 0): 'completed' if position /
    duration >= 0.9, else 'in-progress' if position > 0, else unchanged.
    When it is unknown: 'in-progress' if position > 0 and the video was
    'unwatched', else unchanged.  In particular (540, 600) gives
    'completed' and (60, 600) gives 'in-progress', whatever the video. *)
Theorem updatePosition_status_derivation now videoId position duration st video :
  valid_position position ->
  not_negative duration ->
  find (fun v => v_id v =? videoId) (videos st) = Some video ->
  exists video' st',
    updatePosition now videoId position duration st = (Ok (Some video'), st') /\
    find (fun v => v_id v =? videoId) (videos st') = Some video' /\
    let d := effective_duration duration video in
    (ltb zero d = true -> leb Config.completionThreshold (div position d) = true ->
     v_status video' = Completed) /\
    (ltb zero d = true -> leb Config.completionThreshold (div position d) = false ->
     ltb zero position = true -> v_status video' = InProgress) /\
    (ltb zero d = true -> leb Config.completionThreshold (div position d) = false ->
     ltb zero position = false -> v_status video' = v_status video) /\
    (ltb zero d = false -> ltb zero position = true -> v_status video = Unwatched ->
     v_status video' = InProgress) /\
    (ltb zero d = false -> ltb zero position = false \/ v_status video <> Unwatched ->
     v_status video' = v_status video) /\
    (position = of_Z 540 -> duration = Some (of_Z 600) -> v_status video' = Completed) /\
    (position = of_Z 60 -> duration = Some (of_Z 600) -> v_status video' = InProgress).
Proof.
  intros Hv Hd Hf. apply valid_position_accepted in Hv.
  do 2 eexists. split; [apply updatePosition_found; eassumption|].
  split.
  { cbn. rewrite find_update_video by reflexivity. rewrite Hf. reflexivity. }
  cbn. unfold newStatus. rewrite (videoDuration_effective _ video Hd).
  repeat split.
  - intros -> ->. reflexivity.
  - intros -> -> ->. reflexivity.
  - intros -> -> ->. reflexivity.
  - intros -> -> ->. reflexivity.
  - intros -> [->|Hs]; [reflexivity|].
    destruct (status_eqb (v_status video) Unwatched) eqn:E.
    + apply status_eqb_eq in E. contradiction.
    + now rewrite andb_false_r.
  - intros -> ->. reflexivity.
  - intros -> ->. reflexivity.
Qed.

Lemma updatePosition_status_derivation_witness :
  valid_position (of_Z 540) /\
  not_negative (Some (of_Z 600)) /\
  (exists video, find (fun v => v_id v =? 1) (videos test_store) = Some video) /\
  exists video' st',
    updatePosition 1 1 (of_Z 540) (Some (of_Z 600)) test_store = (Ok (Some video'), st') /\
    v_status video' = Completed.
Proof.
  assert (Hv : valid_position (of_Z 540)) by reflexivity.
  assert (Hd : not_negative (Some (of_Z 600))) by reflexivity.
  assert (Hf : find (fun v => v_id v =? 1) (videos test_store)
               = Some (mkVideo 1 "/course/01. Test Video.mp4" "01. Test Video.mp4"
                               "01. Test Video" zero zero Unwatched None 1 0 0))
    by reflexivity.
  split; [exact Hv|]. split; [exact Hd|]. split; [eexists; exact Hf|].
  destruct (updatePosition_status_derivation 1 1 (of_Z 540) (Some (of_Z 600)) test_store
              _ Hv Hd Hf)
    as (video' & st' & Hrun & _ & _ & _ & _ & _ & _ & HB & _).
  exists video', st'. split; [exact Hrun|]. apply HB; reflexivity.
Defined.

(** C4 as the specification words it fails on the code in two places.  A
    video with stored duration 600 that is 'unwatched' and gets the report
    (600, -1): the effective duration of the specification is the stored
    600, so the video would be 'completed', while the code takes -1 for the
    duration and makes it 'in-progress'.  And a 'completed' video of unknown
    duration that gets the report (60): 'else if position > 0' would make
    it 'in-progress', while the code changes the status of an 'unwatched'
    video only and leaves it 'completed'. *)
Lemma updatePosition_status_derivation_counterexample :
  (exists st1 video video' st',
      st1 = snd (updatePosition 1 1 zero (Some (of_Z 600)) test_store) /\
      find (fun v => v_id v =? 1) (videos st1) = Some video /\
      v_status video = Unwatched /\ v_duration video = of_Z 600 /\
      valid_position (of_Z 600) /\
      updatePosition 2 1 (of_Z 600) (Some (of_Z (-1))) st1 = (Ok (Some video'), st') /\
      v_status video' = InProgress /\
      ~ claimed_derivation (of_Z 600) (Some (of_Z (-1))) video (v_status video')) /\
  (exists st1 video video' st',
      st1 = snd (markCompleted 1 1 test_store) /\
      find (fun v => v_id v =? 1) (videos st1) = Some video /\
      v_status video = Completed /\ v_duration video = zero /\
      valid_position (of_Z 60) /\
      updatePosition 2 1 (of_Z 60) None st1 = (Ok (Some video'), st') /\
      v_status video' = Completed /\
      ~ claimed_derivation (of_Z 60) None video (v_status video')).
Proof.
  split.
  - do 4 eexists. split; [reflexivity|]. split; [vm_compute; reflexivity|].
    split; [reflexivity|]. split; [reflexivity|]. split; [reflexivity|].
    split; [vm_compute; reflexivity|]. split; [reflexivity|].
    intros (H & _). specialize (H eq_refl). discriminate H.
  - do 4 eexists. split; [reflexivity|]. split; [vm_compute; reflexivity|].
    split; [reflexivity|]. split; [reflexivity|]. split; [reflexivity|].
    split; [vm_compute; reflexivity|]. split; [reflexivity|].
    intros (_ & H & _). specialize (H eq_refl eq_refl). discriminate H.
Qed.

(** ** The reconciliation pass of [scanVideos] *)

Lemma same_but_title_refl v : same_but_title v v.
Proof. repeat split. Qed.

Lemma same_but_title_trans a b c :
  same_but_title a b -> same_but_title b c -> same_but_title a c.
Proof. unfold same_but_title. intuition congruence. Qed.

Lemma same_but_title_set_title t v : same_but_title v (set_title t v).
Proof. repeat split. Qed.

Lemma Forall2_same_but_title_refl l : Forall2 same_but_title l l.
Proof. induction l; constructor; auto using same_but_title_refl. Qed.

Lemma Forall2_same_but_title_trans l1 : forall l2 l3,
  Forall2 same_but_title l1 l2 -> Forall2 same_but_title l2 l3 ->
  Forall2 same_but_title l1 l3.
Proof.
  induction l1 as [|a l1 IH]; intros l2 l3 H12 H23.
  - inversion H12; subst. inversion H23; subst. constructor.
  - inversion H12; subst. inversion H23; subst. constructor.
    + eapply same_but_title_trans; eassumption.
    + eapply IH; eassumption.
Qed.

Lemma Forall2_same_but_title_update id t l :
  Forall2 same_but_title l
          (map (fun v => if v_id v =? id then set_title t v else v) l).
Proof.
  induction l as [|v l IH]; cbn; constructor; [|exact IH].
  destruct (v_id v =? id); auto using same_but_title_refl, same_but_title_set_title.
Qed.

Lemma Forall2_same_but_title_paths l l' :
  Forall2 same_but_title l l' -> map v_path l' = map v_path l.
Proof.
  induction 1 as [|v v' l l' H _ IH]; cbn; [reflexivity|].
  destruct H as (_ & Hp & _). now rewrite Hp, IH.
Qed.

Lemma Forall2_same_but_title_ids l l' :
  Forall2 same_but_title l l' -> map v_id l' = map v_id l.
Proof.
  induction 1 as [|v v' l l' H _ IH]; cbn; [reflexivity|].
  destruct H as (Hi & _). now rewrite Hi, IH.
Qed.

Lemma fresh_row_same_but_title v v' :
  same_but_title v v' -> fresh_row v -> fresh_row v'.
Proof. unfold same_but_title, fresh_row. intuition congruence. Qed.

Lemma evolves_refl st : evolves st st.
Proof.
  exists (videos st), []. rewrite app_nil_r.
  auto using Forall2_same_but_title_refl.
Qed.

Lemma evolves_trans st1 st2 st3 : evolves st1 st2 -> evolves st2 st3 -> evolves st1 st3.
Proof.
  intros (o1 & n1 & E1 & F1 & N1 & T1) (o2 & n2 & E2 & F2 & N2 & T2).
  rewrite E1 in F2. apply Forall2_app_inv_l in F2.
  destruct F2 as (a & b & Fa & Fb & ->).
  exists a, (b ++ n2)%list. repeat split.
  - now rewrite E2, app_assoc.
  - eapply Forall2_same_but_title_trans; eassumption.
  - apply Forall_app. split; [|assumption].
    clear - N1 Fb. revert b Fb. induction N1 as [|x l Hx _ IH]; intros b Fb.
    + inversion Fb. constructor.
    + inversion Fb; subst. constructor; eauto using fresh_row_same_but_title.
  - congruence.
Qed.

Lemma NoDup_snoc {A} (a : A) (l : list A) :
  NoDup l -> ~ In a l -> NoDup (l ++ [a]).
Proof.
  induction 1 as [|x l Hx Hl IH]; cbn; intros Ha.
  - constructor; [tauto|constructor].
  - constructor.
    + rewrite in_app_iff. cbn. intros [H|[H|[]]]; [tauto|]. apply Ha. now left.
    + apply IH. tauto.
Qed.

Lemma find_path_In p (l : list video) :
  find (fun v => v_path v =? p)%string l = None <-> ~ In p (map v_path l).
Proof.
  induction l as [|v l IH]; cbn.
  - tauto.
  - destruct (String.eqb_spec (v_path v) p) as [E|E].
    + split; [discriminate|]. intros H. exfalso. apply H. now left.
    + rewrite IH. tauto.
Qed.

Lemma existsb_path_find p (l : list video) :
  existsb (fun v => v_path v =? p)%string l = false <->
  find (fun v => v_path v =? p)%string l = None.
Proof.
  induction l as [|v l IH]; cbn; [tauto|].
  destruct (v_path v =? p)%string; cbn; [split; discriminate|exact IH].
Qed.

Lemma existsb_module_app ms m r :
  m_id r = m -> existsb (fun r => m_id r =? m) (ms ++ [r]) = true.
Proof.
  intros <-. rewrite existsb_app. cbn. rewrite Z.eqb_refl.
  now rewrite orb_true_r.
Qed.

(** [_getOrCreateModule] never throws, leaves the videos and notes alone,
    and returns null or the identifier of a module that exists. *)
Lemma getOrCreateModule_ok now modulePath moduleName st :
  exists moduleId st',
    _getOrCreateModule now modulePath moduleName st = (Ok moduleId, st') /\
    videos st' = videos st /\ notes st' = notes st /\ seq_videos st' = seq_videos st /\
    match moduleId with
    | Some m => existsb (fun r => m_id r =? m) (modules st') = true
    | None => True
    end.
Proof.
  unfold _getOrCreateModule.
  destruct (moduleName =? "Root")%string.
  { exists None, st. repeat split. }
  unfold bind, get_module_id_by_path.
  destruct (find (fun m => m_path m =? modulePath)%string (modules st)) as [m|] eqn:Ef; cbn.
  - exists (Some (m_id m)), st. repeat split.
    apply existsb_exists. exists m. apply find_some in Ef.
    split; [tauto|apply Z.eqb_refl].
  - unfold insert_module.
    assert (Hx : existsb (fun m => m_path m =? modulePath)%string (modules st) = false).
    { destruct (existsb _ (modules st)) eqn:Ex; [|reflexivity].
      apply existsb_exists in Ex. destruct Ex as (m & Hin & Hm).
      apply (find_none _ _ Ef) in Hin. congruence. }
    rewrite Hx. cbn. do 2 eexists. split; [reflexivity|]. cbn.
    repeat split. now apply existsb_module_app.
Qed.

Lemma reconcile_eq now video c st :
  reconcile now video c st
  = match find (fun v => v_path v =? path video)%string (videos st) with
    | Some v =>
        (Ok (mkCounters (addedCount c) (updatedCount c + 1)),
         set_videos (map (fun r => if v_id r =? v_id v then set_title (title video) r else r)
                         (videos st)) st)
    | None =>
        match _getOrCreateModule now (modulePath video) (moduleName video) st with
        | (Ok moduleId, st1) =>
            match insert_video now (path video) (filename video) (title video) moduleId
                               (sortOrder video) st1 with
            | (Ok _, st2) => (Ok (mkCounters (addedCount c + 1) (updatedCount c)), st2)
            | (Throw e, st2) => (Throw e, st2)
            end
        | (Throw e, st1) => (Throw e, st1)
        end
    end.
Proof.
  unfold reconcile, bind, get_video_id_by_path, update_video, ret.
  destruct (find _ (videos st)); reflexivity.
Qed.

(** One turn of the loop: either the path is known and only titles change,
    or it is new and one row with the column defaults is appended. *)
Lemma reconcile_step now video c st :
  (exists id,
      In (path video) (map v_path (videos st)) /\
      reconcile now video c st
      = (Ok (mkCounters (addedCount c) (updatedCount c + 1)),
         set_videos (map (fun v => if v_id v =? id then set_title (title video) v else v)
                         (videos st)) st)) \/
  (exists st' row,
      ~ In (path video) (map v_path (videos st)) /\
      reconcile now video c st
      = (Ok (mkCounters (addedCount c + 1) (updatedCount c)), st') /\
      videos st' = (videos st ++ [row])%list /\ notes st' = notes st /\
      v_path row = path video /\ fresh_row row).
Proof.
  rewrite reconcile_eq.
  destruct (find (fun v => v_path v =? path video)%string (videos st)) as [v|] eqn:Ef.
  - left. exists (v_id v). split; [|reflexivity].
    apply find_some in Ef. destruct Ef as [Hin He].
    apply String.eqb_eq in He. rewrite <- He. now apply in_map.
  - right.
    destruct (getOrCreateModule_ok now (modulePath video) (moduleName video) st)
      as (mid & st1 & Hm & Hv & Hn & Hs & Hfk).
    rewrite Hm. unfold insert_video. rewrite Hv.
    apply existsb_path_find in Ef as Hx. rewrite Hx.
    assert (Hfk' : match mid with
                   | Some m => negb (existsb (fun r => m_id r =? m) (modules st1))
                   | None => false
                   end = false).
    { destruct mid; [now rewrite Hfk|reflexivity]. }
    rewrite Hfk'. cbn. do 2 eexists. split; [now apply find_path_In|].
    split; [reflexivity|]. cbn. repeat split. exact Hn.
Qed.

Lemma evolves_step now video c st c' st' :
  reconcile now video c st = (Ok c', st') -> evolves st st'.
Proof.
  intros H.
  destruct (reconcile_step now video c st) as [(id & _ & E)|(s & row & _ & E & Ev & En & _ & Hf)];
    rewrite E in H; inversion H; subst.
  - exists (map (fun v => if v_id v =? id then set_title (title video) v else v) (videos st)), [].
    cbn. rewrite app_nil_r. repeat split; auto using Forall2_same_but_title_update.
  - exists (videos st), [row]. repeat split; auto using Forall2_same_but_title_refl.
Qed.

Lemma reconcile_total now video c st :
  exists c' st', reconcile now video c st = (Ok c', st').
Proof.
  destruct (reconcile_step now video c st) as [(id & _ & E)|(s & row & _ & E & _)];
    rewrite E; eauto.
Qed.

Lemma evolves_paths st st' :
  evolves st st' ->
  exists news, map v_path (videos st') = (map v_path (videos st) ++ news)%list /\
               map v_id (videos st') = (map v_id (videos st) ++ map v_id (skipn (List.length (videos st)) (videos st')))%list.
Proof.
  intros (olds & news & E & F & _ & _).
  exists (map v_path news). rewrite E, !map_app.
  rewrite (Forall2_same_but_title_paths _ _ F), (Forall2_same_but_title_ids _ _ F).
  split; [reflexivity|]. f_equal.
  rewrite (Forall2_length F), skipn_app, skipn_all, Nat.sub_diag. reflexivity.
Qed.

(** The whole loop: it never throws; the store evolves; every path met is
    in the store afterwards; the counters add up to the number of files;
    unique paths stay unique; and when every path was already known nothing
    is added. *)
Lemma reconcile_all_ok now videos_found : forall c st,
  exists c' st',
    reconcile_all now videos_found c st = (Ok c', st') /\
    evolves st st' /\
    (forall f, In f videos_found -> In (path f) (map v_path (videos st'))) /\
    addedCount c' + updatedCount c'
    = addedCount c + updatedCount c + Z.of_nat (List.length videos_found) /\
    addedCount c <= addedCount c' /\
    (NoDup (map v_path (videos st)) -> NoDup (map v_path (videos st'))) /\
    ((forall f, In f videos_found -> In (path f) (map v_path (videos st))) ->
     addedCount c' = addedCount c /\
     List.length (videos st') = List.length (videos st)).
Proof.
  induction videos_found as [|f fs IH]; intros c st.
  - exists c, st. cbn. repeat split; auto using evolves_refl; try lia; tauto.
  - cbn [reconcile_all]. unfold bind at 1.
    destruct (reconcile_total now f c st) as (c1 & st1 & E1). rewrite E1.
    pose proof (evolves_step _ _ _ _ _ _ E1) as Ev1.
    destruct (IH c1 st1) as (c' & st' & E & Ev & Hin & Hsum & Hle & Hnd & Hold).
    exists c', st'. split; [exact E|].
    destruct (evolves_paths _ _ Ev) as (news & Hp & _).
    destruct (reconcile_step now f c st) as [(id & Hk & E2)|(s & row & Hk & E2 & Hv & _ & Hrp & _)];
      rewrite E2 in E1; inversion E1; subst c1 st1; clear E1; cbn in *.
    + repeat split.
      * eapply evolves_trans; eassumption.
      * intros g [<-|Hg]; [|now apply Hin].
        rewrite Hp. apply in_or_app. left.
        rewrite map_map. erewrite map_ext; [exact Hk|].
        intros v. now destruct (v_id v =? id).
      * lia.
      * lia.
      * intros H. apply Hnd. rewrite map_map.
        erewrite map_ext; [exact H|]. intros v. now destruct (v_id v =? id).
      * destruct Hold as [Ha _]; [|exact Ha].
        intros g Hg. rewrite map_map.
        erewrite map_ext; [apply H; now right|]. intros v. now destruct (v_id v =? id).
      * destruct Hold as [_ Hl]; [|now rewrite Hl, length_map].
        intros g Hg. rewrite map_map.
        erewrite map_ext; [apply H; now right|]. intros v. now destruct (v_id v =? id).
    + repeat split.
      * eapply evolves_trans; eassumption.
      * intros g [<-|Hg]; [|now apply Hin].
        rewrite Hp, Hv, map_app. apply in_or_app. left. apply in_or_app. right.
        cbn. now left.
      * lia.
      * lia.
      * intros H. apply Hnd. rewrite Hv, map_app. cbn.
        apply NoDup_snoc; [exact H|now rewrite Hrp].
      * exfalso. apply Hk. apply H. now left.
      * exfalso. apply Hk. apply H. now left.
Qed.

(** [scanVideos] never throws: its result and store are those of the loop. *)
Lemma scanVideos_ok now coursePath tree st :
  exists c st',
    reconcile_all now (_findVideoFiles coursePath tree) (mkCounters 0 0) st = (Ok c, st') /\
    scanVideos now coursePath tree st
    = (Ok (mkScan (Z.of_nat (List.length (_findVideoFiles coursePath tree)))
                  (addedCount c) (updatedCount c)), st').
Proof.
  destruct (reconcile_all_ok now (_findVideoFiles coursePath tree) (mkCounters 0 0) st)
    as (c & st' & E & _).
  exists c, st'. split; [exact E|].
  unfold scanVideos, bind, transaction, ret. rewrite E. reflexivity.
Qed.

Lemma evolves_same_length st st' :
  evolves st st' -> List.length (videos st') = List.length (videos st) ->
  Forall2 same_but_title (videos st) (videos st').
Proof.
  intros (olds & news & E & F & _ & _) Hl.
  rewrite E, length_app, <- (Forall2_length F) in Hl.
  destruct news as [|x news]; [|cbn in Hl; lia].
  now rewrite E, app_nil_r.
Qed.

(** C5.  Whatever the tree, [scanVideos] succeeds and leaves every row that
    was in the store in its place with the same id, path, filename,
    duration, position, status, module reference, sort key and timestamps:
    only the title may differ.  The rows it adds come after them. *)
Theorem scanVideos_updates_only_title now coursePath tree st :
  exists result st' olds news,
    scanVideos now coursePath tree st = (Ok result, st') /\
    videos st' = (olds ++ news)%list /\
    Forall2 same_but_title (videos st) olds /\
    notes st' = notes st.
Proof.
  destruct (scanVideos_ok now coursePath tree st) as (c & st' & E & Es).
  destruct (reconcile_all_ok now (_findVideoFiles coursePath tree) (mkCounters 0 0) st)
    as (c0 & st0 & E0 & (olds & news & Ev & F & _ & Hn) & _).
  rewrite E in E0. inversion E0; subst c0 st0.
  exists (mkScan (Z.of_nat (List.length (_findVideoFiles coursePath tree)))
                 (addedCount c) (updatedCount c)), st', olds, news.
  auto.
Qed.

(** C6.  On a store with unique paths, scanning a tree and scanning the
    unchanged tree again both succeed; the second run adds nothing and
    counts every file as existing, the two runs find the same total, and
    the rows after the second run are those after the first, one for one
    with the same ids and paths; paths stay unique; and a later scan of any
    tree at all keeps every row (its id and path, in place). *)
Theorem scanVideos_idempotent now1 now2 coursePath tree st :
  unique_paths st ->
  exists r1 st1 r2 st2,
    scanVideos now1 coursePath tree st = (Ok r1, st1) /\
    scanVideos now2 coursePath tree st1 = (Ok r2, st2) /\
    added r2 = 0 /\ existing r2 = total r2 /\ total r2 = total r1 /\
    List.length (videos st2) = List.length (videos st1) /\
    map v_id (videos st2) = map v_id (videos st1) /\
    map v_path (videos st2) = map v_path (videos st1) /\
    unique_paths st1 /\ unique_paths st2 /\
    (forall now3 tree3, exists r3 st3 new_ids new_paths,
        scanVideos now3 coursePath tree3 st1 = (Ok r3, st3) /\
        map v_id (videos st3) = (map v_id (videos st1) ++ new_ids)%list /\
        map v_path (videos st3) = (map v_path (videos st1) ++ new_paths)%list).
Proof.
  intros Hu. unfold unique_paths in *.
  destruct (scanVideos_ok now1 coursePath tree st) as (c1 & st1 & E1 & S1).
  destruct (scanVideos_ok now2 coursePath tree st1) as (c2 & st2 & E2 & S2).
  destruct (reconcile_all_ok now1 (_findVideoFiles coursePath tree) (mkCounters 0 0) st)
    as (c1' & st1' & E1' & _ & Hin1 & _ & _ & Hnd1 & _).
  rewrite E1 in E1'. inversion E1'; subst c1' st1'. clear E1'.
  destruct (reconcile_all_ok now2 (_findVideoFiles coursePath tree) (mkCounters 0 0) st1)
    as (c2' & st2' & E2' & Ev2 & _ & Hsum2 & _ & Hnd2 & Hold2).
  rewrite E2 in E2'. inversion E2'; subst c2' st2'. clear E2'.
  destruct (Hold2 Hin1) as [Ha Hl]. cbn in Ha, Hsum2.
  pose proof (evolves_same_length _ _ Ev2 Hl) as F.
  do 4 eexists. split; [exact S1|]. split; [exact S2|]. cbn.
  repeat split; auto.
  - lia.
  - now apply Forall2_same_but_title_ids.
  - now apply Forall2_same_but_title_paths.
  - intros now3 tree3.
    destruct (scanVideos_ok now3 coursePath tree3 st1) as (c3 & st3 & E3 & S3).
    destruct (reconcile_all_ok now3 (_findVideoFiles coursePath tree3) (mkCounters 0 0) st1)
      as (c3' & st3' & E3' & Ev3 & _).
    rewrite E3 in E3'. inversion E3'; subst c3' st3'.
    destruct (evolves_paths _ _ Ev3) as (news & Hp & Hi).
    do 4 eexists. split; [exact S3|]. split; eassumption.
Qed.

Lemma scanVideos_idempotent_witness :
  unique_paths empty /\
  exists r1 st1 r2 st2,
    scanVideos 0 "/course" test_tree empty = (Ok r1, st1) /\
    scanVideos 1 "/course" test_tree st1 = (Ok r2, st2) /\
    added r2 = 0 /\ map v_id (videos st2) = map v_id (videos st1).
Proof.
  assert (H : unique_paths empty) by constructor.
  split; [exact H|].
  destruct (scanVideos_idempotent 0 1 "/course" test_tree empty H)
    as (r1 & st1 & r2 & st2 & S1 & S2 & Ha & _ & _ & _ & Hi & _).
  exists r1, st1, r2, st2. auto.
Defined.

(** ** Unwatched videos sit at position 0 *)

Lemma In_Forall2_same_but_title l l' v' :
  Forall2 same_but_title l l' -> In v' l' -> exists v, In v l /\ same_but_title v v'.
Proof.
  induction 1 as [|a b l l' Hab _ IH]; cbn; [tauto|].
  intros [<-|H]; [eauto|]. destruct (IH H) as (v & Hv & Hs). eauto.
Qed.

Lemma unwatched_at_zero_evolves st st' :
  evolves st st' -> unwatched_at_zero st -> unwatched_at_zero st'.
Proof.
  intros (olds & news & E & F & N & _) Hz v Hin Hs. rewrite E in Hin.
  apply in_app_or in Hin. destruct Hin as [Hin|Hin].
  - destruct (In_Forall2_same_but_title _ _ _ F Hin) as (v0 & Hin0 & Hsame).
    destruct Hsame as (_ & _ & _ & _ & Hp & Hst & _).
    rewrite Hp. apply Hz; congruence.
  - rewrite Forall_forall in N. destruct (N v Hin) as (_ & Hp & _).
    rewrite Hp. reflexivity.
Qed.

Lemma In_update_video id (f : video -> video) l v' :
  In v' (map (fun v => if v_id v =? id then f v else v) l) ->
  In v' l \/ exists v, In v l /\ v' = f v.
Proof.
  rewrite in_map_iff. intros (v & E & Hin).
  destruct (v_id v =? id); subst; eauto.
Qed.

Lemma updatePosition_not_a_number now videoId duration st :
  updatePosition now videoId NotNum duration st
  = (Throw (ValidationError "Position must be a non-negative number"), st).
Proof. reflexivity. Qed.

Lemma updatePosition_store now videoId (position : argument) duration st :
  snd (updatePosition now videoId position duration st) = st \/
  exists p video,
    position = Num p /\
    ltb p zero = false /\
    find (fun v => v_id v =? videoId) (videos st) = Some video /\
    snd (updatePosition now videoId position duration st)
    = set_videos (map (fun v => if v_id v =? videoId
                                then set_progress p duration
                                       (newStatus p duration video) now v
                                else v) (videos st)) st.
Proof.
  destruct position as [p|]; [|left; reflexivity].
  destruct (ltb p zero) eqn:Hg.
  - left. now rewrite updatePosition_rejected.
  - destruct (find (fun v => v_id v =? videoId) (videos st)) as [video|] eqn:Hf.
    + right. exists p, video. repeat split; auto.
      now rewrite (updatePosition_found _ _ _ _ _ _ Hg Hf).
    + left. now rewrite updatePosition_not_found.
Qed.

Lemma updateStatus_store now videoId text st :
  snd (updateStatus now videoId text st) = st \/
  exists status video,
    parse_status text = Some status /\
    find (fun v => v_id v =? videoId) (videos st) = Some video /\
    snd (updateStatus now videoId text st)
    = set_videos (map (fun v => if v_id v =? videoId
                                then set_status status
                                       (if status_eqb status Unwatched then zero
                                        else v_position video) now v
                                else v) (videos st)) st.
Proof.
  destruct (parse_status text) as [status|] eqn:Hp.
  - destruct (find (fun v => v_id v =? videoId) (videos st)) as [video|] eqn:Hf.
    + right. exists status, video. repeat split.
      now rewrite (updateStatus_found _ _ _ _ _ _ Hp Hf).
    + left. destruct (updateStatus_throws now videoId text st) as (e & ->); auto.
  - left. destruct (updateStatus_throws now videoId text st) as (e & ->); auto.
Qed.

Lemma saveNotes_videos now videoId content st :
  videos (snd (saveNotes now videoId content st)) = videos st.
Proof.
  unfold saveNotes, bind, get_video.
  destruct (find _ (videos st)); [|reflexivity].
  unfold upsert_note.
  destruct (existsb _ (notes st)); cbn.
  - unfold getNotes, bind, get_video, get_note. cbn.
    destruct (find _ (videos st)); cbn; [|reflexivity].
    destruct (find _ _); reflexivity.
  - destruct (negb _); cbn; [reflexivity|].
    unfold getNotes, bind, get_video, get_note. cbn.
    destruct (find _ (videos st)); cbn; [|reflexivity].
    destruct (find _ _); reflexivity.
Qed.

Lemma stored_eqb_zero p : eqb p zero = true -> eqb (stored p) zero = true.
Proof. destruct p as [[|]|[|]| |[|] m e]; cbn; congruence. Qed.

Lemma run_unwatched_at_zero op st :
  ~ reports_NaN op -> unwatched_at_zero st -> unwatched_at_zero (run op st).
Proof.
  intros Hv Hz.
  destruct op as [now cp tree|now id a d|now id s|now id c|id]; cbn [run].
  - destruct (scanVideos_ok now cp tree st) as (c & st' & E & ->). cbn.
    destruct (reconcile_all_ok now (_findVideoFiles cp tree) (mkCounters 0 0) st)
      as (c0 & st0 & E0 & Ev & _).
    rewrite E in E0. inversion E0; subst. eauto using unwatched_at_zero_evolves.
  - destruct (updatePosition_store now id a d st) as [->|(p & video & -> & Hg & _ & ->)];
      [assumption|].
    cbn in Hv. apply (accepted_valid_position _ Hv) in Hg.
    intros v Hin Hs. cbn in Hin.
    apply In_update_video in Hin. destruct Hin as [Hin|(v0 & _ & ->)]; [auto|].
    cbn in *. apply stored_eqb_zero. apply valid_position_not_positive; [assumption|].
    destruct (ltb zero p) eqn:Hp; [|reflexivity].
    exfalso. eapply newStatus_positive; eassumption.
  - destruct (updateStatus_store now id s st) as [->|(status & video & _ & _ & ->)]; [assumption|].
    intros v Hin Hs. cbn in Hin.
    apply In_update_video in Hin. destruct Hin as [Hin|(v0 & _ & ->)]; [auto|].
    cbn in *. subst status. reflexivity.
  - intros v Hin. rewrite saveNotes_videos in Hin. auto.
  - exact Hz.
Qed.

Lemma history_snoc ops op : history (ops ++ [op]) = run op (history ops).
Proof. unfold history. rewrite fold_left_app. reflexivity. Qed.

Lemma run_step op st : step st (run op st).
Proof. destruct op; constructor. Qed.

Lemma history_reachable ops : reachable (history ops).
Proof.
  induction ops as [|op ops IH] using rev_ind; [constructor|].
  rewrite history_snoc. eapply reachable_step; [exact IH|apply run_step].
Qed.

Lemma history_unwatched_at_zero ops :
  Forall (fun op => ~ reports_NaN op) ops -> unwatched_at_zero (history ops).
Proof.
  induction ops as [|op ops IH] using rev_ind; intros H.
  - intros v [].
  - apply Forall_app in H. destruct H as [Hops Hop]. inversion Hop; subst.
    rewrite history_snoc. apply run_unwatched_at_zero; auto.
Qed.

Lemma update_video_paths id (f : video -> video) l :
  (forall v, v_path (f v) = v_path v) ->
  map v_path (map (fun v => if v_id v =? id then f v else v) l) = map v_path l.
Proof.
  intros Hf. rewrite map_map. apply map_ext. intros v.
  destruct (v_id v =? id); [apply Hf|reflexivity].
Qed.

(** The UNIQUE constraint on videos.path is never put to the test: every
    store the public operations lead to has unique paths. *)
Lemma reachable_unique_paths st : reachable st -> unique_paths st.
Proof.
  unfold unique_paths. induction 1 as [|st st' _ IH Hstep]; [constructor|].
  destruct Hstep as [now cp tree st|now id a d st|now id s st|now id c st|id st].
  - destruct (scanVideos_ok now cp tree st) as (c & st' & E & ->). cbn.
    destruct (reconcile_all_ok now (_findVideoFiles cp tree) (mkCounters 0 0) st)
      as (c0 & st0 & E0 & _ & _ & _ & _ & Hnd & _).
    rewrite E in E0. inversion E0; subst. auto.
  - destruct (updatePosition_store now id a d st) as [->|(p & video & -> & _ & _ & ->)];
      [assumption|].
    cbn. now rewrite update_video_paths.
  - destruct (updateStatus_store now id s st) as [->|(status & video & _ & _ & ->)]; [assumption|].
    cbn. now rewrite update_video_paths.
  - now rewrite saveNotes_videos.
  - exact IH.
Qed.

(** C7, where the code departs from it.  The specification has every
    'unwatched' video at position 0 in every store the public operations
    lead to.  The guard of [updatePosition], whose message asks for a
    non-negative number, lets NaN through: on the freshly scanned store
    [updatePosition(1, NaN)] succeeds, the video stays 'unwatched', and its
    position is no longer 0 (NaN is stored as NULL). *)
Theorem updatePosition_accepts_NaN :
  reachable test_store /\
  (forall v, In v (videos test_store) -> v_status v = Unwatched /\ v_position v = zero) /\
  exists v st',
    updatePosition 1 1 NaN None test_store = (Ok (Some v), st') /\
    reachable st' /\
    find (fun r => v_id r =? 1) (videos st') = Some v /\
    v_status v = Unwatched /\
    v_position v = NaN /\
    eqb (v_position v) zero = false.
Proof.
  assert (H : reachable test_store).
  { apply (reachable_step empty); [constructor|].
    exact (step_scan 0 "/course" test_tree empty). }
  split; [exact H|]. split.
  { intros v [<-|[]]. split; reflexivity. }
  do 2 eexists. split; [vm_compute; reflexivity|].
  split.
  { exact (reachable_step _ _ H (step_position 1 1 NaN None test_store)). }
  repeat split.
Qed.

(** X26.  Apart from NaN, the code keeps status and position consistent.
    In the store after any calls of the public operations none of which
    reports the position NaN, failed calls included, a video whose status
    is 'unwatched' has position 0.  On every store, [updateStatus] of an
    existing video with 'unwatched' succeeds, and returns and stores the
    video as 'unwatched' at position 0; with 'in-progress' or 'completed'
    it succeeds, and returns and stores the video in that status at the
    position it had. *)
Theorem unwatched_at_zero_without_NaN ops :
  Forall (fun op => ~ reports_NaN op) ops ->
  reachable (history ops) /\
  (forall v, In v (videos (history ops)) -> v_status v = Unwatched ->
             eqb (v_position v) zero = true) /\
  (forall st now videoId old,
      find (fun r => v_id r =? videoId) (videos st) = Some old ->
      exists v st',
        updateStatus now videoId "unwatched" st = (Ok (Some v), st') /\
        v_status v = Unwatched /\ v_position v = zero /\
        find (fun r => v_id r =? videoId) (videos st') = Some v) /\
  (forall st now videoId old text status,
      In (text, status) [("in-progress", InProgress); ("completed", Completed)] ->
      find (fun r => v_id r =? videoId) (videos st) = Some old ->
      exists v st',
        updateStatus now videoId text st = (Ok (Some v), st') /\
        v_status v = status /\ v_position v = v_position old /\
        find (fun r => v_id r =? videoId) (videos st') = Some v).
Proof.
  intros Hops. split; [apply history_reachable|].
  split; [exact (history_unwatched_at_zero ops Hops)|]. split.
  - intros st now videoId old Hf.
    do 2 eexists. split.
    + exact (updateStatus_found now videoId "unwatched" Unwatched st old eq_refl Hf).
    + cbn. repeat split. rewrite find_update_video by reflexivity. now rewrite Hf.
  - intros st now videoId old text status Hin Hf.
    assert (Hp : parse_status text = Some status /\ status_eqb status Unwatched = false).
    { destruct Hin as [E|[E|[]]]; inversion E; subst; split; reflexivity. }
    destruct Hp as [Hp Hne].
    do 2 eexists. split.
    + exact (updateStatus_found now videoId text status st old Hp Hf).
    + cbn. rewrite Hne. repeat split.
      rewrite find_update_video by reflexivity. now rewrite Hf.
Qed.

Lemma unwatched_at_zero_without_NaN_witness :
  let ops := [Scan 0 "/course" test_tree;
              RecordPosition 1 1 (Num (of_Z 30)) None;
              SetStatus 2 1 "completed";
              RecordPosition 3 1 (Num (S754_zero true)) None;
              SetStatus 4 1 "unwatched";
              RecordPosition 5 1 NotNum None] in
  Forall (fun op => ~ reports_NaN op) ops /\
  (exists v, videos (history ops) = [v] /\ v_status v = Unwatched) /\
  forall v, In v (videos (history ops)) -> v_status v = Unwatched ->
            eqb (v_position v) zero = true.
Proof.
  intros ops.
  assert (H : Forall (fun op => ~ reports_NaN op) ops).
  { repeat constructor; cbn; try tauto; discriminate. }
  split; [exact H|]. split; [eexists; split; reflexivity|].
  exact (proj1 (proj2 (unwatched_at_zero_without_NaN ops H))).
Defined.

(** ** Statistics *)

(** The counts of [getStats] always add up, the unwatched count is the
    number of rows whose status is 'unwatched', an empty store reports 0
    percent, and the store is only read. *)
Lemma getStats_counts st :
  exists s,
    getStats st = (Ok s, st) /\
    s_total s = Z.of_nat (List.length (videos st)) /\
    s_unwatched s + s_inProgress s + s_completed s = s_total s /\
    s_unwatched s = s_total s - s_completed s - s_inProgress s /\
    s_unwatched s = count_videos (fun v => status_eqb (v_status v) Unwatched) st /\
    (s_total s = 0 -> s_percentComplete s = zero).
Proof.
  eexists. split; [reflexivity|]. cbn. unfold count_videos.
  rewrite filter_true. repeat split; try lia.
  - induction (videos st) as [|v l IH]; cbn [filter]; [reflexivity|].
    destruct (v_status v); cbn [status_eqb List.length] in *; lia.
  - intros H. rewrite H. reflexivity.
Qed.

Lemma course_23_of_40_reachable : reachable course_23_of_40.
Proof.
  unfold course_23_of_40.
  assert (H : reachable (snd (scanVideos 0 "/course" forty_lessons empty))).
  { apply (reachable_step empty); constructor. }
  revert H. generalize (snd (scanVideos 0 "/course" forty_lessons empty)).
  induction (map Z.of_nat (seq 1 23)) as [|i l IH]; intros st H; cbn [fold_left];
    [exact H|].
  apply IH. apply (reachable_step st); [exact H|apply step_status].
Qed.

(** C8, where the code departs from it.  The specification has
    percentComplete == round(100 * completed / total).  With 23 of 40
    videos completed the counts are consistent, but [percentComplete] is
    57: in binary64 (23 / 40) * 100 is 57.49999999999999, below 57.5, and
    Math.round takes it down, whereas 100 * 23 / 40 is exactly 57.5, whose
    nearest integer is 58. *)
Theorem getStats_percent_off_by_one :
  exists s,
    getStats course_23_of_40 = (Ok s, course_23_of_40) /\
    s_total s = 40 /\ s_completed s = 23 /\ s_inProgress s = 0 /\ s_unwatched s = 17 /\
    mul (div (of_Z 23) (of_Z 40)) (of_Z 100) = S754_finite false 8092405580431359 (-47) /\
    ltb (mul (div (of_Z 23) (of_Z 40)) (of_Z 100)) (div (of_Z 115) (of_Z 2)) = true /\
    s_percentComplete s = of_Z 57 /\
    nearest_percent (s_completed s) (s_total s) = 58.
Proof.
  eexists. split; [reflexivity|]. vm_compute. repeat split.
Qed.

(** ** Notes *)

Lemma find_app_None {A} (f : A -> bool) (l l' : list A) :
  find f l = None -> find f (l ++ l') = find f l'.
Proof.
  induction l as [|x l IH]; cbn; [reflexivity|].
  destruct (f x); [discriminate|exact IH].
Qed.

Lemma find_note_None videoId (l : list note) :
  find (fun n => n_video_id n =? videoId) l = None <->
  forall n, In n l -> n_video_id n <> videoId.
Proof.
  split.
  - intros H n Hin Hn. apply (find_none _ _ H) in Hin.
    rewrite Hn, Z.eqb_refl in Hin. discriminate.
  - intros H. destruct (find _ l) as [n|] eqn:E; [|reflexivity].
    apply find_some in E. destruct E as [Hin E]. apply Z.eqb_eq in E.
    exfalso. exact (H n Hin E).
Qed.

(** C9.  [getNotes] only reads the store; the one error it throws is
    NotFoundError, and it throws it exactly when no video has the
    identifier; for a video without a notes row it returns the object
    with the video's identifier and the empty content, and for a video with
    a notes row that row. *)
Theorem getNotes_contract videoId st :
  snd (getNotes videoId st) = st /\
  (forall e, fst (getNotes videoId st) = Throw e <->
             e = NotFoundError videoId /\
             ~ exists v, In v (videos st) /\ v_id v = videoId) /\
  ((exists v, In v (videos st) /\ v_id v = videoId) ->
   (forall n, In n (notes st) -> n_video_id n <> videoId) ->
   fst (getNotes videoId st) = Ok (Synthesized videoId "")) /\
  ((exists v, In v (videos st) /\ v_id v = videoId) ->
   exists o, fst (getNotes videoId st) = Ok o /\ video_id o = videoId /\
             (forall row, find (fun n => n_video_id n =? videoId) (notes st) = Some row ->
                          o = Stored row)).
Proof.
  unfold getNotes, bind, get_video, get_note, throw, ret.
  destruct (find (fun v => v_id v =? videoId) (videos st)) as [v|] eqn:Hf.
  - assert (Hex : exists v, In v (videos st) /\ v_id v = videoId).
    { exists v. now apply find_video_In. }
    destruct (find (fun n => n_video_id n =? videoId) (notes st)) as [row|] eqn:Hn;
      cbn; (split; [reflexivity|]); (split; [|split]).
    + intros e. split; [discriminate|]. intros [_ Hno]. contradiction.
    + intros _ Hno. apply find_some in Hn. destruct Hn as [Hin Hn].
      apply Z.eqb_eq in Hn. exfalso. exact (Hno row Hin Hn).
    + intros _. exists (Stored row). split; [reflexivity|]. split.
      * cbn. apply find_some in Hn. destruct Hn as [_ Hn]. now apply Z.eqb_eq.
      * intros row' E. congruence.
    + intros e. split; [discriminate|]. intros [_ Hno]. contradiction.
    + reflexivity.
    + intros _. exists (Synthesized videoId ""). split; [reflexivity|].
      split; [reflexivity|]. discriminate.
  - apply find_video_None in Hf. cbn. split; [reflexivity|]. split; [|split].
    + intros e. split.
      * intros E. inversion E. auto.
      * intros [-> _]. reflexivity.
    + intros Hex. contradiction.
    + intros Hex. contradiction.
Qed.

(** ** Sorting *)

Section SortFacts.
Context {A : Type} (le : A -> A -> bool).
Hypothesis le_total : forall a b, le a b = true \/ le b a = true.
Hypothesis le_trans : forall a b c, le a b = true -> le b c = true -> le a c = true.

Let R (a b : A) : Prop := le a b = true.

Lemma insert_perm x l : Permutation (insert le x l) (x :: l).
Proof.
  induction l as [|y l IH]; cbn; [reflexivity|].
  destruct (le x y); [reflexivity|].
  rewrite IH. apply perm_swap.
Qed.

Lemma sort_perm l : Permutation (sort le l) l.
Proof.
  induction l as [|x l IH]; cbn; [reflexivity|].
  fold (sort le l). rewrite insert_perm. now constructor.
Qed.

Lemma sort_In x l : In x (sort le l) <-> In x l.
Proof.
  split; apply Permutation_in; [|symmetry]; apply sort_perm.
Qed.

Lemma insert_sorted x l : Sorted R l -> Sorted R (insert le x l).
Proof.
  induction 1 as [|y l Hs IH Hh]; cbn.
  - repeat constructor.
  - destruct (le x y) eqn:E.
    + constructor; [now constructor|]. constructor. exact E.
    + constructor; [exact IH|].
      assert (Hyx : R y x) by (destruct (le_total x y); [congruence|assumption]).
      destruct Hh as [|z l Hyz]; cbn; [now constructor|].
      destruct (le x z); now constructor.
Qed.

Lemma sort_sorted l : StronglySorted R (sort le l).
Proof.
  apply Sorted_StronglySorted.
  - intros a b c. apply le_trans.
  - induction l as [|x l IH]; cbn; [constructor|].
    apply insert_sorted. exact IH.
Qed.

End SortFacts.

Lemma ascii_compare_refl a : Ascii.compare a a = Eq.
Proof. unfold Ascii.compare. apply N.compare_refl. Qed.

Lemma ascii_compare_lt_trans a b c :
  Ascii.compare a b = Lt -> Ascii.compare b c = Lt -> Ascii.compare a c = Lt.
Proof.
  unfold Ascii.compare. rewrite !N.compare_lt_iff. apply N.lt_trans.
Qed.

Lemma string_leb_trans s1 : forall s2 s3,
  String.leb s1 s2 = true -> String.leb s2 s3 = true -> String.leb s1 s3 = true.
Proof.
  unfold String.leb.
  induction s1 as [|a s1 IH]; intros [|b s2] [|c s3]; cbn; try congruence.
  destruct (Ascii.compare a b) eqn:Eab; try congruence;
    destruct (Ascii.compare b c) eqn:Ebc; try congruence; intros H1 H2.
  - apply Ascii.compare_eq_iff in Eab, Ebc. subst.
    rewrite ascii_compare_refl. now apply (IH s2).
  - apply Ascii.compare_eq_iff in Eab. subst. now rewrite Ebc.
  - apply Ascii.compare_eq_iff in Ebc. subst. now rewrite Eab.
  - now rewrite (ascii_compare_lt_trans _ _ _ Eab Ebc).
Qed.

Lemma order_leb_total a b : order_leb a b = true \/ order_leb b a = true.
Proof.
  unfold order_leb.
  destruct (Z.ltb_spec (v_sort_order a) (v_sort_order b)); [now left|].
  destruct (Z.ltb_spec (v_sort_order b) (v_sort_order a)); [now right|].
  assert (E : v_sort_order a = v_sort_order b) by lia.
  rewrite E, Z.eqb_refl. cbn.
  apply String.leb_total.
Qed.

Lemma order_leb_trans a b c :
  order_leb a b = true -> order_leb b c = true -> order_leb a c = true.
Proof.
  unfold order_leb. rewrite !orb_true_iff, !andb_true_iff, !Z.ltb_lt, !Z.eqb_eq.
  intros [H1|[H1 L1]] [H2|[H2 L2]]; try (left; lia).
  right. split; [lia|]. eapply string_leb_trans; eassumption.
Qed.

(** ** Saving notes *)

(** [saveNotes] on an existing video succeeds, leaves the videos alone and
    leaves a notes row for the video; every notes row of the video then
    carries the saved content, which is also what the call returns. *)
Lemma saveNotes_ok now videoId text st :
  (exists v, In v (videos st) /\ v_id v = videoId) ->
  exists o st',
    saveNotes now videoId text st = (Ok o, st') /\
    videos st' = videos st /\
    content o = text /\ video_id o = videoId /\
    (exists n, In n (notes st') /\ n_video_id n = videoId) /\
    (forall n, In n (notes st') -> n_video_id n = videoId -> n_content n = text).
Proof.
  intros Hex.
  destruct (find (fun v => v_id v =? videoId) (videos st)) as [v|] eqn:Ef;
    [|apply find_video_None in Ef; contradiction].
  unfold saveNotes, bind at 1, get_video. rewrite Ef.
  unfold bind, upsert_note.
  destruct (existsb (fun n => n_video_id n =? videoId) (notes st)) eqn:Ex.
  - unfold getNotes, bind, get_video, get_note. cbn. rewrite Ef.
    apply existsb_exists in Ex. destruct Ex as (n0 & Hin0 & Hid0).
    assert (Hfind : exists row,
               find (fun n => n_video_id n =? videoId)
                    (map (fun n => if n_video_id n =? videoId
                                   then mkNote (n_id n) (n_video_id n) text (n_created_at n) now
                                   else n) (notes st)) = Some row /\
               n_content row = text /\ n_video_id row = videoId).
    { clear - Hin0 Hid0. induction (notes st) as [|n l IH]; [contradiction|].
      cbn. destruct (n_video_id n =? videoId) eqn:E; cbn.
      - rewrite E. eexists. split; [reflexivity|]. cbn. split; [reflexivity|].
        now apply Z.eqb_eq.
      - rewrite E. apply IH. destruct Hin0 as [->|H]; [congruence|assumption]. }
    cbn. destruct Hfind as (row & -> & Hc & Hv). cbn.
    do 2 eexists. split; [reflexivity|]. cbn. repeat split; try assumption.
    + exists (mkNote (n_id n0) (n_video_id n0) text (n_created_at n0) now).
      split; [|now apply Z.eqb_eq]. apply in_map_iff. exists n0. now rewrite Hid0.
    + intros n Hin Hn. apply in_map_iff in Hin. destruct Hin as (m & Hm & _).
      destruct (n_video_id m =? videoId) eqn:E; subst n; [reflexivity|].
      apply Z.eqb_neq in E. contradiction.
  - assert (Hv : existsb (fun r => v_id r =? videoId) (videos st) = true).
    { apply existsb_exists. exists v. apply find_some in Ef. exact Ef. }
    rewrite Hv. cbn.
    unfold getNotes, bind, get_video, get_note. cbn. rewrite Ef.
    assert (Hnone : find (fun n => n_video_id n =? videoId) (notes st) = None).
    { destruct (find _ (notes st)) as [n|] eqn:E; [|reflexivity].
      apply find_some in E. destruct E as [Hin E].
      assert (existsb (fun n => n_video_id n =? videoId) (notes st) = true)
        by (apply existsb_exists; eauto).
      congruence. }
    cbn. rewrite (find_app_None _ _ _ Hnone). cbn. rewrite Z.eqb_refl. cbn.
    do 2 eexists. split; [reflexivity|]. cbn. repeat split.
    + eexists. split; [apply in_or_app; right; now left|reflexivity].
    + intros n Hin Hn. apply in_app_or in Hin. destruct Hin as [Hin|[<-|[]]]; [|reflexivity].
      exfalso. apply (find_none _ _ Hnone) in Hin. apply Z.eqb_neq in Hin. contradiction.
Qed.

(** ** The schema constraints hold in every reachable store *)

Ltac conjuncts := repeat match goal with |- _ /\ _ => split end.

Lemma max_rowid_ge {R} (id : R -> Z) (rows : list R) r :
  In r rows -> id r <= max_rowid id rows.
Proof.
  unfold max_rowid. induction rows as [|x rows IH]; cbn; [contradiction|].
  intros [->|H]; [lia|]. specialize (IH H). lia.
Qed.

Lemma max_rowid_nonneg {R} (id : R -> Z) (rows : list R) : 0 <= max_rowid id rows.
Proof. unfold max_rowid. induction rows as [|x rows IH]; cbn; lia. Qed.

Lemma next_rowid_fresh {R} (id : R -> Z) (rows : list R) seq :
  ~ In (next_rowid id rows seq) (map id rows).
Proof.
  intros H. apply in_map_iff in H. destruct H as (r & E & Hin).
  apply (max_rowid_ge id) in Hin. unfold next_rowid in E. lia.
Qed.

Lemma next_rowid_positive {R} (id : R -> Z) (rows : list R) seq :
  0 < next_rowid id rows seq.
Proof. unfold next_rowid. pose proof (max_rowid_nonneg id rows). lia. Qed.

Lemma map_update_rows {K} (key : video -> K) (c : video -> bool) (f : video -> video) l :
  (forall v, key (f v) = key v) ->
  map key (map (fun v => if c v then f v else v) l) = map key l.
Proof.
  intros Hf. rewrite map_map. apply map_ext. intros v.
  destruct (c v); [apply Hf|reflexivity].
Qed.

(** An UPDATE on rows of [videos] that keeps id, path and module reference
    keeps the constraints. *)
Lemma schema_update_videos st (c : video -> bool) (f : video -> video) :
  (forall v, v_id (f v) = v_id v) ->
  (forall v, v_path (f v) = v_path v) ->
  (forall v, v_module_id (f v) = v_module_id v) ->
  schema_holds st ->
  schema_holds (set_videos (map (fun v => if c v then f v else v) (videos st)) st).
Proof.
  intros Hi Hp Hm [].
  assert (Hin : forall v', In v' (map (fun v => if c v then f v else v) (videos st)) ->
                           exists v, In v (videos st) /\ v_id v' = v_id v /\
                                     v_module_id v' = v_module_id v).
  { intros v' H. apply in_map_iff in H. destruct H as (v & <- & H).
    exists v. destruct (c v); auto. }
  constructor; cbn; try assumption.
  - now rewrite map_update_rows.
  - now rewrite map_update_rows.
  - intros v' m H E. destruct (Hin v' H) as (v & Hv & _ & Em).
    rewrite Em in E. eauto.
  - intros n H. destruct (note_video_exists0 n H) as (v & Hv & E).
    exists (if c v then f v else v). split.
    + apply in_map_iff. eauto.
    + destruct (c v); [rewrite Hi|]; exact E.
Qed.

Lemma schema_insert_module st now name path sortOrder :
  schema_holds st ->
  existsb (fun m => m_path m =? path)%string (modules st) = false ->
  let id := next_rowid m_id (modules st) (seq_modules st) in
  insert_module now name path sortOrder st
  = (Ok id, mkDb (videos st) (modules st ++ [mkModule id name path sortOrder now])
                 (notes st) (seq_videos st) id (seq_notes st)) /\
  schema_holds (mkDb (videos st) (modules st ++ [mkModule id name path sortOrder now])
                     (notes st) (seq_videos st) id (seq_notes st)).
Proof.
  intros [] Hx id. unfold insert_module. rewrite Hx. split; [reflexivity|].
  constructor; cbn; try assumption.
  - rewrite map_app. cbn. apply NoDup_snoc; [assumption|]. apply next_rowid_fresh.
  - intros m H. apply in_app_or in H. destruct H as [H|[<-|[]]]; [auto|].
    cbn. apply next_rowid_positive.
  - rewrite map_app. cbn. apply NoDup_snoc; [assumption|].
    intros H. apply in_map_iff in H. destruct H as (m & E & Hm).
    assert (existsb (fun m => m_path m =? path)%string (modules st) = true).
    { apply existsb_exists. exists m. split; [assumption|]. now apply String.eqb_eq. }
    congruence.
  - intros v m H E. destruct (video_module_exists0 v m H E) as (r & Hr & Er).
    exists r. split; [apply in_or_app; now left|assumption].
Qed.

Lemma schema_insert_video st now path filename title moduleId sortOrder :
  schema_holds st ->
  existsb (fun v => v_path v =? path)%string (videos st) = false ->
  match moduleId with
  | Some m => exists r, In r (modules st) /\ m_id r = m
  | None => True
  end ->
  let id := next_rowid v_id (videos st) (seq_videos st) in
  let row := mkVideo id path filename title zero zero Unwatched moduleId sortOrder now now in
  insert_video now path filename title moduleId sortOrder st
  = (Ok id, mkDb (videos st ++ [row]) (modules st) (notes st) id
                 (seq_modules st) (seq_notes st)) /\
  schema_holds (mkDb (videos st ++ [row]) (modules st) (notes st) id
                     (seq_modules st) (seq_notes st)).
Proof.
  intros [] Hx Hfk id row. unfold insert_video. rewrite Hx.
  assert (Hb : match moduleId with
               | Some m => negb (existsb (fun r => m_id r =? m) (modules st))
               | None => false
               end = false).
  { destruct moduleId as [m|]; [|reflexivity]. destruct Hfk as (r & Hr & Er).
    apply negb_false_iff, existsb_exists. exists r. split; [assumption|].
    now apply Z.eqb_eq. }
  rewrite Hb. split; [reflexivity|].
  constructor; cbn; try assumption.
  - rewrite map_app. cbn. apply NoDup_snoc; [assumption|]. apply next_rowid_fresh.
  - rewrite map_app. cbn. apply NoDup_snoc; [assumption|].
    intros H. apply in_map_iff in H. destruct H as (v & E & Hv).
    assert (existsb (fun v => v_path v =? path)%string (videos st) = true).
    { apply existsb_exists. exists v. split; [assumption|]. now apply String.eqb_eq. }
    congruence.
  - intros v m H E. apply in_app_or in H. destruct H as [H|[<-|[]]]; [eauto|].
    cbn in E. subst moduleId. exact Hfk.
  - intros n H. destruct (note_video_exists0 n H) as (v & Hv & E).
    exists v. split; [apply in_or_app; now left|assumption].
Qed.

Lemma getOrCreateModule_schema now modulePath moduleName st :
  schema_holds st ->
  exists moduleId st',
    _getOrCreateModule now modulePath moduleName st = (Ok moduleId, st') /\
    schema_holds st' /\ videos st' = videos st /\ notes st' = notes st /\
    (forall m, In m (modules st) -> In m (modules st')) /\
    match moduleId with
    | Some m => exists r, In r (modules st') /\ m_id r = m /\ m_path r = modulePath
    | None => moduleName = "Root"
    end.
Proof.
  intros Hs. unfold _getOrCreateModule.
  destruct (String.eqb_spec moduleName "Root") as [E|E].
  { exists None, st. conjuncts; auto. }
  unfold bind, get_module_id_by_path.
  destruct (find (fun m => m_path m =? modulePath)%string (modules st)) as [m|] eqn:Ef; cbn.
  - exists (Some (m_id m)), st. apply find_some in Ef. destruct Ef as [Hin Hp].
    apply String.eqb_eq in Hp. conjuncts; auto. exists m. auto.
  - assert (Hx : existsb (fun m => m_path m =? modulePath)%string (modules st) = false).
    { destruct (existsb _ (modules st)) eqn:Ex; [|reflexivity].
      apply existsb_exists in Ex. destruct Ex as (m & Hin & Hm).
      apply (find_none _ _ Ef) in Hin. congruence. }
    destruct (schema_insert_module st now moduleName modulePath
                                   (_extractSortOrder moduleName) Hs Hx) as [Ei Hs'].
    rewrite Ei. cbn. do 2 eexists. split; [reflexivity|].
    split; [exact Hs'|]. cbn. conjuncts; try reflexivity.
    + intros m Hm. apply in_or_app. now left.
    + eexists. split; [apply in_or_app; right; now left|]. split; reflexivity.
Qed.

Lemma reconcile_schema now video c st c' st' :
  schema_holds st -> reconcile now video c st = (Ok c', st') -> schema_holds st'.
Proof.
  intros Hs. rewrite reconcile_eq.
  destruct (find (fun v => v_path v =? path video)%string (videos st)) as [v|] eqn:Ef.
  - intros H. inversion H; subst. now apply schema_update_videos.
  - destruct (getOrCreateModule_schema now (modulePath video) (moduleName video) st Hs)
      as (mid & st1 & Em & Hs1 & Hv & _ & _ & Hfk).
    rewrite Em.
    assert (Hx : existsb (fun v => v_path v =? path video)%string (videos st1) = false).
    { rewrite Hv. now apply existsb_path_find. }
    assert (Hfk' : match mid with
                   | Some m => exists r, In r (modules st1) /\ m_id r = m
                   | None => True
                   end).
    { destruct mid as [m|]; [|exact I]. destruct Hfk as (r & Hr & Er & _). eauto. }
    destruct (schema_insert_video st1 now (path video) (filename video) (title video)
                                  mid (sortOrder video) Hs1 Hx Hfk') as [Ei Hs2].
    rewrite Ei. intros H. inversion H; subst. exact Hs2.
Qed.

Lemma reconcile_all_schema now videos_found : forall c st c' st',
  schema_holds st -> reconcile_all now videos_found c st = (Ok c', st') -> schema_holds st'.
Proof.
  induction videos_found as [|f fs IH]; intros c st c' st' Hs; cbn [reconcile_all].
  - intros H. inversion H; subst. exact Hs.
  - unfold bind at 1. destruct (reconcile_total now f c st) as (c1 & st1 & E1).
    rewrite E1. apply IH. eapply reconcile_schema; eassumption.
Qed.

Lemma upsert_note_schema now videoId text st :
  schema_holds st ->
  (exists v, In v (videos st) /\ v_id v = videoId) ->
  exists st', upsert_note now videoId text st = (Ok tt, st') /\ schema_holds st' /\
              videos st' = videos st /\ modules st' = modules st.
Proof.
  intros [] (v & Hv & Ev). unfold upsert_note.
  destruct (existsb (fun n => n_video_id n =? videoId) (notes st)) eqn:Ex.
  - eexists. split; [reflexivity|]. split; [|split; reflexivity].
    constructor; cbn; try assumption.
    + rewrite map_map. rewrite (map_ext _ n_id); [assumption|].
      intros n. now destruct (n_video_id n =? videoId).
    + rewrite map_map. rewrite (map_ext _ n_video_id); [assumption|].
      intros n. now destruct (n_video_id n =? videoId).
    + intros n H. apply in_map_iff in H. destruct H as (n0 & <- & H0).
      destruct (note_video_exists0 n0 H0) as (w & Hw & Ew). exists w.
      split; [assumption|]. now destruct (n_video_id n0 =? videoId).
  - assert (Hb : negb (existsb (fun r => v_id r =? videoId) (videos st)) = false).
    { apply negb_false_iff, existsb_exists. exists v. split; [assumption|].
      now apply Z.eqb_eq. }
    rewrite Hb. eexists. split; [reflexivity|]. split; [|split; reflexivity].
    constructor; cbn; try assumption.
    + rewrite map_app. cbn. apply NoDup_snoc; [assumption|]. apply next_rowid_fresh.
    + rewrite map_app. cbn. apply NoDup_snoc; [assumption|].
      intros H. apply in_map_iff in H. destruct H as (n & E & Hn).
      assert (existsb (fun n => n_video_id n =? videoId) (notes st) = true).
      { apply existsb_exists. exists n. split; [assumption|]. now apply Z.eqb_eq. }
      congruence.
    + intros n H. apply in_app_or in H. destruct H as [H|[<-|[]]]; [auto|].
      cbn. eauto.
Qed.

Lemma NoDup_map_filter {A K} (key : A -> K) (p : A -> bool) (l : list A) :
  NoDup (map key l) -> NoDup (map key (filter p l)).
Proof.
  induction l as [|x l IH]; cbn; [auto|]. intros H. inversion H; subst.
  destruct (p x); cbn; [|auto]. constructor; [|auto].
  intros Hin. apply H2. apply in_map_iff in Hin. destruct Hin as (y & E & Hy).
  apply filter_In in Hy. apply in_map_iff. exists y. tauto.
Qed.

Lemma step_schema st st' : step st st' -> schema_holds st -> schema_holds st'.
Proof.
  intros Hstep Hs.
  destruct Hstep as [now cp tree st|now id a d st|now id s st|now id c st|id st].
  - destruct (scanVideos_ok now cp tree st) as (c & st' & E & ->). cbn.
    eapply reconcile_all_schema; eassumption.
  - destruct (updatePosition_store now id a d st) as [->|(p & video & -> & _ & _ & ->)];
      [assumption|].
    now apply schema_update_videos.
  - destruct (updateStatus_store now id s st) as [->|(status & video & _ & _ & ->)]; [assumption|].
    now apply schema_update_videos.
  - unfold saveNotes, bind at 1, get_video.
    destruct (find (fun v => v_id v =? id) (videos st)) as [v|] eqn:Ef; [|assumption].
    destruct (upsert_note_schema now id c st Hs) as (st' & Eu & Hs' & Hv' & _).
    { exists v. now apply find_video_In. }
    unfold bind. rewrite Eu.
    unfold getNotes, bind, get_video, get_note. rewrite Hv', Ef.
    destruct (find _ (notes st')); exact Hs'.
  - destruct Hs. constructor; cbn; try assumption.
    + now apply NoDup_map_filter.
    + now apply NoDup_map_filter.
    + intros n H. apply filter_In in H. destruct H as [H _]. auto.
Qed.

Lemma reachable_schema st : reachable st -> schema_holds st.
Proof.
  induction 1 as [|st st' _ IH Hstep].
  - constructor; cbn; try constructor; try contradiction.
  - eapply step_schema; eassumption.
Qed.

(** ** The order of the listings *)

Lemma string_leb_bytes_le s : forall t, String.leb s t = true -> bytes_le s t.
Proof.
  unfold String.leb. induction s as [|c s IH]; intros t; [constructor|].
  destruct t as [|d t]; cbn; [discriminate|].
  destruct (Ascii.compare c d) eqn:E.
  - apply Ascii.compare_eq_iff in E. subst d. intros Hle. apply bytes_le_eq. now apply IH.
  - intros _. apply bytes_le_lt. unfold Ascii.compare in E.
    apply N.compare_lt_iff in E. unfold code, nat_of_ascii.
    rewrite !N_nat_Z. now apply N2Z.inj_lt.
  - discriminate.
Qed.

Lemma order_leb_listing a b : order_leb a b = true -> in_listing_order a b.
Proof.
  unfold order_leb, in_listing_order.
  rewrite orb_true_iff, andb_true_iff, Z.ltb_lt, Z.eqb_eq.
  intros [H|[H L]]; [now left|]. right. split; [assumption|].
  now apply string_leb_bytes_le.
Qed.

Lemma StronglySorted_impl {A} (R R' : A -> A -> Prop) l :
  (forall a b, R a b -> R' a b) -> StronglySorted R l -> StronglySorted R' l.
Proof.
  intros HR. induction 1 as [|a l _ IH Hall]; constructor; [exact IH|].
  eapply Forall_impl; [|exact Hall]. apply HR.
Qed.

Lemma StronglySorted_pair {A} (R : A -> A -> Prop) before a between b after :
  StronglySorted R (before ++ a :: between ++ b :: after)%list -> R a b.
Proof.
  induction before as [|x before IH]; cbn; intros H.
  - apply StronglySorted_inv in H. destruct H as [_ Hall].
    rewrite Forall_forall in Hall. apply Hall. apply in_or_app. right. now left.
  - apply StronglySorted_inv in H. destruct H as [H _]. auto.
Qed.

Lemma sort_in_listing_order {A} (video_of : A -> video) l :
  StronglySorted (fun a b => in_listing_order (video_of a) (video_of b))
                 (sort (fun a b => order_leb (video_of a) (video_of b)) l).
Proof.
  apply StronglySorted_impl
    with (R := fun a b => order_leb (video_of a) (video_of b) = true).
  - intros a b. apply order_leb_listing.
  - apply sort_sorted.
    + intros a b. apply order_leb_total.
    + intros a b c. apply order_leb_trans.
Qed.

(** ** Videos with notes *)

Lemma In_inner_join_notes vs n r :
  In r (inner_join_notes vs n) <->
  In (nv_video r) vs /\ v_id (nv_video r) = n_video_id n /\
  notes_content r = n_content n /\ n_content n <> "".
Proof.
  unfold inner_join_notes.
  destruct (n_content n =? "")%string eqn:E.
  - apply String.eqb_eq in E. split; [intros []|]. intros (_ & _ & _ & H). contradiction.
  - apply String.eqb_neq in E. rewrite in_map_iff. split.
    + intros (v & <- & Hin). apply filter_In in Hin. destruct Hin as [Hin Hid].
      apply Z.eqb_eq in Hid. cbn. auto.
    + intros (Hin & Hid & Hc & _). exists (nv_video r). split.
      * destruct r as [rv rc]. cbn in *. now subst.
      * apply filter_In. split; [assumption|]. now apply Z.eqb_eq.
Qed.

Lemma inner_join_notes_ids vs n :
  NoDup (map v_id vs) ->
  NoDup (map (fun r => v_id (nv_video r)) (inner_join_notes vs n)).
Proof.
  intros Hnd. unfold inner_join_notes.
  destruct (n_content n =? "")%string; [constructor|].
  rewrite map_map. cbn. now apply NoDup_map_filter.
Qed.

Lemma joined_notes_ids vs ns :
  NoDup (map v_id vs) -> NoDup (map n_video_id ns) ->
  NoDup (map (fun r => v_id (nv_video r)) (flat_map (inner_join_notes vs) ns)).
Proof.
  intros Hv. induction ns as [|n ns IH]; cbn; [constructor|].
  intros Hn. inversion Hn as [|x l Hx Hl]; subst.
  rewrite map_app. apply NoDup_app.
  - now apply inner_join_notes_ids.
  - now apply IH.
  - intros k Hk Hk'. apply in_map_iff in Hk. destruct Hk as (r & <- & Hr).
    apply In_inner_join_notes in Hr. destruct Hr as (_ & Hid & _).
    apply in_map_iff in Hk'. destruct Hk' as (r' & E & Hr').
    apply in_flat_map in Hr'. destruct Hr' as (n' & Hn' & Hr').
    apply In_inner_join_notes in Hr'. destruct Hr' as (_ & Hid' & _).
    apply Hx. apply in_map_iff. exists n'. split; [congruence|assumption].
Qed.

(** C10.  [getVideosWithNotes] only reads the store and returns exactly the
    videos joined with a notes row of theirs whose content is not empty; in
    a store the operations lead to no video comes twice; the rows are
    ordered by sort key, and by file name among videos of one sort key.
    After [saveNotes] with the empty string on an existing video a notes row
    for it is still there, and the video is not in the listing. *)
Theorem getVideosWithNotes_spec st :
  exists rows,
    getVideosWithNotes st = (Ok rows, st) /\
    (forall r, In r rows <->
               In (nv_video r) (videos st) /\ notes_content r <> "" /\
               exists n, In n (notes st) /\ n_video_id n = v_id (nv_video r) /\
                         n_content n = notes_content r) /\
    (reachable st -> NoDup (map (fun r => v_id (nv_video r)) rows)) /\
    (forall before a between b after,
        rows = (before ++ a :: between ++ b :: after)%list ->
        v_sort_order (nv_video a) < v_sort_order (nv_video b) \/
        (v_sort_order (nv_video a) = v_sort_order (nv_video b) /\
         bytes_le (v_filename (nv_video a)) (v_filename (nv_video b)))) /\
    (forall now videoId,
        (exists v, In v (videos st) /\ v_id v = videoId) ->
        exists o st' rows',
          saveNotes now videoId "" st = (Ok o, st') /\
          (exists n, In n (notes st') /\ n_video_id n = videoId /\ n_content n = "") /\
          getVideosWithNotes st' = (Ok rows', st') /\
          (forall r, In r rows' -> v_id (nv_video r) <> videoId)).
Proof.
  eexists. split; [reflexivity|]. split; [|split; [|split]].
  - intros r. rewrite sort_In, in_flat_map. split.
    + intros (n & Hin & Hr). apply In_inner_join_notes in Hr.
      destruct Hr as (Hv & Hid & Hc & Hne). repeat split; [assumption|congruence|].
      exists n. auto.
    + intros (Hin & Hne & n & Hn & Hid & Hc). exists n. split; [assumption|].
      apply In_inner_join_notes. repeat split; congruence.
  - intros Hr. destruct (reachable_schema st Hr).
    eapply Permutation_NoDup.
    + apply Permutation_map. symmetry. apply sort_perm.
    + now apply joined_notes_ids.
  - intros before a between b after E.
    pose proof (sort_in_listing_order nv_video
                  (flat_map (inner_join_notes (videos st)) (notes st))) as Hs.
    rewrite E in Hs. exact (StronglySorted_pair _ _ _ _ _ _ Hs).
  - intros now videoId Hex.
    destruct (saveNotes_ok now videoId "" st Hex)
      as (o & st' & Hs & Hv & _ & _ & (n & Hin & Hn) & Hall).
    exists o, st'. eexists. split; [exact Hs|]. split.
    { exists n. auto. }
    split; [reflexivity|].
    intros r Hr Hid. rewrite sort_In, in_flat_map in Hr.
    destruct Hr as (m & Hm & Hr). apply In_inner_join_notes in Hr.
    destruct Hr as (_ & Hmid & _ & Hne).
    apply Hne. apply Hall; [assumption|]. congruence.
Qed.

(** ** Search *)

Lemma length_append s t :
  String.length (s ++ t) = (String.length s + String.length t)%nat.
Proof. induction s as [|c s IH]; cbn; [reflexivity|]. now rewrite IH. Qed.

Lemma searchTerm_length query :
  Z.of_nat (String.length ("%" ++ query ++ "%")) = Z.of_nat (String.length query) + 2.
Proof. cbn. rewrite length_append. cbn. lia. Qed.

Lemma starts_with_ci_spec query : forall text,
  starts_with_ci query text = true <->
  exists middle after,
    text = (middle ++ after)%string /\ toLowerCase middle = toLowerCase query.
Proof.
  induction query as [|c q IH]; intros text; cbn.
  - split; [|reflexivity]. intros _. exists "", text. split; reflexivity.
  - destruct text as [|d t].
    + split; [discriminate|]. intros (m & a & E & L).
      destruct m; cbn in *; discriminate.
    + rewrite andb_true_iff, IH. split.
      * intros (Hc & m & a & -> & L). apply Ascii.eqb_eq in Hc.
        exists (String d m), a. cbn. split; [reflexivity|]. congruence.
      * intros (m & a & E & L). destruct m as [|d' m]; cbn in *; [discriminate|].
        inversion E; subst. inversion L; subst. split.
        -- apply Ascii.eqb_eq. congruence.
        -- exists m, a. auto.
Qed.

Lemma contains_ci_spec query text :
  contains_ci query text = true <-> occurs_ci query text.
Proof.
  unfold occurs_ci. induction text as [|d t IH]; cbn [contains_ci].
  - rewrite orb_false_r, starts_with_ci_spec. split.
    + intros (m & a & E & L). exists "", m, a. auto.
    + intros (b & m & a & E & L). destruct b; cbn in E; [eauto|discriminate].
  - rewrite orb_true_iff, starts_with_ci_spec, IH. split.
    + intros [(m & a & E & L)|(b & m & a & E & L)].
      * exists "", m, a. auto.
      * exists (String d b), m, a. cbn. split; congruence.
    + intros (b & m & a & E & L). destruct b as [|d' b]; cbn in E.
      * left. eauto.
      * right. inversion E; subst. eauto.
Qed.

(** *** Unicode text, character by character *)

Lemma string_length_ind (P : string -> Prop) :
  (forall s, (forall t, (String.length t < String.length s)%nat -> P t) -> P s) ->
  forall s, P s.
Proof.
  intros H s. remember (String.length s) as n eqn:E. revert s E.
  induction n as [n IH] using lt_wf_ind. intros s ->.
  apply H. intros t Ht. exact (IH _ Ht t eq_refl).
Qed.

Lemma unicode_text_cases s :
  unicode_text s = true ->
  s = EmptyString \/
  exists ch rest, encoded ch /\ s = (ch ++ rest)%string /\ unicode_text rest = true.
Proof.
  destruct s as [|a s1]; [now left|]. intros H. right. cbn [unicode_text] in H.
  destruct (code a <? 128) eqn:E1.
  { exists (String a ""), s1. apply Z.ltb_lt in E1. split; [now constructor|]. auto. }
  destruct s1 as [|a1 s2]; [discriminate|].
  destruct ((194 <=? code a) && (code a <? 224)) eqn:E2.
  { apply andb_true_iff in E2. destruct E2 as [L U].
    apply Z.leb_le in L. apply Z.ltb_lt in U.
    apply andb_true_iff in H. destruct H as [H1 H2].
    exists (String a (String a1 "")), s2. split; [constructor; auto; lia|]. auto. }
  destruct s2 as [|a2 s3]; [discriminate|].
  destruct ((224 <=? code a) && (code a <? 240)) eqn:E3.
  { apply andb_true_iff in E3. destruct E3 as [L U].
    apply Z.leb_le in L. apply Z.ltb_lt in U.
    apply andb_true_iff in H. destruct H as [H1 H2].
    exists (String a (String a1 (String a2 ""))), s3. split; [constructor; auto; lia|]. auto. }
  destruct s3 as [|a3 s4]; [discriminate|].
  apply andb_true_iff in H. destruct H as [H H2].
  apply andb_true_iff in H. destruct H as [L H1]. apply Z.leb_le in L.
  exists (String a (String a1 (String a2 (String a3 "")))), s4.
  split; [constructor; auto|]. auto.
Qed.

Lemma encoded_length ch : encoded ch -> (0 < String.length ch)%nat.
Proof. destruct 1; cbn; lia. Qed.

Lemma unicode_text_induction (P : string -> Prop) :
  P EmptyString ->
  (forall ch s, encoded ch -> unicode_text s = true -> P s -> P (ch ++ s)%string) ->
  forall s, unicode_text s = true -> P s.
Proof.
  intros H0 Hc s. induction s as [s IH] using string_length_ind. intros Hs.
  destruct (unicode_text_cases s Hs) as [->|(ch & rest & Hch & -> & Hr)]; [exact H0|].
  apply Hc; auto. apply IH; [|assumption].
  rewrite length_append. pose proof (encoded_length ch Hch). lia.
Qed.

Lemma unicode_text_app ch s :
  encoded ch -> unicode_text s = true -> unicode_text (ch ++ s) = true.
Proof.
  intros Hch Hs.
  destruct Hch as [a Ha|a a1 Ha Hc|a a1 a2 Ha Hc|a a1 a2 a3 Ha Hc];
    cbn [append unicode_text].
  - replace (code a <? 128) with true by (symmetry; apply Z.ltb_lt; lia). assumption.
  - replace (code a <? 128) with false by (symmetry; apply Z.ltb_ge; lia).
    replace ((194 <=? code a) && (code a <? 224)) with true
      by (symmetry; apply andb_true_iff; rewrite Z.leb_le, Z.ltb_lt; lia).
    now rewrite Hc.
  - replace (code a <? 128) with false by (symmetry; apply Z.ltb_ge; lia).
    replace ((194 <=? code a) && (code a <? 224)) with false
      by (symmetry; apply andb_false_iff; rewrite Z.leb_gt, Z.ltb_ge; lia).
    replace ((224 <=? code a) && (code a <? 240)) with true
      by (symmetry; apply andb_true_iff; rewrite Z.leb_le, Z.ltb_lt; lia).
    now rewrite Hc.
  - replace (code a <? 128) with false by (symmetry; apply Z.ltb_ge; lia).
    replace ((194 <=? code a) && (code a <? 224)) with false
      by (symmetry; apply andb_false_iff; rewrite Z.leb_gt, Z.ltb_ge; lia).
    replace ((224 <=? code a) && (code a <? 240)) with false
      by (symmetry; apply andb_false_iff; rewrite Z.leb_gt, Z.ltb_ge; lia).
    replace (240 <=? code a) with true by (symmetry; apply Z.leb_le; lia).
    now rewrite Hc.
Qed.

(** *** The bits of a character *)

(** Masking the low [k] bits of a 32-bit value off. *)
Lemma land_high c low high :
  0 <= c < 2 ^ 32 -> Z.lor high low = Z.ones 32 -> Z.land high low = 0 ->
  Z.land c high = c - Z.land c low.
Proof.
  intros Hc Hor Hand.
  assert (E : c = Z.land c (Z.ones 32)).
  { rewrite Z.land_ones by lia. symmetry. now apply Z.mod_small. }
  rewrite <- Hor in E. rewrite Z.land_lor_distr_r in E.
  assert (D : Z.land (Z.land c high) (Z.land c low) = 0).
  { rewrite (Z.land_comm c low), Z.land_assoc, <- (Z.land_assoc c high low), Hand.
    now rewrite Z.land_0_r, Z.land_0_l. }
  pose proof (Z.add_lor_land (Z.land c high) (Z.land c low)) as A.
  rewrite D, <- E in A. lia.
Qed.

Lemma fix_up_valid c :
  128 <= c < 2 ^ 32 -> ~ 55296 <= c < 57344 -> c <> 65534 -> c <> 65535 ->
  fix_up c = c.
Proof.
  intros Hc Hs H1 H2. unfold fix_up.
  replace (c <? 128) with false by (symmetry; apply Z.ltb_ge; lia).
  rewrite (land_high c 2047 4294965248) by (reflexivity || lia).
  rewrite (land_high c 1 4294967294) by (reflexivity || lia).
  change 2047 with (Z.ones 11). change 1 with (Z.ones 1) at 1.
  rewrite !Z.land_ones by lia.
  replace (c - c mod 2 ^ 11 =? 55296) with false.
  2:{ symmetry. apply Z.eqb_neq. change (2 ^ 11) with 2048.
      pose proof (Z.mod_pos_bound c 2048 ltac:(lia)).
      pose proof (Z.div_mod c 2048 ltac:(lia)). lia. }
  replace (c - c mod 2 ^ 1 =? 65534) with false; [reflexivity|].
  symmetry. apply Z.eqb_neq. change (2 ^ 1) with 2.
  pose proof (Z.mod_pos_bound c 2 ltac:(lia)). lia.
Qed.

Lemma continuation_bits b : continuation b = true -> Z.land b 63 = b - 128.
Proof.
  unfold continuation. rewrite andb_true_iff, Z.leb_le, Z.ltb_lt. intros [L U].
  change 63 with (Z.ones 6). rewrite Z.land_ones by lia. change (2 ^ 6) with 64.
  symmetry. apply (Z.mod_unique b 64 2 (b - 128)); lia.
Qed.

Lemma continuation_spec b : continuation b = true <-> 128 <= b < 192.
Proof. unfold continuation. rewrite andb_true_iff, Z.leb_le, Z.ltb_lt. tauto. Qed.

Lemma continuation_false b : continuation b = false <-> b < 128 \/ 192 <= b.
Proof.
  unfold continuation. rewrite andb_false_iff, Z.leb_gt, Z.ltb_ge. tauto.
Qed.

Lemma three_bytes_spec b b1 b2 :
  three_bytes b b1 b2 = true ->
  128 <= b1 < 192 /\ 128 <= b2 < 192 /\ (b = 224 -> 160 <= b1) /\
  (b = 237 -> b1 < 160) /\ (b = 239 -> b1 = 191 -> b2 < 190).
Proof.
  unfold three_bytes. rewrite !andb_true_iff, !orb_true_iff, !negb_true_iff.
  rewrite !continuation_spec, !andb_false_iff, !Z.eqb_neq, Z.leb_le, Z.ltb_lt, Z.leb_gt.
  lia.
Qed.

Lemma four_bytes_spec b b1 b2 b3 :
  four_bytes b b1 b2 b3 = true ->
  b <= 244 /\ 128 <= b1 < 192 /\ 128 <= b2 < 192 /\ 128 <= b3 < 192 /\
  (b = 240 -> 144 <= b1) /\ (b = 244 -> b1 < 144).
Proof.
  unfold four_bytes. rewrite !andb_true_iff, !orb_true_iff, !negb_true_iff.
  rewrite !continuation_spec, !Z.eqb_neq, !Z.leb_le, Z.ltb_lt.
  lia.
Qed.

Lemma code_inj a b : code a = code b -> a = b.
Proof.
  unfold code. intros H. apply Nat2Z.inj in H.
  rewrite <- (ascii_nat_embedding a), <- (ascii_nat_embedding b). now rewrite H.
Qed.

(** *** Reading a text *)

Lemma unicode_text_clean s : unicode_text s = true -> starts_clean s.
Proof.
  intros H. destruct (unicode_text_cases s H) as [->|(ch & rest & Hch & -> & _)];
    [exact I|].
  destruct Hch; cbn; apply continuation_false; lia.
Qed.

Lemma starts_clean_app s rest :
  unicode_text s = true -> starts_clean rest -> starts_clean (s ++ rest).
Proof.
  intros Hs Hr. pose proof (unicode_text_clean s Hs) as H.
  destruct s; [exact Hr|exact H].
Qed.

Lemma code_points_from_flush c rest :
  starts_clean rest ->
  code_points_from (Some c) rest = fix_up c :: code_points_from None rest.
Proof.
  destruct rest as [|a rest]; [reflexivity|]. cbn [starts_clean code_points_from].
  unfold continuation. intros ->.
  destruct (code a =? 0); [reflexivity|]. destruct (code a <? 192); reflexivity.
Qed.

Lemma code_points_from_more c a rest :
  continuation (code a) = true ->
  code_points_from (Some c) (String a rest)
  = code_points_from (Some ((c * 64 + Z.land (code a) 63) mod 2 ^ 32)) rest.
Proof. cbn [code_points_from]. unfold continuation. now intros ->. Qed.

Lemma code_points_from_lead a rest :
  192 <= code a ->
  code_points_from None (String a rest)
  = code_points_from (Some (trans1 (code a))) rest.
Proof.
  intros H. cbn [code_points_from].
  replace (code a =? 0) with false by (symmetry; apply Z.eqb_neq; lia).
  replace (code a <? 192) with false by (symmetry; apply Z.ltb_ge; lia).
  reflexivity.
Qed.

(** The engine reads a character of the text as the character it is. *)
Lemma code_points_encoded ch rest :
  encoded ch -> point ch <> 0 -> starts_clean rest ->
  code_points_from None (ch ++ rest) = point ch :: code_points_from None rest.
Proof.
  intros Hch Hz Hr. destruct Hch as [a Ha|a a1 Ha H1|a a1 a2 Ha H|a a1 a2 a3 Ha H];
    cbn [append point] in *.
  - cbn [code_points_from].
    replace (code a =? 0) with false by (symmetry; apply Z.eqb_neq; lia).
    replace (code a <? 192) with true by (symmetry; apply Z.ltb_lt; lia).
    reflexivity.
  - rewrite code_points_from_lead by lia.
    rewrite code_points_from_more by assumption.
    rewrite code_points_from_flush by assumption. f_equal.
    rewrite continuation_bits by assumption. apply continuation_spec in H1.
    unfold trans1. replace (code a <? 224) with true by (symmetry; apply Z.ltb_lt; lia).
    rewrite Z.mod_small by lia. apply fix_up_valid; lia.
  - apply three_bytes_spec in H. destruct H as (H1 & H2 & Ho & Hs & Hn).
    rewrite code_points_from_lead by lia.
    rewrite !code_points_from_more by (apply continuation_spec; lia).
    rewrite code_points_from_flush by assumption. f_equal.
    rewrite !continuation_bits by (apply continuation_spec; lia).
    unfold trans1. replace (code a <? 224) with false by (symmetry; apply Z.ltb_ge; lia).
    replace (code a <? 240) with true by (symmetry; apply Z.ltb_lt; lia).
    rewrite (Z.mod_small ((code a - 224) * 64 + (code a1 - 128))) by lia.
    rewrite Z.mod_small by lia.
    rewrite fix_up_valid; lia.
  - apply four_bytes_spec in H. destruct H as (Hb & H1 & H2 & H3 & Ho & Hm).
    rewrite code_points_from_lead by lia.
    rewrite !code_points_from_more by (apply continuation_spec; lia).
    rewrite code_points_from_flush by assumption. f_equal.
    rewrite !continuation_bits by (apply continuation_spec; lia).
    unfold trans1. replace (code a <? 224) with false by (symmetry; apply Z.ltb_ge; lia).
    replace (code a <? 240) with false by (symmetry; apply Z.ltb_ge; lia).
    replace (code a <? 248) with true by (symmetry; apply Z.ltb_lt; lia).
    rewrite (Z.mod_small ((code a - 240) * 64 + (code a1 - 128))) by lia.
    rewrite (Z.mod_small (((code a - 240) * 64 + (code a1 - 128)) * 64 + (code a2 - 128)))
      by lia.
    rewrite Z.mod_small by lia.
    rewrite fix_up_valid; lia.
Qed.

(** On a pattern character below 128, the comparison of LIKE is the
    comparison of the lower-case bytes. *)
Lemma same_point_lower c d :
  code c < 128 -> same_point (code c) (code d) = (lower c =? lower d)%char.
Proof.
  intros Hc.
  assert (T : forallb (fun n =>
                forallb (fun m =>
                  Bool.eqb (same_point (Z.of_nat n) (Z.of_nat m))
                           (lower (ascii_of_nat n) =? lower (ascii_of_nat m))%char)
                  (seq 0 256)) (seq 0 128) = true) by (vm_compute; reflexivity).
  rewrite forallb_forall in T.
  pose proof (nat_ascii_bounded d) as Hd.
  assert (Hn : In (nat_of_ascii c) (seq 0 128)).
  { apply in_seq. unfold code in Hc. lia. }
  specialize (T _ Hn). rewrite forallb_forall in T.
  assert (Hm : In (nat_of_ascii d) (seq 0 256)) by (apply in_seq; lia).
  specialize (T _ Hm). rewrite !ascii_nat_embedding in T.
  apply Bool.eqb_prop in T. exact T.
Qed.

Lemma same_point_high c x : c < 128 -> 128 <= x -> same_point c x = false.
Proof.
  intros Hc Hx. unfold same_point.
  replace (c =? x) with false by (symmetry; apply Z.eqb_neq; lia).
  replace (x <? 128) with false by (symmetry; apply Z.ltb_ge; lia).
  now rewrite andb_false_r.
Qed.

Lemma like_points_percent rest text :
  like_points (37 :: rest) text
  = like_points rest text || match text with
                             | [] => false
                             | _ :: text' => like_points (37 :: rest) text'
                             end.
Proof. destruct text; reflexivity. Qed.

Lemma like_points_percent_only text : like_points [37] text = true.
Proof.
  induction text as [|d t IH]; [reflexivity|].
  rewrite like_points_percent. cbn [like_points orb]. exact IH.
Qed.

Lemma like_points_literal c rest d text :
  c <> 37 -> c <> 95 ->
  like_points (c :: rest) (d :: text) = same_point c d && like_points rest text.
Proof.
  intros H1 H2. cbn [like_points].
  replace (c =? 37) with false by (symmetry; now apply Z.eqb_neq).
  replace (c =? 95) with false by (symmetry; now apply Z.eqb_neq).
  reflexivity.
Qed.

Lemma like_points_literal_nil c rest : c <> 37 -> like_points (c :: rest) [] = false.
Proof.
  intros H. cbn [like_points].
  replace (c =? 37) with false by (symmetry; now apply Z.eqb_neq). reflexivity.
Qed.


(** *** Comparing characters *)

Lemma lower_high a : 128 <= code a -> lower a = a.
Proof.
  intros Ha.
  assert (T : forallb (fun n => (Z.of_nat n <? 128) ||
                                (lower (ascii_of_nat n) =? ascii_of_nat n)%char)
                      (seq 0 256) = true) by (vm_compute; reflexivity).
  rewrite forallb_forall in T.
  pose proof (nat_ascii_bounded a) as Hb.
  specialize (T (nat_of_ascii a) ltac:(apply in_seq; lia)).
  rewrite ascii_nat_embedding in T. apply orb_true_iff in T.
  destruct T as [T|T]; [apply Z.ltb_lt in T; unfold code in Ha; lia|].
  now apply Ascii.eqb_eq.
Qed.

Lemma same_point_high_l x y : 128 <= x -> same_point x y = (x =? y).
Proof.
  intros Hx. unfold same_point.
  replace (x <? 128) with false by (symmetry; apply Z.ltb_ge; lia).
  now rewrite orb_false_r.
Qed.

Lemma ascii_eqb_code a b : (a =? b)%char = (code a =? code b).
Proof.
  destruct (Ascii.eqb_spec a b) as [->|H]; [now rewrite Z.eqb_refl|].
  symmetry. apply Z.eqb_neq. intros E. apply H. now apply code_inj.
Qed.

Ltac byte_facts :=
  repeat match goal with
         | H : three_bytes _ _ _ = true |- _ => apply three_bytes_spec in H
         | H : four_bytes _ _ _ _ = true |- _ => apply four_bytes_spec in H
         | H : continuation _ = true |- _ => apply continuation_spec in H
         | H : _ /\ _ |- _ => destruct H
         end.

Lemma encoded_point ch :
  encoded ch ->
  (exists a, ch = String a EmptyString /\ point ch = code a /\ code a < 128) \/
  (128 <= point ch /\
   match ch with
   | String a _ => 194 <= code a
   | EmptyString => False
   end).
Proof.
  destruct 1; cbn [point]; byte_facts; [left; eauto|right..]; split; lia.
Qed.

Lemma lower_low a : code a < 128 -> code (lower a) < 128.
Proof.
  intros Ha.
  assert (T : forallb (fun n => code (lower (ascii_of_nat n)) <? 128) (seq 0 128) = true)
    by (vm_compute; reflexivity).
  rewrite forallb_forall in T.
  specialize (T (nat_of_ascii a) ltac:(apply in_seq; unfold code in Ha; lia)).
  rewrite ascii_nat_embedding in T. now apply Z.ltb_lt.
Qed.

Lemma same_point_high_r x y : 128 <= y -> same_point x y = (x =? y).
Proof.
  intros Hy. unfold same_point.
  replace (y <? 128) with false by (symmetry; apply Z.ltb_ge; lia).
  now rewrite andb_false_r, orb_false_r.
Qed.

(** A character of the query against a character of the text: LIKE compares
    the characters, the specification their bytes. *)
Lemma chunk_step c1 c2 q t :
  encoded c1 -> encoded c2 ->
  starts_with_ci (c1 ++ q) (c2 ++ t)
  = same_point (point c1) (point c2) && starts_with_ci q t.
Proof.
  intros H1 H2.
  destruct H1 as [a Ha|a a1 Ha Hc|a a1 a2 Ha Hc|a a1 a2 a3 Ha Hc];
    destruct H2 as [b Hb|b b1 Hb Hd|b b1 b2 Hb Hd|b b1 b2 b3 Hb Hd];
    cbn [append starts_with_ci point]; byte_facts;
    try (rewrite (same_point_lower a b) by lia; reflexivity);
    try (pose proof (lower_low a ltac:(lia)));
    try (pose proof (lower_low b ltac:(lia)));
    try (rewrite (lower_high a) by lia);
    try (rewrite (lower_high a1) by lia);
    try (rewrite (lower_high a2) by lia);
    try (rewrite (lower_high a3) by lia);
    try (rewrite (lower_high b) by lia);
    try (rewrite (lower_high b1) by lia);
    try (rewrite (lower_high b2) by lia);
    try (rewrite (lower_high b3) by lia);
    first [rewrite same_point_high_l by lia | rewrite same_point_high_r by lia];
    rewrite ?ascii_eqb_code;
    repeat match goal with
           | |- context [?x =? ?y] => destruct (Z.eqb_spec x y); cbn [andb]
           end;
    try reflexivity; lia.
Qed.

(** *** Matching *)

Lemma append_assoc (a b c : string) : ((a ++ b) ++ c = a ++ (b ++ c))%string.
Proof. induction a as [|x a IH]; cbn; [reflexivity|]. now rewrite IH. Qed.

Lemma no_special_app s t : no_special (s ++ t) = no_special s && no_special t.
Proof.
  induction s as [|c s IH]; cbn [append no_special]; [reflexivity|].
  rewrite IH. now rewrite !andb_assoc.
Qed.

Lemma no_special_point ch :
  encoded ch -> no_special ch = true ->
  point ch <> 0 /\ point ch <> 37 /\ point ch <> 95.
Proof.
  intros Hch Hn. destruct (encoded_point ch Hch) as [(a & -> & -> & _)|[H _]]; [|lia].
  cbn [no_special] in Hn. rewrite !andb_true_iff, !negb_true_iff, !Z.eqb_neq in Hn. tauto.
Qed.

Lemma up_to_nul_encoded ch t :
  encoded ch -> point ch <> 0 -> up_to_nul (ch ++ t) = (ch ++ up_to_nul t)%string.
Proof.
  intros Hch Hz. destruct Hch; cbn [append up_to_nul point] in *; byte_facts;
    repeat match goal with
           | |- context [code ?a =? 0] =>
               replace (code a =? 0) with false by (symmetry; apply Z.eqb_neq; lia)
           end; reflexivity.
Qed.

Lemma encoded_zero ch : encoded ch -> point ch = 0 -> exists a, ch = String a "" /\ code a = 0.
Proof.
  intros Hch Hz. destruct (encoded_point ch Hch) as [(a & -> & E & _)|[H _]]; [|lia].
  exists a. split; [reflexivity|]. congruence.
Qed.

Lemma starts_with_ci_continuation ch q x t :
  encoded ch -> continuation (code x) = true ->
  starts_with_ci (ch ++ q) (String x t) = false.
Proof.
  intros Hch Hx. apply continuation_spec in Hx.
  destruct Hch as [a Ha|a a1 Ha _|a a1 a2 Ha _|a a1 a2 a3 Ha _];
    cbn [append starts_with_ci].
  - rewrite <- same_point_lower by lia. rewrite same_point_high by lia. reflexivity.
  - rewrite (lower_high a), (lower_high x) by lia. rewrite ascii_eqb_code.
    replace (code a =? code x) with false by (symmetry; apply Z.eqb_neq; lia). reflexivity.
  - rewrite (lower_high a), (lower_high x) by lia. rewrite ascii_eqb_code.
    replace (code a =? code x) with false by (symmetry; apply Z.eqb_neq; lia). reflexivity.
  - rewrite (lower_high a), (lower_high x) by lia. rewrite ascii_eqb_code.
    replace (code a =? code x) with false by (symmetry; apply Z.eqb_neq; lia). reflexivity.
Qed.

(** Inside a character of the text no occurrence of the query begins. *)
Lemma contains_ci_encoded ch q tch t :
  encoded ch -> encoded tch ->
  contains_ci (ch ++ q) (tch ++ t)
  = starts_with_ci (ch ++ q) (tch ++ t) || contains_ci (ch ++ q) t.
Proof.
  intros Hch Ht.
  destruct Ht as [b Hb|b b1 Hb Hd|b b1 b2 Hb Hd|b b1 b2 b3 Hb Hd];
    cbn [append]; byte_facts.
  - reflexivity.
  - cbn [contains_ci].
    rewrite (starts_with_ci_continuation ch q b1) by (assumption || (apply continuation_spec; lia)).
    reflexivity.
  - cbn [contains_ci].
    rewrite (starts_with_ci_continuation ch q b1) by (assumption || (apply continuation_spec; lia)).
    rewrite (starts_with_ci_continuation ch q b2) by (assumption || (apply continuation_spec; lia)).
    reflexivity.
  - cbn [contains_ci].
    rewrite (starts_with_ci_continuation ch q b1) by (assumption || (apply continuation_spec; lia)).
    rewrite (starts_with_ci_continuation ch q b2) by (assumption || (apply continuation_spec; lia)).
    rewrite (starts_with_ci_continuation ch q b3) by (assumption || (apply continuation_spec; lia)).
    reflexivity.
Qed.

Lemma starts_with_ci_nil ch q : encoded ch -> starts_with_ci (ch ++ q) "" = false.
Proof. destruct 1; reflexivity. Qed.

Lemma code_points_zero a t : code a = 0 -> code_points_from None (String a t) = [].
Proof. intros H. cbn [code_points_from]. now rewrite H. Qed.

Lemma up_to_nul_zero a t : code a = 0 -> up_to_nul (String a t) = "".
Proof. intros H. cbn [up_to_nul]. now rewrite H. Qed.

(** The pattern of a query [ch ++ q] followed by [%]. *)
Lemma code_points_pattern ch q :
  encoded ch -> unicode_text q = true -> no_special (ch ++ q) = true ->
  code_points_from None ((ch ++ q) ++ "%")
  = point ch :: code_points_from None (q ++ "%") /\
  point ch <> 37 /\ point ch <> 95 /\ no_special q = true.
Proof.
  intros Hch Hq Hn. rewrite no_special_app in Hn. apply andb_true_iff in Hn.
  destruct Hn as [Hc Hn]. destruct (no_special_point ch Hch Hc) as (H0 & H37 & H95).
  repeat split; try assumption.
  rewrite append_assoc. apply code_points_encoded; [assumption..|].
  apply starts_clean_app; [assumption|]. reflexivity.
Qed.

(** A query followed by [%] matches the texts that begin with it. *)
Lemma like_points_prefix_text q :
  unicode_text q = true ->
  no_special q = true ->
  forall t, unicode_text t = true ->
  like_points (code_points_from None (q ++ "%")) (code_points_from None t)
  = starts_with_ci q (up_to_nul t).
Proof.
  revert q.
  apply (unicode_text_induction
           (fun q => no_special q = true ->
                     forall t, unicode_text t = true ->
                     like_points (code_points_from None (q ++ "%"))
                                 (code_points_from None t)
                     = starts_with_ci q (up_to_nul t))).
  - intros _ t _. apply like_points_percent_only.
  - intros ch q Hch Hq IH Hn t Ht.
    destruct (code_points_pattern ch q Hch Hq Hn) as (-> & H37 & H95 & Hn').
    destruct (unicode_text_cases t Ht) as [->|(tch & t' & Htch & -> & Ht')].
    + cbn [code_points_from up_to_nul]. rewrite starts_with_ci_nil by assumption.
      now apply like_points_literal_nil.
    + destruct (Z.eq_dec (point tch) 0) as [Ez|Ez].
      * destruct (encoded_zero tch Htch Ez) as (a & -> & Ea). cbn [append].
        rewrite code_points_zero, up_to_nul_zero by assumption.
        rewrite starts_with_ci_nil by assumption.
        now apply like_points_literal_nil.
      * rewrite (code_points_encoded tch t')
          by (assumption || now apply unicode_text_clean).
        rewrite up_to_nul_encoded by assumption.
        rewrite like_points_literal by assumption.
        rewrite chunk_step by assumption. now rewrite IH.
Qed.

(** Between two [%], a query matches the texts that contain it. *)
Lemma like_points_contains_text ch q :
  encoded ch -> unicode_text q = true -> no_special (ch ++ q) = true ->
  forall t, unicode_text t = true ->
  like_points (37 :: code_points_from None ((ch ++ q) ++ "%")) (code_points_from None t)
  = contains_ci (ch ++ q) (up_to_nul t).
Proof.
  intros Hch Hq Hn.
  pose proof (like_points_prefix_text (ch ++ q) (unicode_text_app ch q Hch Hq) Hn)
    as Hprefix.
  destruct (code_points_pattern ch q Hch Hq Hn) as (E & H37 & H95 & _).
  assert (Hnil : like_points (37 :: code_points_from None ((ch ++ q) ++ "%")) [] = false).
  { rewrite like_points_percent, E. now rewrite like_points_literal_nil. }
  apply (unicode_text_induction
           (fun t => like_points (37 :: code_points_from None ((ch ++ q) ++ "%"))
                                 (code_points_from None t)
                     = contains_ci (ch ++ q) (up_to_nul t))).
  - cbn [code_points_from up_to_nul contains_ci]. rewrite starts_with_ci_nil by assumption.
    exact Hnil.
  - intros tch t Htch Ht IH. destruct (Z.eq_dec (point tch) 0) as [Ez|Ez].
    + destruct (encoded_zero tch Htch Ez) as (a & -> & Ea). cbn [append].
      rewrite code_points_zero, up_to_nul_zero by assumption.
      cbn [contains_ci]. rewrite starts_with_ci_nil by assumption. exact Hnil.
    + pose proof (Hprefix (tch ++ t)%string (unicode_text_app tch t Htch Ht)) as Hp.
      rewrite (code_points_encoded tch t) in *
        by (assumption || now apply unicode_text_clean).
      rewrite (up_to_nul_encoded tch t) in * by assumption.
      rewrite like_points_percent, IH.
      rewrite contains_ci_encoded by assumption. now rewrite Hp.
Qed.

(** What LIKE decides for the pattern of [searchVideos], on a plain query
    and a text that is Unicode text. *)
Lemma like_contains query text :
  plain query = true -> unicode_text text = true ->
  like ("%" ++ query ++ "%") text = contains_ci query (up_to_nul text).
Proof.
  unfold plain. rewrite andb_true_iff. intros [Hq Hn] Ht. unfold like, code_points.
  change ("%" ++ query ++ "%")%string with (String "%" (query ++ "%")).
  assert (E : forall s, code_points_from None (String "%" s)
                        = 37 :: code_points_from None s) by reflexivity.
  rewrite E.
  destruct (unicode_text_cases query Hq) as [->|(ch & q & Hch & -> & Hq')].
  - cbn [append]. change (code_points_from None "%") with [37].
    rewrite like_points_percent, like_points_percent_only.
    destruct (up_to_nul text); reflexivity.
  - now apply like_points_contains_text.
Qed.

(** *** The join with the modules *)

Lemma In_left_join_module st v r :
  In r (left_join_module (modules st) v) <-> sr_video r = v /\ joined_with_module st r.
Proof.
  unfold left_join_module, joined_with_module.
  set (p := fun m => match v_module_id v with
                     | Some i => i =? m_id m
                     | None => false
                     end).
  assert (Hp : forall m, p m = true <-> v_module_id v = Some (m_id m)).
  { intros m. unfold p. destruct (v_module_id v) as [i|]; [|split; discriminate].
    rewrite Z.eqb_eq. split; congruence. }
  destruct r as [rv rn]. cbn.
  destruct (filter p (modules st)) as [|m0 ms] eqn:Ef.
  - cbn. split.
    + intros [H|[]]. inversion H; subst. split; [reflexivity|].
      intros m Hin Hm. apply Hp in Hm.
      assert (In m (filter p (modules st))) by (apply filter_In; auto).
      rewrite Ef in *. contradiction.
    + intros [-> H]. destruct rn as [name|].
      * destruct H as (m & Hin & Hm & _). apply Hp in Hm.
        assert (In m (filter p (modules st))) by (apply filter_In; auto).
        rewrite Ef in *. contradiction.
      * now left.
  - change (In (mkSearchRow rv rn)
               (map (fun m => mkSearchRow v (Some (m_name m))) (m0 :: ms)) <->
            rv = v /\
            match rn with
            | Some name =>
                exists m, In m (modules st) /\ v_module_id rv = Some (m_id m) /\
                          m_name m = name
            | None => forall m, In m (modules st) -> v_module_id rv <> Some (m_id m)
            end).
    rewrite <- Ef. rewrite in_map_iff. split.
    + intros (m & E & Hin). inversion E; subst. apply filter_In in Hin.
      destruct Hin as [Hin Hm]. apply Hp in Hm. split; [reflexivity|]. eauto.
    + intros [-> H]. destruct rn as [name|].
      * destruct H as (m & Hin & Hm & <-). exists m. split; [reflexivity|].
        apply filter_In. split; [assumption|]. now apply Hp.
      * exfalso. assert (Hin : In m0 (filter p (modules st))) by (rewrite Ef; now left).
        apply filter_In in Hin. destruct Hin as [Hin Hm]. apply Hp in Hm.
        exact (H m0 Hin Hm).
Qed.

Lemma filter_by_key_single (ms : list module_row) i :
  NoDup (map m_id ms) ->
  filter (fun m => i =? m_id m) ms = [] \/ exists m, filter (fun m => i =? m_id m) ms = [m].
Proof.
  induction ms as [|m ms IH]; cbn; [now left|]. intros H. inversion H as [|x l Hx Hl]; subst.
  destruct (Z.eqb_spec i (m_id m)) as [E|E]; [|auto].
  right. exists m. f_equal.
  destruct (filter (fun m0 => i =? m_id m0) ms) as [|m' l'] eqn:Ef; [reflexivity|].
  exfalso. assert (Hin : In m' (filter (fun m0 => i =? m_id m0) ms)) by (rewrite Ef; now left).
  apply filter_In in Hin. destruct Hin as [Hin E']. apply Z.eqb_eq in E'.
  apply Hx. apply in_map_iff. exists m'. split; [congruence|assumption].
Qed.

Lemma left_join_module_single ms v :
  NoDup (map m_id ms) -> exists name, left_join_module ms v = [mkSearchRow v name].
Proof.
  intros Hnd. unfold left_join_module.
  destruct (v_module_id v) as [i|].
  - destruct (filter_by_key_single ms i Hnd) as [->|(m & ->)]; eexists; reflexivity.
  - replace (filter (fun _ : module_row => false) ms) with (@nil module_row).
    + eexists; reflexivity.
    + induction ms as [|m l IH]; cbn; [reflexivity|]. inversion Hnd; auto.
Qed.

Lemma joined_rows_ids ms vs :
  NoDup (map m_id ms) ->
  map (fun r => v_id (sr_video r)) (flat_map (left_join_module ms) vs) = map v_id vs.
Proof.
  intros Hnd. induction vs as [|v vs IH]; cbn; [reflexivity|].
  destruct (left_join_module_single ms v Hnd) as (name & ->). cbn. now rewrite IH.
Qed.

(** C2, as the code has it.  For a plain query (Unicode text without the
    zero character, the wildcards [%] and [_], U+FFFE and U+FFFF) of at
    most 49998 bytes, [searchVideos] only reads the store and returns,
    among the videos whose title and file name are Unicode text without
    U+FFFE and U+FFFF, exactly those whose title or file name, read up to a
    zero character, contains the query up to the case of the ASCII letters,
    each joined with its module name; in a store the operations lead to no
    video comes twice; when nothing matches the result is the empty list.
    The empty query matches every video in [searchVideos]; it is the search
    route that answers an empty or absent query with the empty list, and
    hands any other query on. *)
Theorem searchVideos_spec query st :
  plain query = true ->
  Z.of_nat (String.length query) <= 49998 ->
  exists rows,
    searchVideos query st = (Ok rows, st) /\
    (forall r,
        unicode_text (v_title (sr_video r)) = true ->
        unicode_text (v_filename (sr_video r)) = true ->
        (In r rows <->
         In (sr_video r) (videos st) /\ joined_with_module st r /\
         (occurs_ci query (up_to_nul (v_title (sr_video r))) \/
          occurs_ci query (up_to_nul (v_filename (sr_video r)))))) /\
    (reachable st -> NoDup (map (fun r => v_id (sr_video r)) rows)) /\
    ((forall v, In v (videos st) ->
                unicode_text (v_title v) = true /\ unicode_text (v_filename v) = true /\
                ~ occurs_ci query (up_to_nul (v_title v)) /\
                ~ occurs_ci query (up_to_nul (v_filename v))) ->
     rows = []) /\
    (query = "" ->
     forall r, In r rows <-> In (sr_video r) (videos st) /\ joined_with_module st r) /\
    Server.search (Some "") st = (Ok [], st) /\
    Server.search None st = (Ok [], st) /\
    (query <> "" -> Server.search (Some query) st = (Ok rows, st)).
Proof.
  intros Hq Hlen.
  set (rows := sort (fun a b => order_leb (sr_video a) (sr_video b))
                 (filter (fun r => like ("%" ++ query ++ "%") (v_title (sr_video r)) ||
                                   like ("%" ++ query ++ "%") (v_filename (sr_video r)))
                         (flat_map (left_join_module (modules st)) (videos st)))).
  assert (Hrun : searchVideos query st = (Ok rows, st)).
  { unfold searchVideos. destruct (videos st) as [|v vs] eqn:Ev; [reflexivity|].
    replace (max_like_pattern_length <? Z.of_nat (String.length ("%" ++ query ++ "%")))
      with false; [reflexivity|].
    symmetry. apply Z.ltb_ge. rewrite searchTerm_length.
    unfold max_like_pattern_length. lia. }
  exists rows. split; [exact Hrun|].
  assert (Hraw : forall r,
             In r rows <->
             (In (sr_video r) (videos st) /\ joined_with_module st r) /\
             like ("%" ++ query ++ "%") (v_title (sr_video r)) ||
             like ("%" ++ query ++ "%") (v_filename (sr_video r)) = true).
  { intros r. unfold rows. rewrite sort_In, filter_In, in_flat_map. split.
    - intros [(v & Hv & Hr) Hm]. apply In_left_join_module in Hr.
      destruct Hr as [<- Hj]. auto.
    - intros [[Hv Hj] Hm]. split; [|assumption].
      exists (sr_video r). split; [assumption|]. now apply In_left_join_module. }
  assert (Hin : forall r,
             unicode_text (v_title (sr_video r)) = true ->
             unicode_text (v_filename (sr_video r)) = true ->
             (In r rows <->
              In (sr_video r) (videos st) /\ joined_with_module st r /\
              (occurs_ci query (up_to_nul (v_title (sr_video r))) \/
               occurs_ci query (up_to_nul (v_filename (sr_video r)))))).
  { intros r Ht Hf. rewrite Hraw, orb_true_iff.
    rewrite !like_contains by assumption. rewrite !contains_ci_spec. tauto. }
  split; [exact Hin|]. split; [|split; [|split; [|split; [|split]]]].
  - intros Hr. destruct (reachable_schema st Hr).
    eapply Permutation_NoDup.
    + apply Permutation_map. symmetry. apply sort_perm.
    + apply NoDup_map_filter. now rewrite joined_rows_ids.
  - intros Hnone. destruct rows as [|r rows'] eqn:E; [reflexivity|].
    assert (Hr : In r (r :: rows')) by now left.
    pose proof (proj1 (Hraw r) Hr) as [[Hv _] _].
    destruct (Hnone _ Hv) as (Ht & Hf & Hn1 & Hn2).
    apply (Hin r Ht Hf) in Hr. tauto.
  - intros -> r. rewrite Hraw. split; [tauto|]. intros Hj. split; [assumption|].
    assert (E : forall t, like ("%" ++ "" ++ "%") t = true).
    { intros t. unfold like. change (code_points ("%" ++ "" ++ "%")) with [37; 37].
      rewrite like_points_percent, like_points_percent_only. reflexivity. }
    now rewrite E.
  - reflexivity.
  - reflexivity.
  - intros Hne. destruct query; [contradiction|exact Hrun].
Qed.

Lemma searchVideos_spec_witness :
  plain "test" = true /\
  Z.of_nat (String.length "test") <= 49998 /\
  exists rows r,
    searchVideos "test" test_store = (Ok rows, test_store) /\
    unicode_text (v_title (sr_video r)) = true /\
    unicode_text (v_filename (sr_video r)) = true /\
    In r rows /\
    occurs_ci "test" (up_to_nul (v_title (sr_video r))).
Proof.
  assert (Hl : Z.of_nat (String.length "test") <= 49998) by (cbn; lia).
  split; [reflexivity|]. split; [exact Hl|].
  destruct (searchVideos_spec "test" test_store eq_refl Hl) as (rows & Hs & Hin & _).
  exists rows.
  exists (mkSearchRow (mkVideo 1 "/course/01. Test Video.mp4" "01. Test Video.mp4"
                               "01. Test Video" zero zero Unwatched None 1 0 0) None).
  assert (Ho : occurs_ci "test" (up_to_nul "01. Test Video")).
  { exists "01. ", "Test", " Video". split; reflexivity. }
  split; [exact Hs|]. split; [reflexivity|]. split; [reflexivity|]. split; [|exact Ho].
  apply Hin; [reflexivity|reflexivity|]. split; [now left|]. split; [|now left].
  intros m [].
Defined.

(** C2 as stated fails on [searchVideos].  On the store with the one video
    "01. Test Video.mp4": the empty query returns that video rather than
    nothing; the queries "_" and "%" return it although neither its title
    nor its file name contains an underscore or a percent sign; so does the
    query of one zero character, at which the engine ends the pattern; and
    a query of 49999 letters, which matches nothing, is answered with an
    error of the engine.  On the store with the one video whose title
    begins with the upper case letter U+00C9, the query that begins with
    the lower case letter U+00E9 and is the title otherwise finds nothing:
    LIKE folds the case of the ASCII letters only.  And on the store with
    the one video whose title is the character U+FFFE, the query U+FFFF
    finds it: the engine reads both as U+FFFD. *)
Lemma searchVideos_counterexample :
  (exists r, fst (searchVideos "" test_store) = Ok [r] /\
             v_filename (sr_video r) = "01. Test Video.mp4") /\
  (exists r, fst (searchVideos "_" test_store) = Ok [r] /\
             v_title (sr_video r) = "01. Test Video" /\
             v_filename (sr_video r) = "01. Test Video.mp4" /\
             contains_ci "_" (v_title (sr_video r)) = false /\
             contains_ci "_" (v_filename (sr_video r)) = false) /\
  (exists r, fst (searchVideos "%" test_store) = Ok [r] /\
             contains_ci "%" (v_title (sr_video r)) = false /\
             contains_ci "%" (v_filename (sr_video r)) = false) /\
  (exists r, fst (searchVideos (String (ascii_of_nat 0) "") test_store) = Ok [r] /\
             contains_ci (String (ascii_of_nat 0) "") (v_title (sr_video r)) = false /\
             contains_ci (String (ascii_of_nat 0) "") (v_filename (sr_video r)) = false) /\
  fst (searchVideos (repeat_char "a" (Z.to_nat 49999)) test_store)
  = Throw (SqliteError "LIKE or GLOB pattern too complex") /\
  (exists v, videos accent_store = [v] /\
             v_title v = (E_acute_upper ++ "te")%string /\
             fst (searchVideos (E_acute_lower ++ "te") accent_store) = Ok []) /\
  (exists r, fst (searchVideos U_FFFF U_FFFE_store) = Ok [r] /\
             v_title (sr_video r) = U_FFFE /\
             v_filename (sr_video r) = (U_FFFE ++ ".mp4")%string /\
             contains_ci U_FFFF (v_title (sr_video r)) = false /\
             contains_ci U_FFFF (v_filename (sr_video r)) = false).
Proof.
  split; [eexists; repeat split; reflexivity|].
  split; [eexists; repeat split; reflexivity|].
  split; [eexists; repeat split; reflexivity|].
  split; [eexists; repeat split; reflexivity|].
  split; [vm_compute; reflexivity|].
  split; eexists; repeat split; reflexivity.
Qed.

(** * Further properties of the services *)

(** X1.  In every store the operations lead to, the keys of the schema are
    unique without the engine having to refuse anything: video ids and
    paths, module ids and paths, note ids, and the video reference of the
    notes (at most one notes row per video). *)
Theorem reachable_keys_unique st :
  reachable st ->
  NoDup (map v_id (videos st)) /\ NoDup (map v_path (videos st)) /\
  NoDup (map m_id (modules st)) /\ NoDup (map m_path (modules st)) /\
  NoDup (map n_id (notes st)) /\ NoDup (map n_video_id (notes st)).
Proof. intros H. destruct (reachable_schema st H). auto 10. Qed.

Lemma reachable_keys_unique_witness :
  reachable course_store /\
  NoDup (map v_id (videos course_store)) /\ NoDup (map v_path (videos course_store)).
Proof.
  assert (H : reachable course_store).
  { apply (reachable_step empty); [constructor|].
    exact (step_scan 0 "/course" course_tree empty). }
  split; [exact H|].
  destruct (reachable_keys_unique course_store H) as (H1 & H2 & _). auto.
Defined.

(** X2.  In every store the operations lead to, the references hold: the
    module a video refers to exists, and the video a notes row refers to
    exists. *)
Theorem reachable_references_exist st :
  reachable st ->
  (forall v m, In v (videos st) -> v_module_id v = Some m ->
               exists r, In r (modules st) /\ m_id r = m) /\
  (forall n, In n (notes st) -> exists v, In v (videos st) /\ v_id v = n_video_id n).
Proof. intros H. destruct (reachable_schema st H). auto. Qed.

Lemma reachable_references_exist_witness :
  reachable course_store /\
  forall v m, In v (videos course_store) -> v_module_id v = Some m ->
              exists r, In r (modules course_store) /\ m_id r = m.
Proof.
  assert (H : reachable course_store).
  { apply (reachable_step empty); [constructor|].
    exact (step_scan 0 "/course" course_tree empty). }
  split; [exact H|]. exact (proj1 (reachable_references_exist course_store H)).
Defined.

(** ** How the services fail *)

Lemma updateStatus_cases now videoId text st :
  (parse_status text = None /\
   exists message, updateStatus now videoId text st = (Throw (ValidationError message), st)) \/
  (exists status, parse_status text = Some status /\
                  find (fun v => v_id v =? videoId) (videos st) = None /\
                  updateStatus now videoId text st = (Throw (NotFoundError videoId), st)) \/
  (exists status video v' st',
      parse_status text = Some status /\
      find (fun v => v_id v =? videoId) (videos st) = Some video /\
      updateStatus now videoId text st = (Ok (Some v'), st')).
Proof.
  destruct (parse_status text) as [status|] eqn:Hp.
  - destruct (find (fun v => v_id v =? videoId) (videos st)) as [video|] eqn:Hf.
    + right. right. exists status, video. do 2 eexists. split; [reflexivity|].
      split; [reflexivity|].
      exact (updateStatus_found now videoId text status st video Hp Hf).
    + right. left. exists status. split; [reflexivity|]. split; [reflexivity|].
      unfold updateStatus, bind, get_video, throw. now rewrite Hp, Hf.
  - left. split; [reflexivity|]. eexists. unfold updateStatus, throw. now rewrite Hp.
Qed.

(** X3.  A service call that fails leaves the store exactly as it was, and
    fails with an error of the service's own, for arguments of these types:
    any value as position, a number or nothing as duration, strings as
    status, content and query, the content of at most a million bytes (a
    duration or a content of another type, which the binding refuses, is
    not part of the embedding).  scanVideos and deleteNotes never throw;
    updatePosition and updateStatus throw a ValidationError or the
    NotFoundError of the video; getProgress, getVideoById,
    getAdjacentVideos, getNotes and saveNotes throw only that
    NotFoundError; the middleware answers these errors with 400 and 404.
    searchVideos throws nothing but an error of the engine, and only for a
    query of more than 49998 bytes; such an error carries no status code,
    and the middleware answers it with 500. *)
Theorem services_fail_cleanly now videoId :
  (forall coursePath tree, fails_only_with (scanVideos now coursePath tree) (fun _ => False)) /\
  (forall (position : argument) duration,
      fails_only_with (updatePosition now videoId position duration)
                      (fun e => is_validation e \/ is_not_found videoId e)) /\
  (forall status,
      fails_only_with (updateStatus now videoId status)
                      (fun e => is_validation e \/ is_not_found videoId e)) /\
  fails_only_with (getProgress videoId) (is_not_found videoId) /\
  fails_only_with (getVideoById videoId) (is_not_found videoId) /\
  fails_only_with (getAdjacentVideos videoId) (is_not_found videoId) /\
  fails_only_with (getNotes videoId) (is_not_found videoId) /\
  (forall content,
      Z.of_nat (String.length content) <= 1000000 ->
      fails_only_with (saveNotes now videoId content) (is_not_found videoId)) /\
  fails_only_with (deleteNotes videoId) (fun _ => False) /\
  (forall query,
      fails_only_with (searchVideos query)
                      (fun e => (exists message, e = SqliteError message) /\
                                49998 < Z.of_nat (String.length query))) /\
  (forall e, is_validation e -> Server.errorStatus e = 400) /\
  (forall e, is_not_found videoId e -> Server.errorStatus e = 404) /\
  (forall message, Server.errorStatus (SqliteError message) = 500).
Proof.
  unfold fails_only_with, is_not_found, is_validation. conjuncts.
  - intros cp tree st e st' H.
    destruct (scanVideos_ok now cp tree st) as (c & s & _ & E). congruence.
  - intros [p|] d st e st' H.
    + destruct (ltb p zero) eqn:Hg.
      * rewrite updatePosition_rejected in H by assumption. inversion H; subst. eauto.
      * destruct (find (fun v => v_id v =? videoId) (videos st)) as [video|] eqn:Hf.
        -- rewrite (updatePosition_found _ _ _ _ _ _ Hg Hf) in H. discriminate.
        -- rewrite updatePosition_not_found in H by assumption. inversion H; subst. auto.
    + rewrite updatePosition_not_a_number in H. inversion H; subst. eauto.
  - intros s st e st' H.
    destruct (updateStatus_cases now videoId s st)
      as [(_ & m & E)|[(x & _ & _ & E)|(x & v & v' & s' & _ & _ & E)]];
      rewrite E in H; inversion H; subst; eauto.
  - intros st e st'. unfold getProgress, bind, get_video, throw, ret.
    destruct (find _ (videos st)); intros H; inversion H; subst; auto.
  - intros st e st'. unfold getVideoById, bind, get_video, throw, ret.
    destruct (find _ (videos st)); intros H; inversion H; subst; auto.
  - intros st e st'. unfold getAdjacentVideos, getVideoById, bind, get_video, throw, ret.
    destruct (find _ (videos st)); intros H; inversion H; subst; auto.
  - intros st e st'. unfold getNotes, bind, get_video, get_note, throw, ret.
    destruct (find _ (videos st)); [destruct (find _ (notes st))|];
      intros H; inversion H; subst; auto.
  - intros text _ st e st' H.
    destruct (find (fun v => v_id v =? videoId) (videos st)) as [v|] eqn:Ef.
    + destruct (saveNotes_ok now videoId text st) as (o & s & E & _).
      { exists v. now apply find_video_In. }
      congruence.
    + unfold saveNotes, bind, get_video, throw in H. rewrite Ef in H.
      inversion H; subst. auto.
  - intros st e st' H. discriminate.
  - intros query st e st' H. unfold searchVideos in H.
    destruct (videos st); [discriminate|].
    destruct (max_like_pattern_length <? _) eqn:E; [|discriminate].
    inversion H; subst. split; [reflexivity|]. split; [eauto|].
    apply Z.ltb_lt in E. rewrite searchTerm_length in E.
    unfold max_like_pattern_length in E. lia.
  - intros e (m & ->). reflexivity.
  - intros e ->. reflexivity.
  - reflexivity.
Qed.

Lemma parse_status_None text :
  parse_status text = None <->
  text <> "unwatched" /\ text <> "in-progress" /\ text <> "completed".
Proof.
  cbv [parse_status validStatuses find status_text].
  destruct (String.eqb_spec "unwatched" text) as [<-|H1].
  { split; [discriminate|]. intros (H & _). now contradiction H. }
  destruct (String.eqb_spec "in-progress" text) as [<-|H2].
  { split; [discriminate|]. intros (_ & H & _). now contradiction H. }
  destruct (String.eqb_spec "completed" text) as [<-|H3].
  { split; [discriminate|]. intros (_ & _ & H). now contradiction H. }
  split; [|reflexivity]. intros _. repeat split; congruence.
Qed.

(** X4.  Both progress updates validate before they look the video up:
    updatePosition throws a ValidationError exactly when the position is
    not a number or is a number below 0, and updateStatus exactly when the
    status is none of 'unwatched', 'in-progress', 'completed', whether the
    video exists or not; the NotFoundError is thrown exactly when the input
    is valid and no video has the id. *)
Theorem validation_precedes_lookup now videoId st :
  let missing := ~ exists v, In v (videos st) /\ v_id v = videoId in
  let refused (position : argument) :=
    match position with
    | Num p => ltb p zero = true
    | NotNum => True
    end in
  (forall (position : argument) duration,
      (refused position <->
       exists message,
         fst (updatePosition now videoId position duration st)
         = Throw (ValidationError message)) /\
      (~ refused position /\ missing <->
       fst (updatePosition now videoId position duration st)
       = Throw (NotFoundError videoId))) /\
  (forall text,
      (text <> "unwatched" /\ text <> "in-progress" /\ text <> "completed" <->
       exists message,
         fst (updateStatus now videoId text st) = Throw (ValidationError message)) /\
      (parse_status text <> None /\ missing <->
       fst (updateStatus now videoId text st) = Throw (NotFoundError videoId))).
Proof.
  intros missing refused. unfold missing, refused. split.
  - intros [p|] d.
    2:{ rewrite updatePosition_not_a_number. cbn. split.
        - split; [eauto|auto].
        - split; [intros [H _]; now contradiction H|discriminate]. }
    destruct (ltb p zero) eqn:Hg.
    + rewrite updatePosition_rejected by assumption. cbn. split.
      * split; [eauto|reflexivity].
      * split; [intros [H _]; now contradiction H|discriminate].
    + destruct (find (fun v => v_id v =? videoId) (videos st)) as [video|] eqn:Hf.
      * rewrite (updatePosition_found _ _ _ _ _ _ Hg Hf). cbn. split.
        -- split; [discriminate|]. intros (m & H). discriminate.
        -- split; [|discriminate]. intros [_ H]. exfalso. apply H.
           exists video. now apply find_video_In.
      * rewrite updatePosition_not_found by assumption. cbn. split.
        -- split; [discriminate|]. intros (m & H). discriminate.
        -- split; [reflexivity|]. intros _. split; [discriminate|].
           now apply find_video_None.
  - intros text. rewrite <- parse_status_None.
    destruct (updateStatus_cases now videoId text st)
      as [(Hp & m & E)|[(x & Hp & Hf & E)|(x & v & v' & s' & Hp & Hf & E)]];
      rewrite E, Hp; cbn [fst].
    + split; [split; eauto|]. split; [intros [H _]; congruence|discriminate].
    + split.
      * split; [discriminate|]. intros (m & H). discriminate.
      * split; [reflexivity|]. intros _. split; [discriminate|].
        now apply find_video_None.
    + split.
      * split; [discriminate|]. intros (m & H). discriminate.
      * split; [|discriminate]. intros [_ H]. exfalso. apply H.
        exists v. now apply find_video_In.
Qed.

(** ** What a progress update touches *)

Lemma Forall2_update_rows (R : video -> video -> Prop) (c : video -> bool)
      (f : video -> video) l :
  (forall v, c v = true -> R v (f v)) -> (forall v, c v = false -> R v v) ->
  Forall2 R l (map (fun v => if c v then f v else v) l).
Proof.
  intros Ht Hf. induction l as [|v l IH]; cbn; constructor; [|exact IH].
  destruct (c v) eqn:E; auto.
Qed.

(** X5.  A successful updatePosition or updateStatus writes one video only:
    modules and notes are as before, every row with another id is
    unchanged, and the row of the video keeps its id, path, filename, title,
    module reference, sort key and creation time, takes [now] as its update
    time and the given position as the REAL column holds it, which is the
    number itself but 0 for -0 and NULL for NaN (updatePosition), or the
    given status (updateStatus); updateStatus leaves the duration alone. *)
Theorem progress_updates_touch_one_video now videoId st :
  (forall (position : number) duration result st',
      updatePosition now videoId position duration st = (Ok result, st') ->
      modules st' = modules st /\ notes st' = notes st /\
      Forall2 (fun v w => if v_id v =? videoId
                          then keeps_identity v w /\ v_position w = stored position /\
                               v_updated_at w = now
                          else w = v) (videos st) (videos st')) /\
  (forall text status result st',
      updateStatus now videoId text st = (Ok result, st') ->
      parse_status text = Some status ->
      modules st' = modules st /\ notes st' = notes st /\
      Forall2 (fun v w => if v_id v =? videoId
                          then keeps_identity v w /\ v_status w = status /\
                               v_duration w = v_duration v /\ v_updated_at w = now
                          else w = v) (videos st) (videos st')).
Proof.
  split.
  - intros p d r st' H.
    destruct (ltb p zero) eqn:Hg;
      [rewrite updatePosition_rejected in H by assumption; discriminate|].
    destruct (find (fun v => v_id v =? videoId) (videos st)) as [video|] eqn:Hf;
      [|rewrite updatePosition_not_found in H by assumption; discriminate].
    rewrite (updatePosition_found _ _ _ _ _ _ Hg Hf) in H. inversion H; subst. cbn.
    split; [reflexivity|]. split; [reflexivity|].
    apply Forall2_update_rows with
      (R := fun v w => if v_id v =? videoId
                       then keeps_identity v w /\ v_position w = stored p /\
                            v_updated_at w = now
                       else w = v).
    + intros v ->. cbn. repeat split.
    + intros v ->. reflexivity.
  - intros text status r st' H Hp.
    destruct (find (fun v => v_id v =? videoId) (videos st)) as [video|] eqn:Hf.
    + rewrite (updateStatus_found _ _ _ _ _ _ Hp Hf) in H. inversion H; subst. cbn.
      split; [reflexivity|]. split; [reflexivity|].
      apply Forall2_update_rows with
        (R := fun v w => if v_id v =? videoId
                         then keeps_identity v w /\ v_status w = status /\
                              v_duration w = v_duration v /\ v_updated_at w = now
                         else w = v).
      * intros v ->. cbn. repeat split.
      * intros v ->. reflexivity.
    + destruct (updateStatus_throws now videoId text st) as (e & He); [auto|].
      rewrite He in H. discriminate.
Qed.

(** X6.  getProgress only reads the store.  On a video whose duration is
    not positive it reports 0 percent.  Right after a successful
    updatePosition with a positive duration it reports the position as the
    REAL column holds it (the number just given, but 0 for -0 and NULL for
    NaN), the duration just given and the status that call returned, with
    the percentage Math.round(position / duration * 100) of the position it
    reports; a NULL position reads back as null and counts as 0 there. *)
Theorem getProgress_reports_last_update now videoId (position : number) d st result st' :
  updatePosition now videoId position (Some d) st = (Ok result, st') ->
  ltb zero d = true ->
  exists video' p,
    result = Some video' /\
    getProgress videoId st' = (Ok p, st') /\
    p_position p = stored position /\ p_duration p = d /\ p_status p = v_status video' /\
    percentWatched p = round (mul (div (to_number (stored position)) d) (of_Z 100)) /\
    (forall id st0 p0, getProgress id st0 = (Ok p0, st0) ->
                       ltb zero (p_duration p0) = false -> percentWatched p0 = zero).
Proof.
  intros H Hd.
  destruct (ltb position zero) eqn:Hg;
    [rewrite updatePosition_rejected in H by assumption; discriminate|].
  destruct (find (fun v => v_id v =? videoId) (videos st)) as [video|] eqn:Hf;
    [|rewrite updatePosition_not_found in H by assumption; discriminate].
  rewrite (updatePosition_found _ _ _ _ _ _ Hg Hf) in H. inversion H; subst. clear H.
  assert (Ed : coalesce (option_map stored (bind_number (Some d))) (v_duration video) = d).
  { destruct d as [[|]|[|]| |[|] m e]; cbn in Hd; try discriminate; reflexivity. }
  do 2 eexists. split; [reflexivity|].
  unfold getProgress, bind, get_video, ret. cbn.
  rewrite find_update_video by reflexivity. rewrite Hf. cbn. cbn in Ed. rewrite !Ed, Hd.
  split; [reflexivity|]. do 4 (split; [reflexivity|]).
  intros id st0 p0. unfold getProgress, bind, get_video, throw, ret.
  destruct (find _ (videos st0)) as [v0|]; [|discriminate].
  intros E. inversion E; subst. cbn. intros ->. reflexivity.
Qed.

Lemma getProgress_reports_last_update_witness :
  exists p st',
    getProgress 1 st' = (Ok p, st') /\
    p_position p = of_Z 300 /\ p_duration p = of_Z 600 /\ percentWatched p = of_Z 50.
Proof.
  assert (H : exists result st',
             updatePosition 1 1 (of_Z 300) (Some (of_Z 600)) test_store = (Ok result, st'))
    by (vm_compute; eauto).
  destruct H as (result & st' & H).
  destruct (getProgress_reports_last_update 1 1 (of_Z 300) (of_Z 600) test_store
              result st' H eq_refl)
    as (video' & p & _ & Hp & H1 & H2 & _ & H4 & _).
  exists p, st'. split; [exact Hp|]. split; [exact H1|]. split; [exact H2|].
  rewrite H4. vm_compute. reflexivity.
Defined.

(** ** The watch lifecycle while the duration is unknown *)

Lemma newStatus_unknown_duration_rank position video :
  ltb zero (v_duration video) = false ->
  rank (v_status video) <= rank (newStatus position None video).
Proof.
  intros Hd. unfold newStatus, videoDuration, or_else. rewrite Hd.
  destruct (ltb zero position && status_eqb (v_status video) Unwatched) eqn:E; [|lia].
  apply andb_prop in E. destruct E as [_ E]. apply status_eqb_eq in E.
  rewrite E. cbn. lia.
Qed.

(** X7.  As long as no duration is stored or reported, position reports
    never move a video backwards in Unwatched -> In Progress -> Completed:
    after any sequence of updatePosition calls without a duration on a video
    whose stored duration is not positive, the video is still there, its
    status ranks at least as high as before, and its duration is as it
    was. *)
Theorem status_never_regresses_without_duration videoId reports : forall st video,
  find (fun v => v_id v =? videoId) (videos st) = Some video ->
  ltb zero (v_duration video) = false ->
  exists video',
    find (fun v => v_id v =? videoId) (videos (report_positions videoId reports st))
    = Some video' /\
    rank (v_status video) <= rank (v_status video') /\
    v_duration video' = v_duration video.
Proof.
  unfold report_positions.
  induction reports as [|[now position] reports IH]; intros st video Hf Hd; cbn [fold_left].
  - exists video. split; [assumption|]. split; [lia|reflexivity].
  - cbn [fst snd].
    destruct (updatePosition_store now videoId position None st)
      as [E|(p0 & v0 & Ep & Hg & Hf0 & E)]; rewrite E.
    + now apply IH.
    + inversion Ep; subst p0. clear Ep.
      rewrite Hf in Hf0. inversion Hf0; subst v0. clear Hf0.
      destruct (IH (set_videos
                      (map (fun v => if v_id v =? videoId
                                     then set_progress position None
                                            (newStatus position None video) now v
                                     else v) (videos st)) st)
                   (set_progress position None (newStatus position None video) now video))
        as (video' & Hf' & Hr & Hd').
      * cbn [videos set_videos]. rewrite find_update_video by reflexivity.
        rewrite Hf. reflexivity.
      * exact Hd.
      * exists video'. split; [exact Hf'|]. split; [|exact Hd'].
        cbn [v_status set_progress] in Hr.
        pose proof (newStatus_unknown_duration_rank position video Hd). lia.
Qed.

Lemma status_never_regresses_without_duration_witness :
  exists video',
    find (fun v => v_id v =? 1)
         (videos (report_positions 1 [(5, of_Z 30); (6, of_Z 0); (7, of_Z 12)] test_store))
    = Some video' /\
    1 <= rank (v_status video').
Proof.
  assert (H : exists video, find (fun v => v_id v =? 1) (videos test_store) = Some video /\
                            ltb zero (v_duration video) = false /\
                            v_status video = Unwatched)
    by (vm_compute; eauto).
  destruct H as (video & Hf & Hd & Hs).
  destruct (status_never_regresses_without_duration 1 [(5, of_Z 30)] test_store video Hf Hd)
    as (v1 & Hf1 & _ & Hd1).
  rewrite <- Hd1 in Hd.
  destruct (status_never_regresses_without_duration 1 [(6, of_Z 0); (7, of_Z 12)]
              (report_positions 1 [(5, of_Z 30)] test_store) v1 Hf1 Hd)
    as (v2 & Hf2 & Hr & _).
  exists v2. split; [exact Hf2|].
  assert (Hs1 : v_status v1 = InProgress).
  { vm_compute in Hf1. inversion Hf1. reflexivity. }
  rewrite Hs1 in Hr. exact Hr.
Defined.

(** ** Notes *)

Lemma find_note_update videoId (f : note -> note) (l : list note) :
  (forall n, n_video_id (f n) = n_video_id n) ->
  find (fun n => n_video_id n =? videoId)
       (map (fun n => if n_video_id n =? videoId then f n else n) l)
  = option_map f (find (fun n => n_video_id n =? videoId) l).
Proof.
  intros Hid. induction l as [|n l IH]; cbn; [reflexivity|].
  destruct (n_video_id n =? videoId) eqn:E; cbn.
  - rewrite Hid, E. reflexivity.
  - rewrite E. exact IH.
Qed.

Lemma find_note_other videoId other (f : note -> note) (l : list note) :
  other <> videoId ->
  (forall n, n_video_id (f n) = n_video_id n) ->
  find (fun n => n_video_id n =? other)
       (map (fun n => if n_video_id n =? videoId then f n else n) l)
  = find (fun n => n_video_id n =? other) l.
Proof.
  intros Hne Hid. induction l as [|n l IH]; cbn; [reflexivity|].
  destruct (n_video_id n =? videoId) eqn:E; cbn.
  - rewrite Hid. apply Z.eqb_eq in E.
    destruct (n_video_id n =? other) eqn:E'; [apply Z.eqb_eq in E'; congruence|exact IH].
  - destruct (n_video_id n =? other); [reflexivity|exact IH].
Qed.

Lemma find_app_Some {A} (f : A -> bool) (l l' : list A) x :
  find f l = Some x -> find f (l ++ l') = Some x.
Proof.
  induction l as [|y l IH]; cbn; [discriminate|].
  destruct (f y); [trivial|exact IH].
Qed.

Lemma find_snoc_other {A} (f : A -> bool) (l : list A) x :
  f x = false -> find f (l ++ [x]) = find f l.
Proof.
  intros Hx. induction l as [|y l IH]; cbn; [now rewrite Hx|].
  destruct (f y); [reflexivity|exact IH].
Qed.

Lemma existsb_note_find videoId (l : list note) :
  existsb (fun n => n_video_id n =? videoId) l = true <->
  exists n, find (fun n => n_video_id n =? videoId) l = Some n.
Proof.
  induction l as [|n l IH]; cbn.
  - split; [discriminate|]. intros (n & H). discriminate.
  - destruct (n_video_id n =? videoId); cbn; [|exact IH].
    split; eauto.
Qed.

Lemma getNotes_eq videoId st :
  getNotes videoId st
  = match find (fun v => v_id v =? videoId) (videos st) with
    | Some _ =>
        (Ok match find (fun n => n_video_id n =? videoId) (notes st) with
            | Some row => Stored row
            | None => Synthesized videoId ""
            end, st)
    | None => (Throw (NotFoundError videoId), st)
    end.
Proof.
  unfold getNotes, bind, get_video, get_note, throw, ret.
  destruct (find _ (videos st)); [|reflexivity].
  destruct (find _ (notes st)); reflexivity.
Qed.

Lemma saveNotes_eq now videoId text st :
  saveNotes now videoId text st
  = match find (fun v => v_id v =? videoId) (videos st) with
    | Some _ =>
        if existsb (fun n => n_video_id n =? videoId) (notes st) then
          getNotes videoId
            (mkDb (videos st) (modules st)
                  (map (fun n => if n_video_id n =? videoId
                                 then mkNote (n_id n) (n_video_id n) text
                                             (n_created_at n) now
                                 else n) (notes st))
                  (seq_videos st) (seq_modules st)
                  (next_rowid n_id (notes st) (seq_notes st)))
        else
          getNotes videoId
            (mkDb (videos st) (modules st)
                  (notes st ++ [mkNote (next_rowid n_id (notes st) (seq_notes st))
                                       videoId text now now])
                  (seq_videos st) (seq_modules st)
                  (next_rowid n_id (notes st) (seq_notes st)))
    | None => (Throw (NotFoundError videoId), st)
    end.
Proof.
  unfold saveNotes, bind at 1, get_video.
  destruct (find (fun v => v_id v =? videoId) (videos st)) as [v|] eqn:Ef;
    [|reflexivity].
  unfold bind, upsert_note.
  destruct (existsb (fun n => n_video_id n =? videoId) (notes st)); [reflexivity|].
  assert (Hv : existsb (fun v => v_id v =? videoId) (videos st) = true).
  { apply existsb_exists. exists v. apply find_some in Ef. exact Ef. }
  rewrite Hv. reflexivity.
Qed.

(** X8.  What saveNotes returns is what getNotes reads back: after a
    successful saveNotes(videoId, content), getNotes(videoId) returns the
    same stored row, with the content just given and the time of the call as
    update time; the notes of every other video read as before; the table
    has one row more when the video had no note and the same number of rows
    when it had one (the upsert never duplicates). *)
Theorem saveNotes_then_getNotes now videoId text st o st' :
  saveNotes now videoId text st = (Ok o, st') ->
  getNotes videoId st' = (Ok o, st') /\
  (exists row, o = Stored row /\ n_video_id row = videoId /\
               n_content row = text /\ n_updated_at row = now) /\
  (forall other, other <> videoId -> fst (getNotes other st') = fst (getNotes other st)) /\
  List.length (notes st')
  = (List.length (notes st)
     + if existsb (fun n => (n_video_id n =? videoId)%Z) (notes st) then 0 else 1)%nat.
Proof.
  rewrite saveNotes_eq.
  destruct (find (fun v => v_id v =? videoId) (videos st)) as [v|] eqn:Ef;
    [|discriminate].
  destruct (existsb (fun n => n_video_id n =? videoId) (notes st)) eqn:Ex.
  - pose proof (proj1 (existsb_note_find videoId (notes st)) Ex) as (n0 & Hn0).
    rewrite getNotes_eq. cbn [videos set_notes notes].
    rewrite Ef. rewrite find_note_update by reflexivity. rewrite Hn0. cbn [option_map].
    intros H. inversion H; subst. clear H.
    rewrite getNotes_eq. cbn [videos set_notes notes].
    rewrite Ef. rewrite find_note_update by reflexivity. rewrite Hn0.
    split; [reflexivity|]. split.
    + eexists. split; [reflexivity|]. cbn. apply find_some in Hn0.
      destruct Hn0 as [_ Hn0]. apply Z.eqb_eq in Hn0. auto.
    + split.
      * intros other Hne. rewrite !getNotes_eq. cbn [videos set_notes notes].
        destruct (find (fun v => v_id v =? other) (videos st)); [|reflexivity].
        rewrite find_note_other by (auto || reflexivity). reflexivity.
      * rewrite length_map. lia.
  - assert (Hnone : find (fun n => n_video_id n =? videoId) (notes st) = None).
    { destruct (find _ (notes st)) as [n|] eqn:E; [|reflexivity].
      assert (existsb (fun n => n_video_id n =? videoId) (notes st) = true)
        by (apply existsb_note_find; eauto).
      congruence. }
    rewrite getNotes_eq. cbn [videos notes].
    rewrite Ef. rewrite (find_app_None _ _ _ Hnone). cbn [find n_video_id].
    rewrite Z.eqb_refl.
    intros H. inversion H; subst. clear H.
    rewrite getNotes_eq. cbn [videos notes].
    rewrite Ef. rewrite (find_app_None _ _ _ Hnone). cbn [find n_video_id].
    rewrite Z.eqb_refl.
    split; [reflexivity|]. split.
    + eexists. split; [reflexivity|]. cbn. auto.
    + split.
      * intros other Hne. rewrite !getNotes_eq. cbn [videos notes].
        destruct (find (fun v => v_id v =? other) (videos st)); [|reflexivity].
        rewrite find_snoc_other; [reflexivity|].
        cbn. apply Z.eqb_neq. congruence.
      * rewrite length_app. cbn. lia.
Qed.

Lemma saveNotes_then_getNotes_witness :
  exists o st',
    getNotes 1 st' = (Ok o, st') /\ content o = "Remember the second example".
Proof.
  assert (H : exists o st',
             saveNotes 9 1 "Remember the second example" test_store = (Ok o, st'))
    by (vm_compute; eauto).
  destruct H as (o & st' & H).
  destruct (saveNotes_then_getNotes 9 1 "Remember the second example" test_store o st' H)
    as (Hg & (row & -> & _ & Hc & _) & _).
  exists (Stored row), st'. split; [exact Hg|exact Hc].
Defined.

Lemma filter_idempotent {A} (f : A -> bool) (l : list A) :
  filter f (filter f l) = filter f l.
Proof.
  induction l as [|x l IH]; cbn; [reflexivity|].
  destruct (f x) eqn:E; cbn; [rewrite E, IH; reflexivity|exact IH].
Qed.

(** X9.  deleteNotes never throws and touches the notes of that video
    only: it answers true exactly when a note of the video was stored,
    leaves videos and modules alone, keeps every note of another video and
    none of this one, so that deleting again answers false and changes
    nothing, and getNotes on the video (if it exists) is back to the
    synthesized empty note. *)
Theorem deleteNotes_contract videoId st :
  exists deleted st',
    deleteNotes videoId st = (Ok deleted, st') /\
    (deleted = true <-> exists n, In n (notes st) /\ n_video_id n = videoId) /\
    videos st' = videos st /\ modules st' = modules st /\
    (forall n, In n (notes st') <-> In n (notes st) /\ n_video_id n <> videoId) /\
    deleteNotes videoId st' = (Ok false, st') /\
    (forall v, In v (videos st) -> v_id v = videoId ->
               getNotes videoId st' = (Ok (Synthesized videoId ""), st')).
Proof.
  unfold deleteNotes. do 2 eexists. split; [reflexivity|].
  cbn [videos modules notes set_notes].
  assert (Hin : forall n,
             In n (filter (fun n => negb (n_video_id n =? videoId)) (notes st)) <->
             In n (notes st) /\ n_video_id n <> videoId).
  { intros n. rewrite filter_In. rewrite negb_true_iff, Z.eqb_neq. reflexivity. }
  assert (Hno : existsb (fun n => n_video_id n =? videoId)
                        (filter (fun n => negb (n_video_id n =? videoId)) (notes st)) = false).
  { destruct (existsb _ _) eqn:E; [|reflexivity].
    apply existsb_exists in E. destruct E as (n & Hn & E).
    apply Hin in Hn. apply Z.eqb_eq in E. tauto. }
  split.
  { rewrite existsb_exists. split; intros (n & Hn & E); exists n;
      (split; [exact Hn|]); now apply Z.eqb_eq. }
  split; [reflexivity|]. split; [reflexivity|]. split; [exact Hin|]. split.
  - rewrite Hno, filter_idempotent. reflexivity.
  - intros v Hv Ev. rewrite getNotes_eq.
    cbn [videos notes set_notes].
    destruct (find (fun v => v_id v =? videoId) (videos st)) eqn:Ef.
    + assert (Hn : find (fun n => n_video_id n =? videoId)
                        (filter (fun n => negb (n_video_id n =? videoId)) (notes st)) = None).
      { apply find_note_None. intros n Hn. now apply Hin in Hn. }
      rewrite Hn. reflexivity.
    + exfalso. apply (proj1 (find_video_None videoId (videos st)) Ef). eauto.
Qed.

(** ** What a scan stores *)

Lemma reconcile_all_counts now videos_found : forall c st c' st',
  reconcile_all now videos_found c st = (Ok c', st') ->
  Z.of_nat (List.length (videos st'))
  = Z.of_nat (List.length (videos st)) + (addedCount c' - addedCount c) /\
  addedCount c <= addedCount c' /\ updatedCount c <= updatedCount c' /\
  addedCount c' + updatedCount c'
  = addedCount c + updatedCount c + Z.of_nat (List.length videos_found).
Proof.
  induction videos_found as [|f fs IH]; intros c st c' st'; cbn [reconcile_all].
  - intros H. inversion H; subst. cbn. lia.
  - unfold bind at 1.
    destruct (reconcile_step now f c st) as [(id & _ & E)|(st1 & row & _ & E & Ev & _)];
      rewrite E; intros H; apply IH in H; cbn [addedCount updatedCount videos set_videos] in H.
    + rewrite length_map in H. cbn [List.length]. lia.
    + rewrite Ev, length_app in H. cbn [List.length] in *. lia.
Qed.

(** X10.  scanVideos always succeeds, and its counts add up: total is the
    number of files found, total = added + existing with neither negative,
    the videos table has grown by exactly [added] rows, and the notes are
    as they were. *)
Theorem scanVideos_counts now coursePath tree st :
  exists result st',
    scanVideos now coursePath tree st = (Ok result, st') /\
    total result = Z.of_nat (List.length (_findVideoFiles coursePath tree)) /\
    total result = added result + existing result /\
    0 <= added result /\ 0 <= existing result /\
    Z.of_nat (List.length (videos st')) = Z.of_nat (List.length (videos st)) + added result /\
    notes st' = notes st.
Proof.
  destruct (scanVideos_ok now coursePath tree st) as (c & st' & E & Es).
  destruct (reconcile_all_counts _ _ _ _ _ _ E) as (Hl & Ha & Hu & Hs).
  destruct (reconcile_all_ok now (_findVideoFiles coursePath tree) (mkCounters 0 0) st)
    as (c0 & st0 & E0 & (olds & news & _ & _ & _ & Hn) & _).
  rewrite E in E0. inversion E0; subst c0 st0.
  do 2 eexists. split; [exact Es|]. cbn in *. conjuncts; try lia. exact Hn.
Qed.

Lemma NoDup_map_inj {A K} (key : A -> K) (l : list A) a b :
  NoDup (map key l) -> In a l -> In b l -> key a = key b -> a = b.
Proof.
  induction l as [|x l IH]; cbn; [contradiction|].
  intros H. inversion H; subst. intros [->|Ha] [->|Hb] E; auto.
  - exfalso. apply H2. rewrite E. now apply in_map.
  - exfalso. apply H2. rewrite <- E. now apply in_map.
Qed.

Lemma getOrCreateModule_Some now modulePath moduleName st m st' :
  _getOrCreateModule now modulePath moduleName st = (Ok (Some m), st') ->
  moduleName <> "Root".
Proof.
  intros H ->. unfold _getOrCreateModule in H. cbn in H. discriminate.
Qed.

Lemma inserted_for_modules now f st st' v :
  (forall m, In m (modules st) -> In m (modules st')) ->
  inserted_for now f st v -> inserted_for now f st' v.
Proof.
  intros Hm (H1 & H2 & H3 & H4 & H5 & H6 & H7).
  unfold inserted_for. conjuncts; try assumption.
  destruct (v_module_id v) as [m|]; [|assumption].
  destruct H7 as (Hr & r & Hin & E). split; [assumption|]. exists r. auto.
Qed.

Lemma existsb_path_In p (l : list video) :
  existsb (fun v => v_path v =? p)%string l = true <-> In p (map v_path l).
Proof.
  rewrite existsb_exists, in_map_iff.
  split; intros (v & H1 & H2); exists v.
  - apply String.eqb_eq in H2. auto.
  - split; [tauto|]. apply String.eqb_eq. tauto.
Qed.

(** One turn of the loop of scanVideos, row by row. *)
Lemma reconcile_rows now f c st c' st' :
  schema_holds st -> reconcile now f c st = (Ok c', st') ->
  schema_holds st' /\
  (forall m, In m (modules st) -> In m (modules st')) /\
  (forall v, In v (videos st) -> v_path v <> path f -> In v (videos st')) /\
  (forall p, In p (map v_path (videos st')) <-> In p (map v_path (videos st)) \/ p = path f) /\
  (exists v, In v (videos st') /\ v_path v = path f /\ v_title v = title f /\
             (~ In (path f) (map v_path (videos st)) -> inserted_for now f st' v)) /\
  addedCount c'
  = addedCount c
    + if existsb (fun v => v_path v =? path f)%string (videos st) then 0 else 1.
Proof.
  intros Hs H. split; [eapply reconcile_schema; eassumption|].
  rewrite reconcile_eq in H.
  destruct (find (fun v => v_path v =? path f)%string (videos st)) as [v0|] eqn:Ef.
  - inversion H; subst. clear H. cbn [modules videos set_videos addedCount].
    pose proof (find_some _ _ Ef) as [Hin0 Hp0]. apply String.eqb_eq in Hp0.
    assert (Hx : existsb (fun v => v_path v =? path f)%string (videos st) = true).
    { apply existsb_path_In. rewrite <- Hp0. now apply in_map. }
    rewrite Hx. conjuncts; [auto| | | |lia].
    + intros v Hv Hne. apply in_map_iff. exists v. split; [|assumption].
      destruct (v_id v =? v_id v0) eqn:E; [|reflexivity].
      apply Z.eqb_eq in E. exfalso. apply Hne.
      rewrite (NoDup_map_inj v_id (videos st) v v0); auto. now destruct Hs.
    + intros p. rewrite map_update_rows by reflexivity. split; [auto|].
      intros [Hp| ->]; [assumption|]. rewrite <- Hp0. now apply in_map.
    + exists (set_title (title f) v0). split.
      * apply in_map_iff. exists v0. rewrite Z.eqb_refl. auto.
      * cbn. split; [assumption|]. split; [reflexivity|].
        intros Hno. exfalso. apply Hno. rewrite <- Hp0. now apply in_map.
  - destruct (getOrCreateModule_schema now (modulePath f) (moduleName f) st Hs)
      as (mid & st1 & Em & Hs1 & Hv & _ & Hmods & Hfk).
    rewrite Em in H.
    assert (Hx : existsb (fun v => v_path v =? path f)%string (videos st1) = false).
    { rewrite Hv. now apply existsb_path_find. }
    assert (Hfk' : match mid with
                   | Some m => exists r, In r (modules st1) /\ m_id r = m
                   | None => True
                   end).
    { destruct mid as [m|]; [|exact I]. destruct Hfk as (r & Hr & Er & _). eauto. }
    destruct (schema_insert_video st1 now (path f) (filename f) (title f)
                                  mid (sortOrder f) Hs1 Hx Hfk') as [Ei _].
    rewrite Ei in H. inversion H; subst. clear H.
    cbn [modules videos addedCount]. rewrite Hv in Hx. rewrite Hx.
    conjuncts; [assumption| | | |reflexivity].
    + intros v Hin _. rewrite Hv. apply in_or_app. now left.
    + intros p. rewrite Hv, map_app, in_app_iff. cbn. intuition.
    + eexists. split; [apply in_or_app; right; left; reflexivity|].
      cbn. split; [reflexivity|]. split; [reflexivity|]. intros _.
      unfold inserted_for, fresh_row. cbn. conjuncts; try reflexivity.
      destruct mid as [m|]; [|assumption].
      split; [eapply getOrCreateModule_Some; eassumption|].
      destruct Hfk as (r & Hr & Er & Ep). eauto.
Qed.

Lemma reconcile_all_rows now videos_found : forall c st c' st',
  schema_holds st -> NoDup (map path videos_found) ->
  reconcile_all now videos_found c st = (Ok c', st') ->
  (forall m, In m (modules st) -> In m (modules st')) /\
  (forall v, In v (videos st) -> ~ In (v_path v) (map path videos_found) ->
             In v (videos st')) /\
  (forall f, In f videos_found ->
             exists v, In v (videos st') /\ v_path v = path f /\ v_title v = title f /\
                       (~ In (path f) (map v_path (videos st)) -> inserted_for now f st' v)) /\
  addedCount c' = addedCount c + Z.of_nat (List.length (unknown_files videos_found st)).
Proof.
  induction videos_found as [|f fs IH]; intros c st c' st' Hs Hnd; cbn [reconcile_all].
  - intros H. inversion H; subst. cbn. conjuncts; auto; [contradiction|lia].
  - unfold bind at 1. destruct (reconcile_total now f c st) as (c1 & st1 & E1).
    rewrite E1. intros H. cbn [map] in Hnd. inversion Hnd as [|? ? Hnotin Hnd']; subst.
    destruct (reconcile_rows now f c st c1 st1 Hs E1)
      as (Hs1 & Hm1 & Hk1 & Hp1 & (v1 & Hv1 & Ep1 & Et1 & Hi1) & Ha1).
    destruct (IH c1 st1 c' st' Hs1 Hnd' H) as (Hm & Hk & Hf & Ha).
    conjuncts.
    + auto.
    + intros v Hv Hno. apply Hk.
      * apply Hk1; [assumption|]. intros E. apply Hno. left. now symmetry.
      * intros Hin. apply Hno. now right.
    + intros g [<-|Hg].
      * exists v1. split; [|split; [assumption|split; [assumption|]]].
        -- apply Hk; [assumption|]. now rewrite Ep1.
        -- intros Hno. eapply inserted_for_modules; [exact Hm|auto].
      * destruct (Hf g Hg) as (v & Hv & Ep & Et & Hi).
        exists v. split; [assumption|]. split; [assumption|]. split; [assumption|].
        intros Hno. apply Hi. intros Hin. apply Hp1 in Hin.
        destruct Hin as [Hin|E]; [contradiction|].
        apply Hnotin. rewrite <- E. now apply in_map.
    + rewrite Ha, Ha1. unfold unknown_files. cbn [filter].
      assert (Hfil : filter (fun f0 => negb (existsb (fun v => v_path v =? path f0)%string
                                                     (videos st1))) fs
                     = filter (fun f0 => negb (existsb (fun v => v_path v =? path f0)%string
                                                       (videos st))) fs).
      { apply filter_ext_in. intros g Hg. f_equal.
        apply eq_true_iff_eq. rewrite !existsb_path_In, Hp1.
        split; [|auto]. intros [Hin|E]; [assumption|].
        exfalso. apply Hnotin. rewrite <- E. now apply in_map. }
      rewrite Hfil.
      destruct (existsb _ (videos st)); cbn [negb List.length]; lia.
Qed.

(** X11.  After a scan every discovered file has its row, and rows of
    files that were not found are left alone.  On a store the operations
    lead to and a tree whose files have distinct paths: each discovered file
    has a row with its path and its title; when the path was not stored
    before, that row is the one the scan inserted, with the filename and
    sort key of the file, status unwatched at position and duration 0,
    created at the time of the scan, and no module exactly when the module
    name of the file is 'Root', otherwise the module stored under the module
    path of the file; every row whose path is not among the discovered ones
    is still there, unchanged (a scan never deletes); and [added] counts
    the discovered files that had no row. *)
Theorem scanVideos_rows_of_found_files now coursePath tree st result st' :
  reachable st ->
  NoDup (map path (_findVideoFiles coursePath tree)) ->
  scanVideos now coursePath tree st = (Ok result, st') ->
  (forall f, In f (_findVideoFiles coursePath tree) ->
             exists v, In v (videos st') /\ v_path v = path f /\ v_title v = title f /\
                       (~ In (path f) (map v_path (videos st)) -> inserted_for now f st' v)) /\
  (forall v, In v (videos st) ->
             ~ In (v_path v) (map path (_findVideoFiles coursePath tree)) ->
             In v (videos st')) /\
  added result
  = Z.of_nat (List.length (unknown_files (_findVideoFiles coursePath tree) st)).
Proof.
  intros Hr Hnd H.
  destruct (scanVideos_ok now coursePath tree st) as (c & st0 & E & Es).
  rewrite Es in H. inversion H; subst. clear H.
  destruct (reconcile_all_rows now _ _ _ _ _ (reachable_schema st Hr) Hnd E)
    as (_ & Hk & Hf & Ha).
  cbn [added]. cbn [addedCount] in Ha. conjuncts; auto.
Qed.

Lemma scanVideos_rows_of_found_files_witness :
  exists v,
    In v (videos course_store) /\
    v_path v = "/course/Module 1 - Basics/02. Second Lesson.mp4" /\
    v_title v = "02. Second Lesson" /\ v_sort_order v = 2 /\ v_status v = Unwatched.
Proof.
  assert (Hnd : NoDup (map path (_findVideoFiles "/course" course_tree))).
  { vm_compute. repeat constructor; cbn; intuition discriminate. }
  assert (E : scanVideos 0 "/course" course_tree empty = (Ok (mkScan 4 4 0), course_store)).
  { vm_compute. reflexivity. }
  destruct (scanVideos_rows_of_found_files 0 "/course" course_tree empty _ _
              reachable_empty Hnd E) as (Hf & _ & _).
  destruct (Hf (mkFound "/course/Module 1 - Basics/02. Second Lesson.mp4"
                        "02. Second Lesson.mp4" "02. Second Lesson"
                        "Module 1 - Basics" "/course/Module 1 - Basics" 2))
    as (v & Hv & Hp & Ht & Hi).
  { vm_compute. auto 6. }
  destruct Hi as (_ & _ & _ & Hso & (Hst & _) & _).
  { cbn. intros []. }
  exists v. auto.
Defined.

Lemma find_same_but_title id l l' :
  Forall2 same_but_title l l' ->
  match find (fun v => v_id v =? id) l with
  | Some v => exists v', find (fun v => v_id v =? id) l' = Some v' /\ same_but_title v v'
  | None => find (fun v => v_id v =? id) l' = None
  end.
Proof.
  induction 1 as [|v v' l l' Hv _ IH]; cbn; [reflexivity|].
  assert (E : v_id v' = v_id v) by apply Hv. rewrite E.
  destruct (v_id v =? id); [eauto|exact IH].
Qed.

Lemma count_same_but_title (s : status) l l' :
  Forall2 same_but_title l l' ->
  List.length (filter (fun v => status_eqb (v_status v) s) l')
  = List.length (filter (fun v => status_eqb (v_status v) s) l).
Proof.
  induction 1 as [|v v' l l' Hv _ IH]; cbn; [reflexivity|].
  assert (E : v_status v' = v_status v) by apply Hv. rewrite E.
  destruct (status_eqb (v_status v) s); cbn; congruence.
Qed.

Lemma count_fresh_rows (s : status) l :
  Forall fresh_row l -> s <> Unwatched ->
  filter (fun v => status_eqb (v_status v) s) l = [].
Proof.
  intros H Hs. induction H as [|v l Hv _ IH]; cbn; [reflexivity|].
  destruct Hv as (E & _). rewrite E.
  destruct (status_eqb Unwatched s) eqn:Eb; [|exact IH].
  apply status_eqb_eq in Eb. congruence.
Qed.

Lemma scanVideos_evolves now coursePath tree st result st' :
  scanVideos now coursePath tree st = (Ok result, st') ->
  evolves st st' /\
  Z.of_nat (List.length (videos st')) = Z.of_nat (List.length (videos st)) + added result.
Proof.
  intros H.
  destruct (scanVideos_ok now coursePath tree st) as (c & st0 & E & Es).
  rewrite Es in H. inversion H; subst. clear H.
  destruct (reconcile_all_counts _ _ _ _ _ _ E) as (Hl & _).
  destruct (reconcile_all_ok now (_findVideoFiles coursePath tree) (mkCounters 0 0) st)
    as (c0 & st0 & E0 & Hev & _).
  rewrite E in E0. inversion E0; subst c0 st0.
  split; [exact Hev|]. cbn in *. lia.
Qed.

(** X12.  A scan never disturbs what has been watched or written: for
    every video that was stored, getProgress answers after the scan what it
    answered before, and so does getNotes; in getStats the numbers of
    completed and in-progress videos are the same, while total and
    unwatched have both grown by [added]. *)
Theorem scanVideos_keeps_progress now coursePath tree st result st' :
  scanVideos now coursePath tree st = (Ok result, st') ->
  (forall id p, getProgress id st = (Ok p, st) -> getProgress id st' = (Ok p, st')) /\
  (forall id o, getNotes id st = (Ok o, st) -> getNotes id st' = (Ok o, st')) /\
  exists s s',
    getStats st = (Ok s, st) /\ getStats st' = (Ok s', st') /\
    s_completed s' = s_completed s /\ s_inProgress s' = s_inProgress s /\
    s_total s' = s_total s + added result /\
    s_unwatched s' = s_unwatched s + added result.
Proof.
  intros H. destruct (scanVideos_evolves _ _ _ _ _ _ H)
    as ((olds & news & Ev & Hold & Hnew & Hn) & Hl).
  conjuncts.
  - intros id p. unfold getProgress, bind, get_video, throw, ret. rewrite Ev.
    pose proof (find_same_but_title id _ _ Hold) as Hf.
    destruct (find (fun v => v_id v =? id) (videos st)) as [v|]; [|discriminate].
    destruct Hf as (v' & Hf & Hv). rewrite (find_app_Some _ _ _ _ Hf).
    destruct Hv as (_ & _ & _ & Ed & Ep & Es & _). rewrite Ed, Ep, Es.
    intros E. inversion E; subst. reflexivity.
  - intros id o. rewrite !getNotes_eq, Ev, Hn.
    pose proof (find_same_but_title id _ _ Hold) as Hf.
    destruct (find (fun v => v_id v =? id) (videos st)) as [v|]; [|discriminate].
    destruct Hf as (v' & Hf & _). rewrite (find_app_Some _ _ _ _ Hf).
    intros E. inversion E; subst. reflexivity.
  - destruct (getStats_counts st) as (s & Es & Et & _ & Eu & _).
    destruct (getStats_counts st') as (s' & Es' & Et' & _ & Eu' & _).
    exists s, s'. split; [assumption|]. split; [assumption|].
    assert (Ec : s_completed s' = s_completed s).
    { unfold getStats in Es, Es'. inversion Es; inversion Es'. cbn.
      unfold count_videos. rewrite Ev, filter_app, length_app.
      rewrite (count_fresh_rows Completed news Hnew) by discriminate.
      rewrite (count_same_but_title Completed _ _ Hold). cbn. f_equal. lia. }
    assert (Ei : s_inProgress s' = s_inProgress s).
    { unfold getStats in Es, Es'. inversion Es; inversion Es'. cbn.
      unfold count_videos. rewrite Ev, filter_app, length_app.
      rewrite (count_fresh_rows InProgress news Hnew) by discriminate.
      rewrite (count_same_but_title InProgress _ _ Hold). cbn. f_equal. lia. }
    split; [assumption|]. split; [assumption|]. split; lia.
Qed.

Lemma scanVideos_keeps_progress_witness :
  exists st' p,
    getProgress 1 st' = (Ok p, st') /\ p_position p = of_Z 30 /\ p_status p = InProgress.
Proof.
  assert (Hs : exists result st',
             scanVideos 8 "/course" course_tree (report_positions 1 [(5, of_Z 30)] test_store)
             = (Ok result, st')) by (vm_compute; eauto).
  destruct Hs as (result & st' & Hs).
  assert (Hp : exists p,
             getProgress 1 (report_positions 1 [(5, of_Z 30)] test_store)
             = (Ok p, report_positions 1 [(5, of_Z 30)] test_store) /\
             p_position p = of_Z 30 /\ p_status p = InProgress)
    by (vm_compute; eauto).
  destruct Hp as (p & Hp & H1 & H2).
  exists st', p. split; [|auto].
  exact (proj1 (scanVideos_keeps_progress _ _ _ _ _ _ Hs) 1 p Hp).
Defined.

(** ** What discovery finds *)

Lemma dirent_nested_ind (P : dirent -> Prop) :
  (forall name, P (File name)) ->
  (forall name entries, Forall P entries -> P (Directory name (Some entries))) ->
  (forall name, P (Directory name None)) ->
  (forall name, P (Other name)) ->
  forall e, P e.
Proof.
  intros HF HD HU HO. fix IH 1. intros [name|name [entries|]|name].
  - apply HF.
  - apply HD. revert entries. fix IHl 1. intros [|e entries].
    + constructor.
    + constructor; [apply IH|apply IHl].
  - apply HU.
  - apply HO.
Qed.

Lemma module_of_file relativeTo (rel : list string) name :
  match (rel ++ [name])%list with
  | first :: _ :: _ => (first, join relativeTo first)
  | _ => ("Root", relativeTo)
  end = module_of relativeTo rel.
Proof. destruct rel as [|first [|second rel]]; reflexivity. Qed.

Lemma visit_spec relativeTo e : forall dir rel f,
  In f (visit relativeTo dir rel e) <->
  exists folders name,
    file_in e folders name /\ is_video name /\
    f = discovered relativeTo dir rel folders name.
Proof.
  induction e as [name|d entries IH|d|name] using dirent_nested_ind; intros dir rel f.
  - cbn [visit entry_name]. unfold is_video.
    destruct (String.eqb_spec name ".coursewatcher") as [Eh|Eh].
    { split; [intros []|]. intros (folders & n & Hin & _). inversion Hin; subst.
      contradiction. }
    split.
    + destruct (includes Config.videoExtensions (toLowerCase (extname name))) eqn:Ev;
        [|intros []].
      rewrite module_of_file. destruct (module_of relativeTo rel) as [mn mp] eqn:Em.
      intros [<-|[]]. exists [], name. split; [now constructor|]. split; [assumption|].
      unfold discovered. rewrite app_nil_r, Em. reflexivity.
    + intros (folders & n & Hin & Hv & ->). inversion Hin; subst.
      rewrite Hv. rewrite module_of_file.
      destruct (module_of relativeTo rel) as [mn mp] eqn:Em.
      left. unfold discovered. rewrite app_nil_r, Em. reflexivity.
  - cbn [visit entry_name].
    destruct (String.eqb_spec d ".coursewatcher") as [Eh|Eh].
    { split; [intros []|]. intros (folders & n & Hin & _). inversion Hin; subst.
      contradiction. }
    unfold sortBySortOrder. rewrite sort_In, in_flat_map. rewrite Forall_forall in IH.
    split.
    + intros (e & He & Hf). apply (IH e He) in Hf.
      destruct Hf as (folders & n & Hin & Hv & ->).
      exists (d :: folders), n. split; [econstructor; eassumption|].
      split; [assumption|]. unfold discovered. cbn [fold_left].
      rewrite <- app_assoc. reflexivity.
    + intros (folders & n & Hin & Hv & ->). inversion Hin; subst.
      exists e. split; [assumption|]. apply (IH e); [assumption|].
      do 2 eexists. split; [eassumption|]. split; [assumption|].
      unfold discovered. cbn [fold_left]. rewrite <- app_assoc. reflexivity.
  - cbn [visit entry_name]. split.
    + destruct (d =? ".coursewatcher")%string; intros [].
    + intros (folders & n & Hin & _). inversion Hin.
  - cbn [visit entry_name]. split.
    + destruct (name =? ".coursewatcher")%string; intros [].
    + intros (folders & n & Hin & _). inversion Hin.
Qed.

(** X13.  What _findVideoFiles finds, exactly: the objects it returns
    are those of the files that carry a video extension (compared in lower
    case) and can be reached from the course folder through readable
    folders, where nothing named '.coursewatcher' is entered or taken;
    unreadable folders and entries that are neither file nor folder
    contribute nothing.  The object of such a file has the path of the file,
    its name, the title and the sort order derived from the name, and as
    module the outermost folder on the way (however deep the file lies), or
    'Root' with the course folder when the file lies directly in it. *)
Theorem findVideoFiles_spec dir tree f :
  In f (_findVideoFiles dir tree) <->
  exists entries e folders name,
    tree = Some entries /\ In e entries /\ file_in e folders name /\ is_video name /\
    f = discovered dir dir [] folders name.
Proof.
  unfold _findVideoFiles. destruct tree as [entries|].
  - unfold sortBySortOrder. rewrite sort_In, in_flat_map. split.
    + intros (e & He & Hf). apply visit_spec in Hf.
      destruct Hf as (folders & n & Hin & Hv & ->). exists entries, e, folders, n. auto.
    + intros (entries' & e & folders & n & E & He & Hin & Hv & ->).
      inversion E; subst entries'. exists e. split; [assumption|].
      apply visit_spec. eauto.
  - split; [intros []|]. intros (entries & e & folders & n & E & _). discriminate.
Qed.

(** ** The order of discovery *)

Lemma StronglySorted_weaken {A} (R R' : A -> A -> Prop) l :
  (forall a b, R a b -> R' a b) -> StronglySorted R l -> StronglySorted R' l.
Proof.
  intros HR. induction 1 as [|a l _ IH Ha]; constructor; [assumption|].
  revert Ha. apply Forall_impl. apply HR.
Qed.

Lemma StronglySorted_filter {A} (R : A -> A -> Prop) (p : A -> bool) l :
  StronglySorted R l -> StronglySorted R (filter p l).
Proof.
  induction 1 as [|a l _ IH Ha]; cbn; [constructor|].
  destruct (p a); [|assumption]. constructor; [assumption|].
  rewrite Forall_forall in *. intros x Hx. apply filter_In in Hx. apply Ha, Hx.
Qed.

Lemma StronglySorted_Forall2 {A B} (ka : A -> Z) (kb : B -> Z) l l' :
  Forall2 (fun a b => kb b = ka a) l l' ->
  StronglySorted (fun x y => ka x <= ka y) l ->
  StronglySorted (fun x y => kb x <= kb y) l'.
Proof.
  induction 1 as [|a b l l' Hab Hl IH]; intros Hs; [constructor|].
  apply StronglySorted_inv in Hs. destruct Hs as [Hs Ha].
  constructor; [auto|].
  clear IH Hs. induction Hl as [|a' b' l l' Hab' _ IH]; [constructor|].
  inversion Ha; subst. constructor; [lia|auto].
Qed.

Lemma findVideoFiles_sorted dir tree :
  StronglySorted (fun a b => sortOrder a <= sortOrder b) (_findVideoFiles dir tree).
Proof.
  unfold _findVideoFiles. destruct tree as [entries|]; [|constructor].
  unfold sortBySortOrder.
  apply StronglySorted_weaken with (R := fun a b => (sortOrder a <=? sortOrder b) = true).
  - intros a b. apply Z.leb_le.
  - apply sort_sorted.
    + intros a b. rewrite !Z.leb_le. lia.
    + intros a b c. rewrite !Z.leb_le. lia.
Qed.

Lemma reconcile_cases now f c st c' st' :
  reconcile now f c st = (Ok c', st') ->
  (In (path f) (map v_path (videos st)) /\
   exists id, videos st' = map (fun v => if v_id v =? id then set_title (title f) v else v)
                               (videos st)) \/
  (~ In (path f) (map v_path (videos st)) /\
   exists v, videos st' = (videos st ++ [v])%list /\ v_path v = path f /\
             v_filename v = filename f /\ v_sort_order v = sortOrder f).
Proof.
  rewrite reconcile_eq.
  destruct (find (fun v => v_path v =? path f)%string (videos st)) as [v0|] eqn:Ef.
  - intros H. inversion H; subst. left. split; [|eexists; reflexivity].
    apply find_some in Ef. destruct Ef as [Hin Hp]. apply String.eqb_eq in Hp.
    rewrite <- Hp. now apply in_map.
  - destruct (getOrCreateModule_ok now (modulePath f) (moduleName f) st)
      as (mid & st1 & Em & Hv & _).
    rewrite Em. unfold insert_video.
    destruct (existsb (fun v => v_path v =? path f)%string (videos st1)); [discriminate|].
    destruct (match mid with
              | Some m => negb (existsb (fun r => m_id r =? m) (modules st1))
              | None => false
              end); [discriminate|].
    intros H. inversion H; subst. right. split; [now apply find_path_In|].
    eexists. cbn [videos]. rewrite Hv. split; [reflexivity|]. cbn. auto.
Qed.

Lemma unknown_files_step videos_found f st st1 :
  (forall p, In p (map v_path (videos st1)) <-> In p (map v_path (videos st)) \/ p = path f) ->
  ~ In (path f) (map path videos_found) ->
  unknown_files videos_found st1 = unknown_files videos_found st.
Proof.
  intros Hp Hno. unfold unknown_files. apply filter_ext_in. intros g Hg. f_equal.
  apply eq_true_iff_eq. rewrite !existsb_path_In, Hp.
  split; [|auto]. intros [Hin|E]; [assumption|].
  exfalso. apply Hno. rewrite <- E. now apply in_map.
Qed.

Lemma reconcile_all_order now videos_found : forall c st c' st',
  NoDup (map path videos_found) ->
  reconcile_all now videos_found c st = (Ok c', st') ->
  exists olds news,
    videos st' = (olds ++ news)%list /\
    Forall2 same_but_title (videos st) olds /\
    Forall2 (fun f v => v_path v = path f /\ v_filename v = filename f /\
                        v_sort_order v = sortOrder f)
            (unknown_files videos_found st) news.
Proof.
  induction videos_found as [|f fs IH]; intros c st c' st' Hnd; cbn [reconcile_all].
  - intros H. inversion H; subst. exists (videos st'), []. rewrite app_nil_r.
    split; [reflexivity|]. split; [apply Forall2_same_but_title_refl|constructor].
  - unfold bind at 1. destruct (reconcile_total now f c st) as (c1 & st1 & E1).
    rewrite E1. intros H. cbn [map] in Hnd. inversion Hnd as [|? ? Hnotin Hnd']; subst.
    destruct (IH c1 st1 c' st' Hnd' H) as (olds & news & Ev & Hold & Hnew).
    destruct (reconcile_cases now f c st c1 st1 E1)
      as [(Hin & id & Ev1)|(Hno & v & Ev1 & Ep & Efn & Eso)].
    + assert (Hu : unknown_files fs st1 = unknown_files fs st).
      { apply (unknown_files_step fs f); [|assumption].
        intros p. rewrite Ev1, map_update_rows by reflexivity. split; [auto|].
        intros [Hp| ->]; assumption. }
      exists olds, news. split; [assumption|]. split.
      * eapply Forall2_same_but_title_trans; [|exact Hold].
        rewrite Ev1. apply Forall2_same_but_title_update.
      * unfold unknown_files at 1. cbn [filter].
        apply existsb_path_In in Hin. rewrite Hin. cbn [negb].
        fold (unknown_files fs st). now rewrite <- Hu.
    + assert (Hu : unknown_files fs st1 = unknown_files fs st).
      { apply (unknown_files_step fs f); [|assumption].
        intros p. rewrite Ev1, map_app, in_app_iff. cbn. rewrite Ep. intuition. }
      rewrite Ev1 in Hold. apply Forall2_app_inv_l in Hold.
      destruct Hold as (o1 & o2 & Ho1 & Ho2 & ->).
      inversion Ho2 as [|? v' ? ? Hvv' Hnil]; subst. inversion Hnil; subst.
      exists o1, (v' :: news). split; [rewrite Ev, <- app_assoc; reflexivity|].
      split; [assumption|].
      unfold unknown_files at 1. cbn [filter].
      assert (Hx : existsb (fun v => v_path v =? path f)%string (videos st) = false).
      { destruct (existsb _ (videos st)) eqn:Ex; [|reflexivity].
        apply existsb_path_In in Ex. contradiction. }
      rewrite Hx. cbn [negb]. fold (unknown_files fs st). rewrite <- Hu.
      constructor; [|assumption].
      destruct Hvv' as (_ & E1' & E2' & _ & _ & _ & _ & E3' & _).
      rewrite E1', E2', E3'. auto.
Qed.

(** X14.  Discovery returns the files in ascending sort order, and a scan
    inserts in that order: when the files found have distinct paths, the
    rows of the store after scanVideos are the old rows, in place, followed
    by one new row for each discovered file that had no row, in the order of
    discovery, with the path, filename and sort key of the file; so the new
    rows lie in ascending sort order in the table. *)
Theorem scanVideos_inserts_in_sort_order now coursePath tree st result st' :
  NoDup (map path (_findVideoFiles coursePath tree)) ->
  scanVideos now coursePath tree st = (Ok result, st') ->
  StronglySorted (fun a b => sortOrder a <= sortOrder b) (_findVideoFiles coursePath tree) /\
  exists olds news,
    videos st' = (olds ++ news)%list /\
    Forall2 same_but_title (videos st) olds /\
    Forall2 (fun f v => v_path v = path f /\ v_filename v = filename f /\
                        v_sort_order v = sortOrder f)
            (unknown_files (_findVideoFiles coursePath tree) st) news /\
    StronglySorted (fun a b => v_sort_order a <= v_sort_order b) news.
Proof.
  intros Hnd H. split; [apply findVideoFiles_sorted|].
  destruct (scanVideos_ok now coursePath tree st) as (c & st0 & E & Es).
  rewrite Es in H. inversion H; subst. clear H.
  destruct (reconcile_all_order now _ _ _ _ _ Hnd E) as (olds & news & Ev & Hold & Hnew).
  exists olds, news. conjuncts; try assumption.
  apply StronglySorted_Forall2
    with (ka := sortOrder) (l := unknown_files (_findVideoFiles coursePath tree) st).
  - revert Hnew. apply Forall2_impl. tauto.
  - apply StronglySorted_filter, findVideoFiles_sorted.
Qed.

Lemma scanVideos_inserts_in_sort_order_witness :
  map v_filename (videos course_store)
  = ["01. Introduction.mp4"; "01. First Lesson.mp4";
     "02. Getting Started.mp4"; "02. Second Lesson.mp4"] /\
  exists olds news,
    videos course_store = (olds ++ news)%list /\
    StronglySorted (fun a b => v_sort_order a <= v_sort_order b) news.
Proof.
  split; [vm_compute; reflexivity|].
  assert (Hnd : NoDup (map path (_findVideoFiles "/course" course_tree))).
  { vm_compute. repeat constructor; cbn; intuition discriminate. }
  assert (E : scanVideos 0 "/course" course_tree empty = (Ok (mkScan 4 4 0), course_store)).
  { vm_compute. reflexivity. }
  destruct (scanVideos_inserts_in_sort_order 0 "/course" course_tree empty _ _ Hnd E)
    as (_ & olds & news & Ev & _ & _ & Hs).
  exists olds, news. auto.
Defined.

(** ** Sort order and title of a file name *)

Lemma is_digit_range c :
  is_digit c = true -> 0 <= Z.of_nat (nat_of_ascii c) - 48 <= 9.
Proof.
  destruct c as [[] [] [] [] [] [] [] []]; vm_compute; intros H;
    solve [discriminate H | split; discriminate].
Qed.

Lemma digit_char_digit d :
  0 <= d <= 9 ->
  is_digit (digit_char d) = true /\ Z.of_nat (nat_of_ascii (digit_char d)) - 48 = d.
Proof.
  intros H.
  assert (E : d = 0 \/ d = 1 \/ d = 2 \/ d = 3 \/ d = 4 \/ d = 5 \/ d = 6 \/ d = 7 \/
              d = 8 \/ d = 9) by lia.
  repeat (destruct E as [->|E]; [split; reflexivity|]). subst. split; reflexivity.
Qed.

Lemma leading_digits_range s : Forall (fun d => 0 <= d <= 9) (leading_digits s).
Proof.
  induction s as [|c s IH]; cbn; [constructor|].
  destruct (is_digit c) eqn:E; constructor; [|assumption].
  now apply is_digit_range.
Qed.

Lemma leading_digits_numeral digits rest :
  Forall (fun d => 0 <= d <= 9) digits -> no_leading_digit rest ->
  leading_digits (numeral digits ++ rest) = digits.
Proof.
  intros Hd Hr. induction Hd as [|d digits Hd _ IH]; cbn.
  - destruct rest as [|c rest]; cbn; [reflexivity|]. cbn in Hr. now rewrite Hr.
  - destruct (digit_char_digit d Hd) as [E1 E2]. rewrite E1, E2, IH. reflexivity.
Qed.

Lemma parseInt_positional digits : forall acc,
  fold_left (fun acc d => 10 * acc + d) digits acc
  = acc * 10 ^ Z.of_nat (List.length digits) + positional digits.
Proof.
  induction digits as [|d digits IH]; intros acc; cbn [fold_left positional List.length].
  - cbn. lia.
  - rewrite IH. rewrite Nat2Z.inj_succ, Z.pow_succ_r by lia. ring.
Qed.

Lemma positional_bounds digits :
  Forall (fun d => 0 <= d <= 9) digits ->
  0 <= positional digits < 10 ^ Z.of_nat (List.length digits).
Proof.
  induction 1 as [|d digits Hd _ IH]; cbn [positional List.length]; [cbn; lia|].
  rewrite Nat2Z.inj_succ, Z.pow_succ_r by lia.
  assert (0 < 10 ^ Z.of_nat (List.length digits)) by (apply Z.pow_pos_nonneg; lia).
  nia.
Qed.

Lemma parseInt_exact digits :
  Forall (fun d => 0 <= d <= 9) digits -> positional digits <= 2 ^ 53 ->
  parseInt digits = positional digits.
Proof.
  intros Hd Hb. unfold parseInt. rewrite parseInt_positional.
  replace (0 * 10 ^ Z.of_nat (List.length digits) + positional digits)
    with (positional digits) by lia.
  destruct (Z.leb_spec (positional digits) (2 ^ 53)); [reflexivity|lia].
Qed.

Lemma parseInt_nonneg digits :
  Forall (fun d => 0 <= d <= 9) digits -> 0 <= parseInt digits.
Proof.
  intros Hd. unfold parseInt. rewrite parseInt_positional.
  pose proof (positional_bounds _ Hd) as Hp.
  replace (0 * 10 ^ Z.of_nat (List.length digits) + positional digits)
    with (positional digits) by lia.
  destruct (Z.leb_spec (positional digits) (2 ^ 53)); [lia|].
  destruct (of_Z (positional digits)) as [s|s| |s m e];
    try (apply Z.pow_nonneg; lia).
  assert (0 <= 2 ^ e) by (apply Z.pow_nonneg; lia). nia.
Qed.

(** X15.  _extractSortOrder reads the leading decimal numeral of the name:
    a name that begins with the digits d1...dn (n > 0), followed by no
    further digit, gets the number these digits denote in base ten when
    that is at most 2^53, the range in which parseInt is exact (so leading
    zeros do not count and '10' sorts after '9'); a name that does not
    begin with a digit gets 999; the result is never negative. *)
Theorem extractSortOrder_reads_numeral :
  (forall digits rest,
      digits <> [] -> Forall (fun d => 0 <= d <= 9) digits -> no_leading_digit rest ->
      positional digits <= 2 ^ 53 ->
      _extractSortOrder (numeral digits ++ rest) = positional digits) /\
  (forall filename, no_leading_digit filename -> _extractSortOrder filename = 999) /\
  (forall filename, 0 <= _extractSortOrder filename).
Proof.
  conjuncts.
  - intros digits rest Hne Hd Hr Hb. unfold _extractSortOrder.
    rewrite leading_digits_numeral by assumption.
    destruct digits as [|d digits]; [contradiction|].
    now apply parseInt_exact.
  - intros [|c s] H; [reflexivity|]. cbn in H. unfold _extractSortOrder. cbn.
    now rewrite H.
  - intros filename. unfold _extractSortOrder.
    pose proof (leading_digits_range filename) as Hd.
    destruct (leading_digits filename) as [|d digits]; [lia|].
    now apply parseInt_nonneg.
Qed.

Lemma substring_whole (t : string) : substring 0 (String.length t) t = t.
Proof. induction t as [|c t IH]; cbn; [reflexivity|]. now rewrite IH. Qed.

Lemma substring_skip (s t : string) n :
  substring (String.length s) n (s ++ t) = substring 0 n t.
Proof. induction s as [|c s IH]; cbn; [reflexivity|exact IH]. Qed.

Lemma substring_prefix (s t : string) : substring 0 (String.length s) (s ++ t) = s.
Proof.
  induction s as [|c s IH]; cbn; [now destruct t|]. now rewrite IH.
Qed.

Lemma lastIndexOf_append c (s ext : string) :
  lastIndexOf c ext = None ->
  lastIndexOf c (s ++ String c ext) = Some (String.length s).
Proof.
  intros He. induction s as [|a s IH]; cbn.
  - rewrite He, Ascii.eqb_refl. reflexivity.
  - rewrite IH. reflexivity.
Qed.

Lemma extname_append (stem ext : string) :
  stem <> "" -> lastIndexOf "." ext = None -> (stem ++ "." ++ ext)%string <> ".." ->
  extname (stem ++ "." ++ ext) = ("." ++ ext)%string.
Proof.
  intros Hs He Hn. unfold extname.
  apply String.eqb_neq in Hn. rewrite Hn. cbn [append].
  rewrite lastIndexOf_append by assumption.
  destruct stem as [|c stem]; [contradiction|]. cbn [String.length].
  change (S (String.length stem)) with (String.length (String c stem)).
  rewrite length_append.
  replace (String.length (String c stem) + String.length (String "." ext)
           - String.length (String c stem))%nat
    with (String.length (String "." ext)) by lia.
  rewrite substring_skip. apply substring_whole.
Qed.

Lemma basename_append (stem ext : string) :
  basename (stem ++ "." ++ ext) ("." ++ ext) = stem.
Proof.
  unfold basename. cbn [append]. rewrite length_append.
  replace (String.length stem + String.length (String "." ext)
           - String.length (String "." ext))%nat
    with (String.length stem) by lia.
  rewrite substring_skip, substring_whole, String.eqb_refl, substring_prefix.
  cbn [String.length].
  replace (S (String.length ext) <=? String.length stem + S (String.length ext))%nat
    with true by (symmetry; apply Nat.leb_le; lia).
  reflexivity.
Qed.

(** X16.  _extractTitle drops the extension and nothing else of the
    name: for a name stem.ext other than '..', with a non-empty stem and no
    dot in ext, the title is the stem with every underscore turned into a
    space and the white space at both ends removed, that of Unicode
    included (dots and hyphens inside the stem stay), and the whole file
    name when nothing but white space would be left. *)
Theorem extractTitle_strips_extension stem ext :
  stem <> "" -> lastIndexOf "." ext = None -> (stem ++ "." ++ ext)%string <> ".." ->
  _extractTitle (stem ++ "." ++ ext)
  = match trim (replace_underscores stem) with
    | EmptyString => (stem ++ "." ++ ext)%string
    | t => t
    end.
Proof.
  intros Hs He Hn. unfold _extractTitle.
  rewrite extname_append by assumption. rewrite basename_append. reflexivity.
Qed.

Lemma extractTitle_strips_extension_witness :
  _extractTitle "03_Advanced - Part 2.1.mp4" = "03 Advanced - Part 2.1" /\
  _extractTitle "___.mkv" = "___.mkv".
Proof.
  split.
  - exact (extractTitle_strips_extension "03_Advanced - Part 2.1" "mp4"
             ltac:(discriminate) eq_refl ltac:(discriminate)).
  - exact (extractTitle_strips_extension "___" "mkv" ltac:(discriminate) eq_refl
             ltac:(discriminate)).
Defined.

(** What [trimStart] does, case by case. *)
Lemma trimStart_cases s :
  (s = EmptyString /\ trimStart s = EmptyString) \/
  (exists c s1, s = String c s1 /\ trimStart s = trimStart s1) \/
  (exists c c1 s2, s = String c (String c1 s2) /\ trimStart s = trimStart s2) \/
  (exists c c1 c2 s3,
      s = String c (String c1 (String c2 s3)) /\ trimStart s = trimStart s3) \/
  (exists c s1, s = String c s1 /\ is_space c = false /\ trimStart s = s).
Proof.
  destruct s as [|c s1]; [now left|]. right.
  cbn [trimStart]. destruct (is_space c) eqn:E; [left; eauto|].
  destruct s1 as [|c1 s2]; [do 3 right; eauto|].
  destruct (is_space2 c c1) eqn:E2; [right; left; eauto|].
  destruct s2 as [|c2 s3]; [do 3 right; eauto|].
  destruct (is_space3 c c1 c2) eqn:E3; [right; right; left; eauto 6|].
  do 3 right. eauto.
Qed.

Lemma trimStart_chars (P : ascii -> Prop) s :
  Forall P (list_ascii_of_string s) -> Forall P (list_ascii_of_string (trimStart s)).
Proof.
  induction s as [s IH] using string_length_ind. intros H.
  destruct (trimStart_cases s)
    as [[-> ->]|[(c & s1 & -> & ->)|[(c & c1 & s2 & -> & ->)|
        [(c & c1 & c2 & s3 & -> & ->)|(c & s1 & -> & _ & ->)]]]];
    [exact H| | | |exact H]; cbn in H; apply IH; cbn; try lia.
  - now inversion H.
  - inversion H as [|? ? _ Ha]. now inversion Ha.
  - inversion H as [|? ? _ Ha]. inversion Ha as [|? ? _ Hb]. now inversion Hb.
Qed.

Lemma trimStart_fixed s : trimStart (trimStart s) = trimStart s.
Proof.
  induction s as [s IH] using string_length_ind.
  destruct (trimStart_cases s)
    as [[-> ->]|[(c & s1 & -> & ->)|[(c & c1 & s2 & -> & ->)|
        [(c & c1 & c2 & s3 & -> & ->)|(c & s1 & -> & _ & E)]]]];
    [reflexivity| | | |now rewrite !E]; apply IH; cbn; lia.
Qed.

Lemma trimStart_head s :
  match trimStart s with
  | String c _ => is_space c = false
  | EmptyString => True
  end.
Proof.
  induction s as [s IH] using string_length_ind.
  destruct (trimStart_cases s)
    as [[-> ->]|[(c & s1 & -> & ->)|[(c & c1 & s2 & -> & ->)|
        [(c & c1 & c2 & s3 & -> & ->)|(c & s1 & -> & Ec & ->)]]]];
    [exact I| | | |exact Ec]; apply IH; cbn; lia.
Qed.

Lemma trimEnd_chars (P : ascii -> Prop) s :
  Forall P (list_ascii_of_string s) -> Forall P (list_ascii_of_string (trimEnd s)).
Proof.
  induction s as [|c s IH]; [auto|]. cbn [trimEnd]. intros H.
  destruct (trimStart (String c s)); [constructor|].
  cbn in *. inversion H; subst. constructor; auto.
Qed.

Lemma trimEnd_head s :
  trimStart s = s ->
  match trimEnd s with
  | String c _ => is_space c = false
  | EmptyString => s = EmptyString
  end.
Proof.
  intros E. pose proof (trimStart_head s) as H. rewrite E in H.
  destruct s as [|c s]; [reflexivity|]. cbn [trimEnd]. rewrite E. exact H.
Qed.

Lemma trimEnd_empty s : trimEnd s = EmptyString -> trimStart s = EmptyString.
Proof.
  destruct s as [|c s]; [reflexivity|]. cbn [trimEnd].
  destruct (trimStart (String c s)); [reflexivity|discriminate].
Qed.

Lemma trimEnd_last s :
  trimEnd s <> EmptyString ->
  is_space (last (list_ascii_of_string (trimEnd s)) "x"%char) = false.
Proof.
  induction s as [|c s IH]; [contradiction|]. cbn [trimEnd].
  destruct (trimStart (String c s)) as [|c0 r0] eqn:E; [contradiction|]. intros _.
  destruct (trimEnd s) as [|c' r] eqn:Es.
  - cbn. destruct (is_space c) eqn:Ec; [|reflexivity].
    apply trimEnd_empty in Es. cbn [trimStart] in E. rewrite Ec, Es in E. discriminate.
  - change (is_space (last (list_ascii_of_string (String c' r)) "x"%char) = false).
    apply IH. discriminate.
Qed.

Lemma replace_underscores_chars s :
  Forall (fun c => c <> "_"%char) (list_ascii_of_string (replace_underscores s)).
Proof.
  induction s as [|c s IH]; cbn; constructor; [|assumption].
  destruct (Ascii.eqb_spec c "_"); [discriminate|assumption].
Qed.

(** X17.  The title _extractTitle gives is either the file name itself
    (the fallback for a name of which nothing but white space would be left)
    or a clean one: not empty, without underscores, without white space at
    either end.  A non-empty file name never gets an empty title. *)
Theorem extractTitle_clean filename :
  (_extractTitle filename = filename \/ clean_title (_extractTitle filename)) /\
  (filename <> "" -> _extractTitle filename <> "").
Proof.
  unfold _extractTitle.
  set (s := replace_underscores (basename filename (extname filename))).
  assert (Hc : Forall (fun c => c <> "_"%char) (list_ascii_of_string s))
    by apply replace_underscores_chars.
  apply (trimStart_chars _ s), trimEnd_chars in Hc.
  pose proof (trimEnd_head (trimStart s) (trimStart_fixed s)) as Hh.
  pose proof (trimEnd_last (trimStart s)) as Hl.
  fold (trim s) in Hc, Hh, Hl.
  destruct (trim s) as [|c t] eqn:E.
  - split; [now left|auto].
  - split; [|discriminate]. right. unfold clean_title.
    split; [assumption|]. split; [assumption|]. apply Hl. discriminate.
Qed.

(** ** Modules *)

Lemma find_module_path_None p (l : list module_row) :
  find (fun m => m_path m =? p)%string l = None <-> ~ In p (map m_path l).
Proof.
  split.
  - intros H Hin. apply in_map_iff in Hin. destruct Hin as (m & E & Hm).
    apply (find_none _ _ H) in Hm. rewrite E, String.eqb_refl in Hm. discriminate.
  - intros H. destruct (find _ l) as [m|] eqn:E; [|reflexivity].
    apply find_some in E. destruct E as [Hm E]. apply String.eqb_eq in E.
    exfalso. apply H. rewrite <- E. now apply in_map.
Qed.

(** X18.  _getOrCreateModule never fails and is idempotent: it answers
    null exactly for the module name 'Root', and then stores nothing;
    otherwise it answers the id of the module stored under the path, which
    it creates, with the given name and the sort order read from the name,
    only when no module has that path; asking again answers the same id and
    changes nothing.  Videos and notes are never touched. *)
Theorem getOrCreateModule_idempotent now now' modulePath moduleName st :
  exists moduleId st',
    _getOrCreateModule now modulePath moduleName st = (Ok moduleId, st') /\
    _getOrCreateModule now' modulePath moduleName st' = (Ok moduleId, st') /\
    (moduleId = None <-> moduleName = "Root") /\
    videos st' = videos st /\ notes st' = notes st /\
    ((st' = st /\ (moduleName = "Root" \/ In modulePath (map m_path (modules st)))) \/
     (exists row,
         modules st' = (modules st ++ [row])%list /\
         ~ In modulePath (map m_path (modules st)) /\
         moduleId = Some (m_id row) /\ m_name row = moduleName /\
         m_path row = modulePath /\ m_sort_order row = _extractSortOrder moduleName)).
Proof.
  unfold _getOrCreateModule.
  destruct (String.eqb_spec moduleName "Root") as [E|E].
  { exists None, st. unfold ret. conjuncts; auto. tauto. }
  unfold bind, get_module_id_by_path, insert_module, ret.
  destruct (find (fun m => m_path m =? modulePath)%string (modules st)) as [m|] eqn:Ef;
    cbn [option_map].
  - exists (Some (m_id m)), st. rewrite Ef. cbn [option_map].
    conjuncts; try reflexivity.
    + split; [discriminate|contradiction].
    + left. split; [reflexivity|]. right.
      apply find_some in Ef. destruct Ef as [Hin Hp]. apply String.eqb_eq in Hp.
      rewrite <- Hp. now apply in_map.
  - assert (Hx : existsb (fun m => m_path m =? modulePath)%string (modules st) = false).
    { destruct (existsb _ (modules st)) eqn:Ex; [|reflexivity].
      apply existsb_exists in Ex. destruct Ex as (m & Hin & Hm).
      apply (find_none _ _ Ef) in Hin. congruence. }
    rewrite Hx. do 2 eexists. split; [reflexivity|]. cbn [modules videos notes].
    rewrite (find_app_None _ _ _ Ef). cbn [find m_path]. rewrite String.eqb_refl.
    cbn [option_map m_id]. conjuncts; try reflexivity.
    + split; [discriminate|contradiction].
    + right. eexists. split; [reflexivity|]. split; [now apply find_module_path_None|].
      cbn. auto.
Qed.

(** ** The listing *)

Lemma flat_map_perm_ext {A B} (f g : A -> list B) l :
  (forall x, Permutation (f x) (g x)) -> Permutation (flat_map f l) (flat_map g l).
Proof.
  intros H. induction l as [|x l IH]; cbn; [constructor|].
  apply Permutation_app; auto.
Qed.

Lemma flat_map_map {A B C} (f : A -> B) (g : B -> list C) l :
  flat_map g (map f l) = flat_map (fun x => g (f x)) l.
Proof. induction l as [|x l IH]; cbn; [reflexivity|]. now rewrite IH. Qed.

Lemma flat_map_empty {A B} (l : list A) : flat_map (fun _ => @nil B) l = [].
Proof. induction l; cbn; auto. Qed.

Lemma flat_map_single {A} (l : list A) : flat_map (fun x => [x]) l = l.
Proof. induction l as [|x l IH]; cbn; [reflexivity|]. now rewrite IH. Qed.

Section ByModule.
Variable v : video.
Variable m : Z.
Variable F : module_row -> list video.

Let G (r : module_row) : list video := if m =? m_id r then v :: F r else F r.

Lemma chunk_of_no_module ms :
  ~ In m (map m_id ms) -> flat_map G ms = flat_map F ms.
Proof.
  induction ms as [|r ms IH]; cbn; [reflexivity|]. intros H.
  rewrite IH by tauto. unfold G at 1.
  destruct (Z.eqb_spec m (m_id r)); [|reflexivity]. exfalso. apply H. left. congruence.
Qed.

Lemma chunk_of_one_module ms :
  NoDup (map m_id ms) -> In m (map m_id ms) ->
  Permutation (flat_map G ms) (v :: flat_map F ms).
Proof.
  induction ms as [|r ms IH]; cbn; [contradiction|].
  intros Hnd Hin. inversion Hnd; subst. unfold G at 1.
  destruct (Z.eqb_spec m (m_id r)) as [E|E].
  - rewrite chunk_of_no_module by congruence. reflexivity.
  - destruct Hin as [Hin|Hin]; [congruence|].
    rewrite IH by assumption. symmetry. apply Permutation_middle.
Qed.
End ByModule.

Lemma videos_by_module (ms : list module_row) (vs : list video) :
  NoDup (map m_id ms) ->
  (forall v m, In v vs -> v_module_id v = Some m -> In m (map m_id ms)) ->
  Permutation (filter module_is_null vs
               ++ flat_map (fun r => filter (module_is (m_id r)) vs) ms) vs.
Proof.
  intros Hnd. induction vs as [|v vs IH]; intros Hfk.
  - cbn. now rewrite flat_map_empty.
  - assert (IH' := IH (fun v m H => Hfk v m (or_intror H))). clear IH.
    cbn [filter]. unfold module_is_null at 1, module_is at 1.
    destruct (v_module_id v) as [m|] eqn:Em.
    + rewrite (chunk_of_one_module v m (fun r => filter (module_is (m_id r)) vs) ms Hnd).
      * rewrite <- Permutation_middle. now constructor.
      * apply (Hfk v m); [now left|assumption].
    + cbn. now constructor.
Qed.

Lemma root_group_cases (rootVideos : list video) :
  let result := match rootVideos with [] => [] | _ => [RootGroup rootVideos] end in
  flat_map g_videos result = rootVideos /\
  flat_map group_module result = [] /\
  forall g, In g result -> g = RootGroup rootVideos /\ rootVideos <> [] /\ result = [g].
Proof.
  destruct rootVideos as [|v l]; cbn.
  - conjuncts; auto. contradiction.
  - rewrite app_nil_r. conjuncts; auto.
    intros g [<-|[]]. conjuncts; auto. discriminate.
Qed.

(** X19.  getAllModulesWithVideos shows every video once, under its own
    module.  In a store the operations lead to: the videos of all groups
    together are exactly the stored videos (none is missing, none is shown
    twice), each video stands in the group of the module it refers to (the
    group without id for videos without module), every stored module has
    exactly one group, also one without videos, and the group without id
    appears only when it has videos and then comes first. *)
Theorem getAllModulesWithVideos_partitions sortBy st :
  reachable st ->
  exists groups,
    getAllModulesWithVideos sortBy st = (Ok groups, st) /\
    Permutation (flat_map g_videos groups) (videos st) /\
    (forall g v, In g groups -> In v (g_videos g) -> v_module_id v = g_id g) /\
    Permutation (flat_map group_module groups) (modules st) /\
    (forall vs, In (RootGroup vs) groups ->
                vs <> [] /\ exists rest, groups = RootGroup vs :: rest).
Proof.
  intros Hr. destruct (reachable_schema st Hr).
  unfold getAllModulesWithVideos. eexists. split; [reflexivity|].
  destruct (root_group_cases (sort (orderClause sortBy) (filter module_is_null (videos st))))
    as (Hres & Hmod & Hroot).
  cbv zeta in *.
  set (result := match sort (orderClause sortBy) (filter module_is_null (videos st)) with
                 | [] => []
                 | _ => [RootGroup (sort (orderClause sortBy)
                                         (filter module_is_null (videos st)))]
                 end) in *.
  conjuncts.
  - rewrite flat_map_app, Hres, flat_map_map. cbn [g_videos].
    apply Permutation_trans
      with (filter module_is_null (videos st)
            ++ flat_map (fun r => filter (module_is (m_id r)) (videos st)) (modules st))%list.
    + apply Permutation_app; [apply sort_perm|].
      rewrite (Permutation_flat_map _ (sort_perm module_leb (modules st))).
      apply flat_map_perm_ext. intros r. apply sort_perm.
    + apply videos_by_module; [assumption|].
      intros v m Hv Em. destruct (video_module_exists0 v m Hv Em) as (r & Hin & <-).
      now apply in_map.
  - intros g v Hg Hv. apply in_app_or in Hg. destruct Hg as [Hg|Hg].
    + destruct (Hroot g Hg) as (-> & _). cbn [g_videos g_id] in *.
      apply sort_In, filter_In in Hv. destruct Hv as [_ Hv].
      unfold module_is_null in Hv. destruct (v_module_id v); [discriminate|reflexivity].
    + apply in_map_iff in Hg. destruct Hg as (r & <- & _). cbn [g_videos g_id] in *.
      apply sort_In, filter_In in Hv. destruct Hv as [_ Hv].
      unfold module_is in Hv. destruct (v_module_id v); [|discriminate].
      apply Z.eqb_eq in Hv. congruence.
  - rewrite flat_map_app, Hmod, flat_map_map. cbn [group_module app].
    rewrite flat_map_single. apply sort_perm.
  - intros vs Hin. apply in_app_or in Hin. destruct Hin as [Hin|Hin].
    + destruct (Hroot _ Hin) as (E & Hne & Eres). inversion E; subst vs.
      split; [assumption|]. rewrite Eres. eexists. reflexivity.
    + apply in_map_iff in Hin. destruct Hin as (r & Hin & _). discriminate.
Qed.

Lemma getAllModulesWithVideos_partitions_witness :
  exists groups,
    getAllModulesWithVideos "name" course_store = (Ok groups, course_store) /\
    map g_name groups = ["Videos"; "Module 1 - Basics"] /\
    Permutation (flat_map g_videos groups) (videos course_store).
Proof.
  assert (H : reachable course_store).
  { apply (reachable_step empty); [constructor|].
    exact (step_scan 0 "/course" course_tree empty). }
  destruct (getAllModulesWithVideos_partitions "name" course_store H)
    as (groups & E & Hp & _).
  exists groups. split; [exact E|]. split; [|exact Hp].
  assert (E' : fst (getAllModulesWithVideos "name" course_store) = Ok groups)
    by now rewrite E.
  vm_compute in E'. inversion E'. reflexivity.
Defined.

Lemma module_leb_total a b : module_leb a b = true \/ module_leb b a = true.
Proof.
  unfold module_leb.
  destruct (Z.ltb_spec (m_sort_order a) (m_sort_order b)); [now left|].
  destruct (Z.ltb_spec (m_sort_order b) (m_sort_order a)); [now right|].
  assert (E : m_sort_order a = m_sort_order b) by lia.
  rewrite E, Z.eqb_refl. cbn.
  apply String.leb_total.
Qed.

Lemma module_leb_trans a b c :
  module_leb a b = true -> module_leb b c = true -> module_leb a c = true.
Proof.
  unfold module_leb. rewrite !orb_true_iff, !andb_true_iff, !Z.ltb_lt, !Z.eqb_eq.
  intros [H1|[H1 L1]] [H2|[H2 L2]]; try (left; lia).
  right. split; [lia|]. eapply string_leb_trans; eassumption.
Qed.

Lemma orderClause_total sortBy a b :
  orderClause sortBy a b = true \/ orderClause sortBy b a = true.
Proof.
  unfold orderClause.
  destruct (sortBy =? "name_desc")%string; [apply order_leb_total|].
  destruct (sortBy =? "date")%string; [rewrite !Z.leb_le; lia|].
  destruct (sortBy =? "date_desc")%string; [rewrite !Z.leb_le; lia|].
  apply order_leb_total.
Qed.

Lemma orderClause_trans sortBy a b c :
  orderClause sortBy a b = true -> orderClause sortBy b c = true ->
  orderClause sortBy a c = true.
Proof.
  unfold orderClause.
  destruct (sortBy =? "name_desc")%string;
    [intros H1 H2; eapply order_leb_trans; eassumption|].
  destruct (sortBy =? "date")%string; [rewrite !Z.leb_le; lia|].
  destruct (sortBy =? "date_desc")%string; [rewrite !Z.leb_le; lia|].
  apply order_leb_trans.
Qed.

Lemma module_leb_listing a b :
  module_leb a b = true ->
  m_sort_order a < m_sort_order b \/
  (m_sort_order a = m_sort_order b /\ bytes_le (m_name a) (m_name b)).
Proof.
  unfold module_leb. rewrite orb_true_iff, andb_true_iff, Z.ltb_lt, Z.eqb_eq.
  intros [H|[H L]]; [now left|]. right. split; [assumption|].
  now apply string_leb_bytes_le.
Qed.

Lemma orderClause_listing sortBy a b :
  orderClause sortBy a b = true ->
  (sortBy = "name_desc" -> in_listing_order b a) /\
  (sortBy = "date" -> v_created_at a <= v_created_at b) /\
  (sortBy = "date_desc" -> v_created_at b <= v_created_at a) /\
  (sortBy <> "name_desc" -> sortBy <> "date" -> sortBy <> "date_desc" ->
   in_listing_order a b).
Proof.
  unfold orderClause.
  destruct (String.eqb_spec sortBy "name_desc") as [->|H1].
  { intros H. apply order_leb_listing in H. repeat split; try discriminate; tauto. }
  destruct (String.eqb_spec sortBy "date") as [->|H2].
  { intros H. apply Z.leb_le in H. repeat split; try discriminate; tauto. }
  destruct (String.eqb_spec sortBy "date_desc") as [->|H3].
  { intros H. apply Z.leb_le in H. repeat split; try discriminate; tauto. }
  intros H. apply order_leb_listing in H. repeat split; tauto.
Qed.

(** X20.  getAllModulesWithVideos keeps its orders.  Of two modules of the
    listing the earlier one has the smaller sort order, or the same sort
    order and a name that is not after the other name byte by byte.  Of two
    videos of one group the earlier one is, for 'name_desc', the one with
    the larger sort key, or with the same sort key and a file name that is
    not before the other one; for 'date' the one created no later; for
    'date_desc' the one created no earlier; and for any other value of
    sortBy the one with the smaller sort key, or with the same sort key and
    a file name that is not after the other one.  Any other value of sortBy
    lists exactly as 'name' does.  The call only reads the store. *)
Theorem getAllModulesWithVideos_sorted sortBy st :
  exists groups,
    getAllModulesWithVideos sortBy st = (Ok groups, st) /\
    (forall before a between b after,
        flat_map group_module groups = (before ++ a :: between ++ b :: after)%list ->
        m_sort_order a < m_sort_order b \/
        (m_sort_order a = m_sort_order b /\ bytes_le (m_name a) (m_name b))) /\
    (forall g before a between b after,
        In g groups ->
        g_videos g = (before ++ a :: between ++ b :: after)%list ->
        (sortBy = "name_desc" ->
         v_sort_order b < v_sort_order a \/
         (v_sort_order b = v_sort_order a /\ bytes_le (v_filename b) (v_filename a))) /\
        (sortBy = "date" -> v_created_at a <= v_created_at b) /\
        (sortBy = "date_desc" -> v_created_at b <= v_created_at a) /\
        (sortBy <> "name_desc" -> sortBy <> "date" -> sortBy <> "date_desc" ->
         v_sort_order a < v_sort_order b \/
         (v_sort_order a = v_sort_order b /\ bytes_le (v_filename a) (v_filename b)))) /\
    (sortBy <> "name_desc" -> sortBy <> "date" -> sortBy <> "date_desc" ->
     getAllModulesWithVideos sortBy st = getAllModulesWithVideos "name" st).
Proof.
  unfold getAllModulesWithVideos at 1. eexists. split; [reflexivity|].
  destruct (root_group_cases (sort (orderClause sortBy) (filter module_is_null (videos st))))
    as (Hres & Hmod & Hroot).
  cbv zeta in *.
  set (result := match sort (orderClause sortBy) (filter module_is_null (videos st)) with
                 | [] => []
                 | _ => [RootGroup (sort (orderClause sortBy)
                                         (filter module_is_null (videos st)))]
                 end) in *.
  assert (Hsorted : forall l before a between b after,
             sort (orderClause sortBy) l = (before ++ a :: between ++ b :: after)%list ->
             orderClause sortBy a b = true).
  { intros l before a between b after E.
    pose proof (sort_sorted (orderClause sortBy) (orderClause_total sortBy)
                  (orderClause_trans sortBy) l) as Hs.
    rewrite E in Hs. exact (StronglySorted_pair _ _ _ _ _ _ Hs). }
  conjuncts.
  - intros before a between b after E. apply module_leb_listing.
    rewrite flat_map_app, Hmod, flat_map_map in E. cbn [group_module app] in E.
    rewrite flat_map_single in E.
    pose proof (sort_sorted module_leb module_leb_total module_leb_trans (modules st)) as Hs.
    rewrite E in Hs. exact (StronglySorted_pair _ _ _ _ _ _ Hs).
  - intros g before a between b after Hg E.
    apply orderClause_listing.
    apply in_app_or in Hg. destruct Hg as [Hg|Hg].
    + destruct (Hroot g Hg) as (-> & _). cbn [g_videos] in E. eapply Hsorted, E.
    + apply in_map_iff in Hg. destruct Hg as (r & <- & _). cbn [g_videos] in E.
      eapply Hsorted, E.
  - intros H1 H2 H3.
    assert (E : forall a b, orderClause sortBy a b = orderClause "name" a b).
    { intros a b. unfold orderClause.
      apply String.eqb_neq in H1, H2, H3. rewrite H1, H2, H3. reflexivity. }
    unfold getAllModulesWithVideos.
    assert (Es : forall l, sort (orderClause sortBy) l = sort (orderClause "name") l).
    { intros l. induction l as [|x l IH]; cbn; [reflexivity|].
      fold (sort (orderClause sortBy) l). fold (sort (orderClause "name") l).
      rewrite IH. generalize (sort (orderClause "name") l). intros l'.
      induction l' as [|y l' IH']; cbn; [reflexivity|].
      rewrite E, IH'. reflexivity. }
    rewrite Es.
    rewrite (map_ext _ (fun mod_ => ModuleGroup mod_
                          (sort (orderClause "name")
                                (filter (module_is (m_id mod_)) (videos st)))));
      [reflexivity|].
    intros r. now rewrite Es.
Qed.

(** ** Lookup by id and neighbours *)

Lemma find_unique (l : list video) v :
  NoDup (map v_id l) -> In v l -> find (fun r => v_id r =? v_id v) l = Some v.
Proof.
  intros Hnd Hin. destruct (find (fun r => v_id r =? v_id v) l) as [v'|] eqn:Ef.
  - apply find_video_In in Ef. destruct Ef as [Hin' E].
    f_equal. now apply (NoDup_map_inj v_id l).
  - exfalso. apply (proj1 (find_video_None _ _) Ef). eauto.
Qed.

(** X21.  A lookup by id finds the row itself: in a store the operations
    lead to, for every stored video row, getVideoById on its id returns
    exactly that row, and getProgress on its id reports the position,
    duration and status of that row; neither changes the store. *)
Theorem getVideoById_returns_row st v :
  reachable st -> In v (videos st) ->
  getVideoById (v_id v) st = (Ok v, st) /\
  exists p, getProgress (v_id v) st = (Ok p, st) /\
            p_position p = v_position v /\ p_duration p = v_duration v /\
            p_status p = v_status v.
Proof.
  intros Hr Hin. destruct (reachable_schema st Hr).
  pose proof (find_unique _ _ video_ids_unique0 Hin) as Ef.
  unfold getVideoById, getProgress, bind, get_video, ret. rewrite Ef.
  split; [reflexivity|]. eexists. split; [reflexivity|]. cbn. auto.
Qed.

Lemma getVideoById_returns_row_witness :
  exists v, getVideoById 3 course_store = (Ok v, course_store) /\ v_id v = 3.
Proof.
  assert (H : reachable course_store).
  { apply (reachable_step empty); [constructor|].
    exact (step_scan 0 "/course" course_tree empty). }
  assert (Hv : exists v, In v (videos course_store) /\ v_id v = 3).
  { vm_compute. eexists. split; [right; right; left; reflexivity|reflexivity]. }
  destruct Hv as (v & Hin & E). exists v. split; [|exact E].
  rewrite <- E. exact (proj1 (getVideoById_returns_row course_store v H Hin)).
Defined.

Lemma findIndex_nth id ids : forall i,
  findIndex id ids = Some i -> nth_error ids i = Some id.
Proof.
  induction ids as [|x ids IH]; cbn; [discriminate|]. intros i.
  destruct (Z.eqb_spec x id) as [->|Hne].
  - intros H. inversion H. reflexivity.
  - destruct (findIndex id ids) as [j|]; [|discriminate].
    intros H. inversion H. cbn. now apply IH.
Qed.

Lemma nth_findIndex ids :
  NoDup ids -> forall i x, nth_error ids i = Some x -> findIndex x ids = Some i.
Proof.
  induction 1 as [|y ids Hy _ IH]; intros [|i] x; cbn; try discriminate.
  - intros H. inversion H. now rewrite Z.eqb_refl.
  - intros H. destruct (Z.eqb_spec y x) as [->|Hne].
    + exfalso. apply Hy. eapply nth_error_In. eassumption.
    + now rewrite (IH i x H).
Qed.

Lemma findIndex_In id ids : In id ids -> exists i, findIndex id ids = Some i.
Proof.
  induction ids as [|x ids IH]; cbn; [contradiction|]. intros H.
  destruct (Z.eqb_spec x id) as [E|Hne]; [eauto|].
  destruct H as [H|H]; [contradiction|].
  destruct (IH H) as (i & ->). eauto.
Qed.

Lemma module_video_ids_facts st video :
  schema_holds st -> In video (videos st) ->
  NoDup (module_video_ids video st) /\
  In (v_id video) (module_video_ids video st) /\
  forall b, In b (module_video_ids video st) ->
            exists vb, find (fun v => v_id v =? b) (videos st) = Some vb /\
                       module_video_ids vb st = module_video_ids video st.
Proof.
  intros [] Hin. unfold module_video_ids.
  set (sel := match v_module_id video with
              | Some m => if m =? 0 then module_is_null else module_is m
              | None => module_is_null
              end).
  assert (Hsel : forall vb, In vb (videos st) -> sel vb = true ->
                            match v_module_id vb with
                            | Some m => if m =? 0 then module_is_null else module_is m
                            | None => module_is_null
                            end = sel).
  { intros vb Hvb. unfold sel.
    destruct (v_module_id video) as [m|] eqn:Em.
    - destruct (video_module_exists0 video m Hin Em) as (r & Hr & Er).
      pose proof (module_ids_positive0 r Hr).
      destruct (Z.eqb_spec m 0); [lia|].
      unfold module_is. destruct (v_module_id vb) as [mb|]; [|discriminate].
      intros E. apply Z.eqb_eq in E. subst mb.
      destruct (Z.eqb_spec m 0); [lia|reflexivity].
    - unfold module_is_null. destruct (v_module_id vb); [discriminate|reflexivity]. }
  assert (Hself : sel video = true).
  { unfold sel. destruct (v_module_id video) as [m|] eqn:Em.
    - destruct (video_module_exists0 video m Hin Em) as (r & Hr & Er).
      pose proof (module_ids_positive0 r Hr).
      destruct (Z.eqb_spec m 0); [lia|].
      unfold module_is. rewrite Em. apply Z.eqb_refl.
    - unfold module_is_null. now rewrite Em. }
  conjuncts.
  - apply (Permutation_NoDup (l := map v_id (filter sel (videos st)))).
    + apply Permutation_map. symmetry. apply sort_perm.
    + now apply NoDup_map_filter.
  - apply in_map. apply sort_In. apply filter_In. auto.
  - intros b Hb. apply in_map_iff in Hb. destruct Hb as (vb & <- & Hvb).
    apply sort_In, filter_In in Hvb. destruct Hvb as [Hvb Hs].
    exists vb. split; [now apply find_unique|].
    now rewrite (Hsel vb Hvb Hs).
Qed.

Lemma getAdjacentVideos_eq id st :
  getAdjacentVideos id st
  = match find (fun v => v_id v =? id) (videos st) with
    | Some video =>
        (Ok (mkAdjacent
               match findIndex id (module_video_ids video st) with
               | Some (S i) => nth_error (module_video_ids video st) i
               | _ => None
               end
               match findIndex id (module_video_ids video st) with
               | Some i => nth_error (module_video_ids video st) (S i)
               | None => nth_error (module_video_ids video st) 0
               end), st)
    | None => (Throw (NotFoundError id), st)
    end.
Proof.
  unfold getAdjacentVideos, bind at 1, getVideoById, bind, get_video, ret, throw.
  destruct (find (fun v => v_id v =? id) (videos st)); reflexivity.
Qed.

(** X22.  Previous and next are each other's inverse: in a store the
    operations lead to, when getAdjacentVideos(a) names b as next, b is
    another video and getAdjacentVideos(b) names a as previous, and when it
    names b as previous, getAdjacentVideos(b) names a as next.  The call
    only reads the store. *)
Theorem getAdjacentVideos_symmetric a st r st' :
  reachable st ->
  getAdjacentVideos a st = (Ok r, st') ->
  st' = st /\
  (forall b, next r = Some b ->
             b <> a /\ exists r', getAdjacentVideos b st = (Ok r', st) /\ prev r' = Some a) /\
  (forall b, prev r = Some b ->
             b <> a /\ exists r', getAdjacentVideos b st = (Ok r', st) /\ next r' = Some a).
Proof.
  intros Hr H. pose proof (reachable_schema st Hr) as Hs.
  rewrite getAdjacentVideos_eq in H.
  destruct (find (fun v => v_id v =? a) (videos st)) as [video|] eqn:Ef; [|discriminate].
  apply find_video_In in Ef. destruct Ef as [Hin Ea].
  destruct (module_video_ids_facts st video Hs Hin) as (Hnd & Hself & Hothers).
  rewrite Ea in Hself.
  destruct (findIndex_In a _ Hself) as (i & Ei). rewrite Ei in H.
  pose proof (findIndex_nth _ _ _ Ei) as Hi.
  assert (Hnext : next r = nth_error (module_video_ids video st) (S i))
    by (inversion H; reflexivity).
  assert (Hprev : prev r = match i with
                           | S j => nth_error (module_video_ids video st) j
                           | O => None
                           end)
    by (inversion H; reflexivity).
  assert (Est : st' = st) by (inversion H; reflexivity).
  clear H. split; [assumption|]. split.
  - intros b Hb. rewrite Hnext in Hb.
    assert (Hbin : In b (module_video_ids video st)) by (eapply nth_error_In; eassumption).
    destruct (Hothers b Hbin) as (vb & Efb & Eids).
    split.
    + intros ->. pose proof (nth_findIndex _ Hnd _ _ Hb) as Hx.
      rewrite Ei in Hx. inversion Hx. lia.
    + rewrite getAdjacentVideos_eq, Efb, Eids. rewrite (nth_findIndex _ Hnd _ _ Hb).
      eexists. split; [reflexivity|]. exact Hi.
  - intros b Hb. rewrite Hprev in Hb. destruct i as [|i]; [discriminate|].
    assert (Hbin : In b (module_video_ids video st)) by (eapply nth_error_In; eassumption).
    destruct (Hothers b Hbin) as (vb & Efb & Eids).
    split.
    + intros ->. pose proof (nth_findIndex _ Hnd _ _ Hb) as Hx.
      rewrite Ei in Hx. inversion Hx. lia.
    + rewrite getAdjacentVideos_eq, Efb, Eids. rewrite (nth_findIndex _ Hnd _ _ Hb).
      eexists. split; [reflexivity|]. exact Hi.
Qed.

Lemma getAdjacentVideos_symmetric_witness :
  exists r r',
    getAdjacentVideos 1 course_store = (Ok r, course_store) /\ next r = Some 3 /\
    getAdjacentVideos 3 course_store = (Ok r', course_store) /\ prev r' = Some 1.
Proof.
  assert (H : reachable course_store).
  { apply (reachable_step empty); [constructor|].
    exact (step_scan 0 "/course" course_tree empty). }
  assert (E : exists r, getAdjacentVideos 1 course_store = (Ok r, course_store) /\
                        next r = Some 3) by (vm_compute; eauto).
  destruct E as (r & E & En).
  destruct (getAdjacentVideos_symmetric 1 course_store r course_store H E)
    as (_ & Hnext & _).
  destruct (Hnext 3 En) as (_ & r' & E' & Ep).
  exists r, r'. auto.
Defined.

(** ** Reading back *)

Lemma getVideoById_eq id st :
  getVideoById id st
  = match find (fun v => v_id v =? id) (videos st) with
    | Some video => (Ok video, st)
    | None => (Throw (NotFoundError id), st)
    end.
Proof.
  unfold getVideoById, bind, get_video, ret, throw.
  destruct (find (fun v => v_id v =? id) (videos st)); reflexivity.
Qed.

(** X23.  The progress updates return the row as it is stored: after a
    successful updatePosition or updateStatus the result is the row that
    getVideoById then finds under the id.  After markUnwatched that row is
    unwatched at position 0; after markCompleted it is completed, at the
    position and with the duration it had before. *)
Theorem updates_return_stored_row now videoId st :
  (forall position duration result st',
      updatePosition now videoId position duration st = (Ok result, st') ->
      exists row, result = Some row /\ getVideoById videoId st' = (Ok row, st')) /\
  (forall text result st',
      updateStatus now videoId text st = (Ok result, st') ->
      exists row, result = Some row /\ getVideoById videoId st' = (Ok row, st')) /\
  (forall result st',
      markUnwatched now videoId st = (Ok result, st') ->
      exists row, result = Some row /\ v_status row = Unwatched /\ v_position row = zero) /\
  (forall result st',
      markCompleted now videoId st = (Ok result, st') ->
      exists old row,
        find (fun v => v_id v =? videoId) (videos st) = Some old /\
        result = Some row /\ v_status row = Completed /\
        v_position row = v_position old /\ v_duration row = v_duration old).
Proof.
  assert (Hstatus : forall text status result st',
             parse_status text = Some status ->
             updateStatus now videoId text st = (Ok result, st') ->
             exists old,
               find (fun v => v_id v =? videoId) (videos st) = Some old /\
               result = Some (set_status status
                                (if status_eqb status Unwatched then zero
                                 else v_position old) now old) /\
               st' = set_videos
                       (map (fun v => if v_id v =? videoId
                                      then set_status status
                                             (if status_eqb status Unwatched then zero
                                              else v_position old) now v
                                      else v) (videos st)) st).
  { intros text status result st' Hp H.
    destruct (find (fun v => v_id v =? videoId) (videos st)) as [old|] eqn:Hf.
    - rewrite (updateStatus_found _ _ _ _ _ _ Hp Hf) in H. inversion H; subst. eauto.
    - destruct (updateStatus_throws now videoId text st) as (e & He); [auto|].
      rewrite He in H. discriminate. }
  conjuncts.
  - intros [p|] d result st' H;
      [|rewrite updatePosition_not_a_number in H; discriminate].
    destruct (ltb p zero) eqn:Hg;
      [rewrite updatePosition_rejected in H by assumption; discriminate|].
    destruct (find (fun v => v_id v =? videoId) (videos st)) as [video|] eqn:Hf;
      [|rewrite updatePosition_not_found in H by assumption; discriminate].
    rewrite (updatePosition_found _ _ _ _ _ _ Hg Hf) in H. inversion H; subst.
    eexists. split; [reflexivity|]. rewrite getVideoById_eq. cbn [videos set_videos].
    rewrite find_update_video by reflexivity. rewrite Hf. reflexivity.
  - intros text result st' H.
    destruct (parse_status text) as [status|] eqn:Hp.
    + destruct (Hstatus text status result st' Hp H) as (old & Hf & -> & ->).
      eexists. split; [reflexivity|]. rewrite getVideoById_eq. cbn [videos set_videos].
      rewrite find_update_video by reflexivity. rewrite Hf. reflexivity.
    + destruct (updateStatus_throws now videoId text st) as (e & He); [auto|].
      rewrite He in H. discriminate.
  - intros result st' H.
    destruct (Hstatus "unwatched" Unwatched result st' eq_refl H) as (old & _ & -> & _).
    eexists. split; [reflexivity|]. split; reflexivity.
  - intros result st' H.
    destruct (Hstatus "completed" Completed result st' eq_refl H) as (old & Hf & -> & _).
    exists old. eexists. split; [assumption|]. split; [reflexivity|]. cbn. auto.
Qed.

(** X24.  getStats counts rows: total is the number of stored videos,
    completed and inProgress are the numbers of rows with that status, and
    unwatched, which is computed as the rest, is the number of rows with
    status unwatched; the three add up to total, none is negative, an empty
    store has 0 percent, and the store is not changed. *)
Theorem getStats_counts_rows st :
  exists s,
    getStats st = (Ok s, st) /\
    s_total s = Z.of_nat (List.length (videos st)) /\
    s_completed s = count_videos (fun v => status_eqb (v_status v) Completed) st /\
    s_inProgress s = count_videos (fun v => status_eqb (v_status v) InProgress) st /\
    s_unwatched s = count_videos (fun v => status_eqb (v_status v) Unwatched) st /\
    s_unwatched s + s_inProgress s + s_completed s = s_total s /\
    0 <= s_unwatched s /\ 0 <= s_inProgress s /\ 0 <= s_completed s /\
    (videos st = [] -> s_percentComplete s = zero).
Proof.
  destruct (getStats_counts st) as (s & Es & Et & Hsum & _ & Eu & Hz).
  exists s. split; [assumption|]. split; [assumption|].
  assert (Ec : s_completed s = count_videos (fun v => status_eqb (v_status v) Completed) st)
    by (unfold getStats in Es; inversion Es; reflexivity).
  assert (Ei : s_inProgress s = count_videos (fun v => status_eqb (v_status v) InProgress) st)
    by (unfold getStats in Es; inversion Es; reflexivity).
  conjuncts; try assumption.
  - rewrite Eu. unfold count_videos. lia.
  - rewrite Ei. unfold count_videos. lia.
  - rewrite Ec. unfold count_videos. lia.
  - intros E. apply Hz. rewrite Et, E. reflexivity.
Qed.

(** ** From the folder to the listing *)

Lemma append_cancel (s a b : string) : (s ++ a = s ++ b)%string -> a = b.
Proof. induction s as [|c s IH]; cbn; intros H; [assumption|]. inversion H; auto. Qed.

Lemma join_injective dir a b : join dir a = join dir b -> a = b.
Proof.
  unfold join. destruct (dir =? "")%string; [auto|].
  destruct (ends_with_slash dir); intros H; apply append_cancel in H;
    [assumption|]. now inversion H.
Qed.

Lemma findVideoFiles_module dir tree f :
  In f (_findVideoFiles dir tree) ->
  moduleName f = "Root" \/ modulePath f = join dir (moduleName f).
Proof.
  unfold _findVideoFiles. destruct tree as [entries|]; [|intros []].
  unfold sortBySortOrder. rewrite sort_In, in_flat_map.
  intros (e & _ & Hf). apply visit_spec in Hf.
  destruct Hf as (folders & n & _ & _ & ->). unfold discovered. cbn.
  destruct folders; cbn; auto.
Qed.

Lemma reconcile_modules now f c st c' st' :
  reconcile now f c st = (Ok c', st') ->
  modules st' = modules st \/
  exists r, modules st' = (modules st ++ [r])%list /\
            m_name r = moduleName f /\ m_path r = modulePath f.
Proof.
  rewrite reconcile_eq.
  destruct (find (fun v => v_path v =? path f)%string (videos st)) as [v0|].
  { intros H. inversion H; subst. now left. }
  assert (Hm : exists mid st1,
             _getOrCreateModule now (modulePath f) (moduleName f) st = (Ok mid, st1) /\
             (modules st1 = modules st \/
              exists r, modules st1 = (modules st ++ [r])%list /\
                        m_name r = moduleName f /\ m_path r = modulePath f)).
  { unfold _getOrCreateModule.
    destruct (moduleName f =? "Root")%string; [do 2 eexists; split; [reflexivity|now left]|].
    unfold bind, get_module_id_by_path, insert_module, ret.
    destruct (find (fun m => m_path m =? modulePath f)%string (modules st)) as [m|] eqn:Ef;
      cbn [option_map]; [do 2 eexists; split; [reflexivity|now left]|].
    assert (Hx : existsb (fun m => m_path m =? modulePath f)%string (modules st) = false).
    { destruct (existsb _ (modules st)) eqn:Ex; [|reflexivity].
      apply existsb_exists in Ex. destruct Ex as (m & Hin & Hm).
      apply (find_none _ _ Ef) in Hin. congruence. }
    rewrite Hx. do 2 eexists. split; [reflexivity|]. right. cbn. eauto. }
  destruct Hm as (mid & st1 & Em & Hm). rewrite Em. unfold insert_video.
  destruct (existsb (fun v => v_path v =? path f)%string (videos st1)); [discriminate|].
  destruct (match mid with
            | Some m => negb (existsb (fun r => m_id r =? m) (modules st1))
            | None => false
            end); [discriminate|].
  intros H. inversion H; subst. exact Hm.
Qed.

Lemma reconcile_all_module_names dir now videos_found : forall c st c' st',
  (forall f, In f videos_found ->
             moduleName f = "Root" \/ modulePath f = join dir (moduleName f)) ->
  reconcile_all now videos_found c st = (Ok c', st') ->
  (forall r, In r (modules st) -> m_path r = join dir (m_name r)) ->
  forall r, In r (modules st') -> m_path r = join dir (m_name r).
Proof.
  induction videos_found as [|f fs IH]; intros c st c' st' Hfs; cbn [reconcile_all].
  - intros H. inversion H; subst. auto.
  - unfold bind at 1. destruct (reconcile_total now f c st) as (c1 & st1 & E1).
    rewrite E1. intros H Hst. apply (IH c1 st1 c' st'); [auto using in_cons|assumption|].
    intros r Hr.
    destruct (reconcile_modules now f c st c1 st1 E1) as [E|(r0 & E & En & Ep)];
      rewrite E in Hr; [auto|].
    apply in_app_or in Hr. destruct Hr as [Hr|[<-|[]]]; [auto|].
    rewrite En, Ep.
    destruct (Hfs f (or_introl eq_refl)) as [Hroot|Hpath]; [|assumption].
    exfalso. revert E1. rewrite reconcile_eq.
    destruct (find (fun v => v_path v =? path f)%string (videos st)).
    + intros H1. inversion H1; subst. cbn in E.
      apply (f_equal (@List.length module_row)) in E. rewrite length_app in E. cbn in E. lia.
    + unfold _getOrCreateModule. rewrite Hroot. cbn [String.eqb Ascii.eqb Bool.eqb].
      unfold ret, insert_video.
      destruct (existsb (fun v => v_path v =? path f)%string (videos st)); [discriminate|].
      intros H1. inversion H1; subst. cbn in E.
      apply (f_equal (@List.length module_row)) in E. rewrite length_app in E. cbn in E. lia.
Qed.

Lemma listing_In sortBy st v :
  schema_holds st -> In v (videos st) ->
  exists groups g,
    getAllModulesWithVideos sortBy st = (Ok groups, st) /\
    In g groups /\ In v (g_videos g) /\
    match v_module_id v with
    | None => g_name g = "Videos"
    | Some m => exists r, In r (modules st) /\ m_id r = m /\ g_name g = m_name r
    end.
Proof.
  intros [] Hv. unfold getAllModulesWithVideos.
  destruct (v_module_id v) as [m|] eqn:Em.
  - destruct (video_module_exists0 v m Hv Em) as (r & Hr & Er).
    do 2 eexists. split; [reflexivity|].
    split; [apply in_or_app; right; apply in_map_iff; exists r; split; [reflexivity|]|].
    + apply sort_In. exact Hr.
    + cbn [g_videos g_name]. split; [|eauto].
      apply sort_In, filter_In. split; [assumption|].
      unfold module_is. rewrite Em, Er. apply Z.eqb_refl.
  - assert (Hin : In v (sort (orderClause sortBy) (filter module_is_null (videos st)))).
    { apply sort_In, filter_In. split; [assumption|]. unfold module_is_null. now rewrite Em. }
    destruct (sort (orderClause sortBy) (filter module_is_null (videos st)))
      as [|v0 l] eqn:Es; [contradiction|].
    do 2 eexists. split; [reflexivity|].
    split; [apply in_or_app; left; left; reflexivity|].
    cbn [g_videos g_name]. auto.
Qed.

(** X25.  From the folder to the library page: after the first scan of a
    course folder whose files have distinct paths, getAllModulesWithVideos
    shows every discovered video, with the path, filename and title
    discovery gave it, in the group named after the outermost folder the
    file lies in, and in the group 'Videos' when the file lies directly in
    the course folder (or its module name is 'Root'). *)
Theorem first_scan_then_listing now coursePath tree sortBy result st' :
  NoDup (map path (_findVideoFiles coursePath tree)) ->
  scanVideos now coursePath tree empty = (Ok result, st') ->
  forall f, In f (_findVideoFiles coursePath tree) ->
    exists groups g v,
      getAllModulesWithVideos sortBy st' = (Ok groups, st') /\
      In g groups /\ In v (g_videos g) /\
      v_path v = path f /\ v_filename v = filename f /\ v_title v = title f /\
      g_name g = if (moduleName f =? "Root")%string then "Videos" else moduleName f.
Proof.
  intros Hnd H f Hf.
  destruct (scanVideos_ok now coursePath tree empty) as (c & st0 & E & Es).
  rewrite Es in H. inversion H; subst. clear H.
  pose proof (reachable_schema empty reachable_empty) as Hs0.
  pose proof (reconcile_all_schema _ _ _ _ _ _ Hs0 E) as Hs.
  destruct (reconcile_all_rows now _ _ _ _ _ Hs0 Hnd E) as (_ & _ & Hrows & _).
  destruct (Hrows f Hf) as (v & Hv & Ep & Et & Hi).
  destruct Hi as (_ & Efn & _ & _ & _ & _ & Hmod); [intros []|].
  assert (Hnames : forall r, In r (modules st') -> m_path r = join coursePath (m_name r)).
  { apply (reconcile_all_module_names coursePath now _ _ _ _ _
             (findVideoFiles_module coursePath tree) E).
    intros r []. }
  destruct (listing_In sortBy st' v Hs Hv) as (groups & g & Eg & Hg & Hvg & Hname).
  exists groups, g, v. conjuncts; try assumption.
  destruct (v_module_id v) as [m|].
  - destruct Hmod as (Hroot & r0 & Hr0 & Em0 & Ep0).
    destruct Hname as (r & Hr & Em & ->).
    apply String.eqb_neq in Hroot. rewrite Hroot.
    assert (r = r0).
    { apply (NoDup_map_inj m_id (modules st')); [now destruct Hs|assumption..|congruence]. }
    subst r0.
    destruct (findVideoFiles_module coursePath tree f Hf) as [Hr'|Hp'].
    + apply String.eqb_neq in Hroot. contradiction.
    + apply (join_injective coursePath). rewrite <- Hnames by assumption. congruence.
  - rewrite Hmod. cbn. exact Hname.
Qed.

Lemma first_scan_then_listing_witness :
  exists groups g v,
    getAllModulesWithVideos "name" course_store = (Ok groups, course_store) /\
    In g groups /\ In v (g_videos g) /\
    v_title v = "01. First Lesson" /\ g_name g = "Module 1 - Basics".
Proof.
  assert (Hnd : NoDup (map path (_findVideoFiles "/course" course_tree))).
  { vm_compute. repeat constructor; cbn; intuition discriminate. }
  assert (E : scanVideos 0 "/course" course_tree empty = (Ok (mkScan 4 4 0), course_store)).
  { vm_compute. reflexivity. }
  destruct (first_scan_then_listing 0 "/course" course_tree "name" _ _ Hnd E
              (mkFound "/course/Module 1 - Basics/01. First Lesson.mp4"
                       "01. First Lesson.mp4" "01. First Lesson"
                       "Module 1 - Basics" "/course/Module 1 - Basics" 1))
    as (groups & g & v & Eg & Hg & Hv & _ & _ & Ht & Hn).
  { vm_compute. auto 6. }
  exists groups, g, v. auto 6.
Defined.
